(** * COCO annotation merging and mask aggregation

    A shallow embedding of [train/utils/merge_annotations.py] and of the
    aggregation logic of [train/data/fiber/convert_coco_to_masks.py],
    together with the properties stated about them.

    The development has three parts:
    - a value-level model of the JSON documents and of the merge functions
      (Python dictionaries as finite maps, exceptions as an error monad),
      with [main] over the answers of the file system;
    - a model of the mask script over the interface of the run-length codec
      it calls;
    - a store-level model of the merge (objects in a heap, reached through
      references) used for the frame property of the merge.

    The naming of the copies in [train/data/fiber/copy_fused_images.py] is
    modelled as well. *)

From Stdlib Require Import ZArith Floats.SpecFloat.
From stdpp Require Import gmap strings list fin_maps pretty.

Local Open Scope Z_scope.

(** ** Exceptions *)

(** The exception classes that the modelled code can meet. *)
Inductive exn_class :=
| ValueError | TypeError | KeyError | OverflowError | AttributeError | IndexError
| RecursionError | SystemError | Exception.

Global Instance exn_class_eq_dec : EqDecision exn_class.
Proof. solve_decision. Defined.

(** [Raised c msg] is [raise c(msg)] written in the source; [Builtin c] is an
    exception of class [c] raised by the interpreter or by a library, whose
    message is not modelled. *)
Inductive exn :=
| Raised (c : exn_class) (msg : string)
| Builtin (c : exn_class).

Definition class_of (e : exn) : exn_class :=
  match e with Raised c _ => c | Builtin c => c end.

Inductive result (A : Type) :=
| Ok (a : A)
| Err (e : exn).
Global Arguments Ok {A} a.
Global Arguments Err {A} e.

Global Instance result_ret : MRet result := λ A a, Ok a.
Global Instance result_bind : MBind result := λ A B f r,
  match r with Ok a => f a | Err e => Err e end.

Definition is_ok {A} (r : result A) : bool :=
  match r with Ok _ => true | Err _ => false end.

(** [except cs]: does a clause [except (c1, ..., cn)] catch [e]?  A clause
    naming [Exception] catches every class. *)
Definition except (cs : list exn_class) (e : exn) : bool :=
  bool_decide (class_of e ∈ cs) || bool_decide (Exception ∈ cs).

(** [try: body except cs: handler]. *)
Definition try_except {A} (body : result A) (cs : list exn_class)
    (handler : result A) : result A :=
  match body with
  | Ok a => Ok a
  | Err e => if except cs e then handler else Err e
  end.

(** ** JSON values, as [json.load] builds them *)

#[warnings="-register-all"]
Inductive json :=
| JNull
| JBool (b : bool)
| JInt (z : Z)
| JFloat (f : spec_float)
| JStr (s : string)
| JList (l : list json)
| JObj (m : gmap string json).

(** ** The Python operations used by the scripts *)

Section Python.

(** [int(s)] for a string [s]: [Some z] when [s] is accepted as a base-10
    integer literal, [None] when [int] raises [ValueError]. *)
Variable int_of_str : string → option Z.

(** [int(v)]. Floats are truncated toward zero; [nan] raises [ValueError]
    and an infinity raises [OverflowError]. *)
Definition py_int (v : json) : result Z :=
  match v with
  | JInt z => Ok z
  | JBool b => Ok (if b then 1 else 0)
  | JFloat (S754_zero _) => Ok 0
  | JFloat (S754_finite s m e) =>
      let r := Z.shiftl (Z.pos m) e in Ok (if s then - r else r)
  | JFloat S754_nan => Err (Builtin ValueError)
  | JFloat (S754_infinity _) => Err (Builtin OverflowError)
  | JStr s =>
      match int_of_str s with
      | Some z => Ok z
      | None => Err (Builtin ValueError)
      end
  | JNull | JList _ | JObj _ => Err (Builtin TypeError)
  end.

Fixpoint is_substring (p s : string) : bool :=
  String.prefix p s ||
  match s with
  | EmptyString => false
  | String _ s' => is_substring p s'
  end.

(** [key in v] for a string [key]. *)
Definition py_in (key : string) (v : json) : result bool :=
  match v with
  | JObj m => Ok (bool_decide (is_Some (m !! key)))
  | JList l =>
      Ok (existsb (λ x, match x with JStr s => bool_decide (s = key) | _ => false end) l)
  | JStr s => Ok (is_substring key s)
  | JNull | JBool _ | JInt _ | JFloat _ => Err (Builtin TypeError)
  end.

(** [v[key]] for a string [key]. *)
Definition getitem (v : json) (key : string) : result json :=
  match v with
  | JObj m =>
      match m !! key with
      | Some x => Ok x
      | None => Err (Builtin KeyError)
      end
  | _ => Err (Builtin TypeError)
  end.

(** [v[key] = x] for a string [key], returning the updated value. *)
Definition setitem (v : json) (key : string) (x : json) : result json :=
  match v with
  | JObj m => Ok (JObj (<[key := x]> m))
  | _ => Err (Builtin TypeError)
  end.

(** [v.pop(key, None)], returning the updated value. *)
Definition pop (v : json) (key : string) : result json :=
  match v with
  | JObj m => Ok (JObj (delete key m))
  | _ => Err (Builtin AttributeError)
  end.

(** [copy.deepcopy]: on immutable values a copy is the value itself. *)
Definition deepcopy (v : json) : json := v.

(** Iterating over a value declared as a [List]. *)
Definition as_list (v : json) : result (list json) :=
  match v with
  | JList l => Ok l
  | _ => Err (Builtin TypeError)
  end.

(** ** merge_annotations.py *)

Definition validate_coco_like (payload : json) (label : string) : result unit :=
  match payload with
  | JObj m =>
      foldl (λ (acc : result unit) key,
               acc ≫= λ _,
               match m !! key with
               | None => Err (Raised ValueError (label +:+ " missing required key: " +:+ key))
               | Some (JList _) => Ok ()
               | Some _ => Err (Raised ValueError (label +:+ "." +:+ key +:+ " must be a list"))
               end)
            (Ok ()) ["images"; "annotations"]%string
  | _ => Err (Raised ValueError (label +:+ " must be a JSON object"))
  end.

(** The loop of [get_max_id], from the current value of [max_id]. *)
Fixpoint get_max_id_loop (max_id : Z) (items : list json) (key : string) : result Z :=
  match items with
  | [] => Ok max_id
  | item :: rest =>
      match getitem item key ≫= py_int with
      | Ok value =>
          get_max_id_loop (if bool_decide (value > max_id) then value else max_id) rest key
      | Err e =>
          if except [KeyError; TypeError; ValueError] e
          then get_max_id_loop max_id rest key
          else Err e
      end
  end.

Definition get_max_id (items : list json) (key : string) : result Z :=
  get_max_id_loop 0 items key.

Definition missing_image_id : exn :=
  Raised ValueError "Every image must contain an 'id' field".

(** The body of the loop of [build_image_id_mapping] for one image: the
    rewritten copy and the old id. *)
Definition build_image_id_mapping_body (image : json) (image_id_offset : Z)
    : result (json * Z) :=
  has_id ← py_in "id" image;
  if negb has_id then Err missing_image_id else
  old_id ← getitem image "id" ≫= py_int;
  let new_id := old_id + image_id_offset in
  new_image ← setitem (deepcopy image) "id" (JInt new_id);
  Ok (new_image, old_id).

(** The loop of [build_image_id_mapping], from the current values of
    [updated_images] and [old_to_new]. *)
Fixpoint build_image_id_mapping_loop (images_b : list json) (image_id_offset : Z)
    (updated_images : list json) (old_to_new : gmap Z Z)
    : result (list json * gmap Z Z) :=
  match images_b with
  | [] => Ok (updated_images, old_to_new)
  | image :: rest =>
      '(new_image, old_id) ← build_image_id_mapping_body image image_id_offset;
      build_image_id_mapping_loop rest image_id_offset
        (updated_images ++ [new_image])
        (<[old_id := old_id + image_id_offset]> old_to_new)
  end.

Definition build_image_id_mapping (images_b : list json) (image_id_offset : Z)
    : result (list json * gmap Z Z) :=
  build_image_id_mapping_loop images_b image_id_offset [] ∅.

Definition missing_image_ref : exn :=
  Raised ValueError "Every annotation must contain an 'image_id' field".

Definition unknown_image_ref (old_image_id : Z) : exn :=
  Raised ValueError ("Annotation references unknown image_id " +:+ pretty old_image_id
                     +:+ " from second file").

(** The body of the loop of [remap_annotations] for one annotation. *)
Definition remap_annotations_body (ann : json) (image_id_map : gmap Z Z)
    (annotation_id_offset : Z) : result json :=
  has_ref ← py_in "image_id" ann;
  if negb has_ref then Err missing_image_ref else
  old_image_id ← getitem ann "image_id" ≫= py_int;
  match image_id_map !! old_image_id with
  | None => Err (unknown_image_ref old_image_id)
  | Some new_image_id =>
      new_ann ← setitem (deepcopy ann) "image_id" (JInt new_image_id);
      has_id ← py_in "id" ann;
      if (has_id : bool) then
        try_except
          (id ← getitem ann "id" ≫= py_int;
           setitem new_ann "id" (JInt (id + annotation_id_offset)))
          [TypeError; ValueError]
          (pop new_ann "id")
      else Ok new_ann
  end.

Fixpoint remap_annotations_loop (annotations_b : list json) (image_id_map : gmap Z Z)
    (annotation_id_offset : Z) (updated_annotations : list json) : result (list json) :=
  match annotations_b with
  | [] => Ok updated_annotations
  | ann :: rest =>
      new_ann ← remap_annotations_body ann image_id_map annotation_id_offset;
      remap_annotations_loop rest image_id_map annotation_id_offset
        (updated_annotations ++ [new_ann])
  end.

Definition remap_annotations (annotations_b : list json) (image_id_map : gmap Z Z)
    (annotation_id_offset : Z) : result (list json) :=
  remap_annotations_loop annotations_b image_id_map annotation_id_offset [].

(** [for key, value in a.items(): if key not in merged: merged[key] = deepcopy(value)] *)
Definition carry_over (a merged : gmap string json) : gmap string json :=
  map_fold (λ (key : string) (value : json) (merged : gmap string json),
              if bool_decide (is_Some (merged !! key)) then merged
              else <[key := deepcopy value]> merged)
           merged a.

(** [merge_instances].  The warning written to [stderr] when the two
    [categories] differ has no influence on the returned value and is left
    out. *)
Definition merge_instances (a b : json) : result json :=
  validate_coco_like a "First JSON";;
  validate_coco_like b "Second JSON";;
  a_images ← getitem a "images" ≫= as_list;
  max_image_id_a ← get_max_id a_images "id";
  a_annotations ← getitem a "annotations" ≫= as_list;
  max_ann_id_a ← get_max_id a_annotations "id";
  b_images ← getitem b "images" ≫= as_list;
  '(updated_images_b, image_id_map) ← build_image_id_mapping b_images max_image_id_a;
  b_annotations ← getitem b "annotations" ≫= as_list;
  updated_annotations_b ← remap_annotations b_annotations image_id_map max_ann_id_a;
  match a with
  | JObj ma =>
      let merged : gmap string json := ∅ in
      let merged :=
        foldl (λ merged key,
                 match ma !! key with
                 | Some v => <[key := deepcopy v]> merged
                 | None => merged
                 end)
              merged ["info"; "licenses"; "categories"]%string in
      let merged := <["images" := JList (a_images ++ updated_images_b)]> merged in
      let merged := <["annotations" := JList (a_annotations ++ updated_annotations_b)]> merged in
      Ok (JObj (carry_over ma merged))
  | _ => Err (Builtin TypeError)
  end.

End Python.


(** ** Vocabulary of the statements about the merge *)

(** [item] is an object that carries the integer [z] under [key]. *)
Definition carries (key : string) (z : Z) (item : json) : Prop :=
  ∃ m, item = JObj m ∧ m !! key = Some (JInt z).

(** [item] is an object whose field [key] is present and converted by [int]
    to [z]. *)
Definition reads_as (int_of_str : string → option Z) (key : string) (z : Z) (item : json)
    : Prop :=
  ∃ m v, item = JObj m ∧ m !! key = Some v ∧ py_int int_of_str v = Ok z.

(** The field [key] of an object set to the integer [z]. *)
Definition with_field (key : string) (z : Z) (item : json) : json :=
  match item with
  | JObj m => JObj (<[key := JInt z]> m)
  | _ => item
  end.

(** [item] is an object without the field [key]. *)
Definition lacks (key : string) (item : json) : Prop :=
  ∃ m, item = JObj m ∧ m !! key = None.

(** [item] is an object whose field [key], when present, is an integer. *)
Definition integer_or_absent (key : string) (item : json) : Prop :=
  ∃ m, item = JObj m ∧ ∀ v, m !! key = Some v → ∃ z, v = JInt z.

(** [d] is an object with the lists [images] and [annotations] under the two
    required keys: what [validate_coco_like] accepts. *)
Definition dataset (d : json) (images annotations : list json) : Prop :=
  ∃ m, d = JObj m ∧ m !! "images" = Some (JList images)
       ∧ m !! "annotations" = Some (JList annotations).

(** The field [key] of an object shifted by [offset] when it is an integer;
    every other field, and every other value, is left as it is. *)
Definition shifted (key : string) (offset : Z) (item : json) : json :=
  match item with
  | JObj m =>
      match m !! key with
      | Some (JInt z) => JObj (<[key := JInt (z + offset)]> m)
      | _ => item
      end
  | _ => item
  end.

(** The annotation [ann] of the second dataset as the merge rewrites it. *)
Definition remapped_annotation (image_id_offset annotation_id_offset : Z)
    (ann : json) : json :=
  shifted "id" annotation_id_offset (shifted "image_id" image_id_offset ann).

(** The top-level object of the merge of [ma] with the given lists: the two
    lists under their keys and every other field as in [ma]. *)
Definition merged_object (ma : gmap string json) (images annotations : list json)
    : gmap string json :=
  <["images" := JList images]> (<["annotations" := JList annotations]> ma).

(** The first dataset as the data model types it: the two lists, whose
    elements are objects with an integer [id] or none. *)
Definition first_dataset (a : json) (images annotations : list json) : Prop :=
  dataset a images annotations
  ∧ Forall (integer_or_absent "id") images
  ∧ Forall (integer_or_absent "id") annotations.


(** An annotation of a dataset whose images carry the ids [image_ids]: an
    object with an integer [image_id] among them and with an integer [id] or
    none. *)
Definition annotation_record (image_ids : list Z) (ann : json) : Prop :=
  (∃ z, carries "image_id" z ann ∧ z ∈ image_ids) ∧ integer_or_absent "id" ann.

(** The second dataset as the data model types it: its images carry the ids
    [image_ids], and its annotations refer to them. *)
Definition second_dataset (b : json) (images annotations : list json)
    (image_ids : list Z) : Prop :=
  dataset b images annotations
  ∧ Forall2 (carries "id") image_ids images
  ∧ Forall (annotation_record image_ids) annotations.

(** The errors raised for an annotation whose image reference is missing or
    unknown. *)
Definition dangling_reference (e : exn) : Prop :=
  e = missing_image_ref ∨ ∃ z, e = unknown_image_ref z.

(** The image reference of [ann] does not resolve in the dataset whose
    images are [images_b]: the field [image_id] is missing, or it is there
    and [int] does not convert it to a key of the mapping built from
    [images_b]. *)
Definition unresolved (int_of_str : string → option Z) (images_b : list json)
    (ann : json) : Prop :=
  lacks "image_id" ann
  ∨ ∃ m v, ann = JObj m ∧ m !! "image_id" = Some v
           ∧ ∀ z off new_images mp,
               py_int int_of_str v = Ok z →
               build_image_id_mapping int_of_str images_b off = Ok (new_images, mp) →
               mp !! z = None.

(** An annotation record whose fields [image_id] and [id], when present,
    are integers. *)
Definition typed_annotation (ann : json) : Prop :=
  integer_or_absent "image_id" ann ∧ integer_or_absent "id" ann.


(** An instance of [int_of_str] for the examples: an optionally signed run
    of ASCII digits. *)
Fixpoint digits_value (acc : Z) (s : string) : option Z :=
  match s with
  | EmptyString => Some acc
  | String c s' =>
      let n := Z.of_nat (Ascii.nat_of_ascii c) in
      if bool_decide (48 ≤ n ≤ 57) then digits_value (10 * acc + (n - 48)) s' else None
  end.

Definition decimal_int (s : string) : option Z :=
  match s with
  | EmptyString => None
  | String c (String _ _ as s') =>
      if Ascii.eqb c (Ascii.ascii_of_nat 45) then Z.opp <$> digits_value 0 s'
      else if Ascii.eqb c (Ascii.ascii_of_nat 43) then digits_value 0 s'
      else digits_value 0 s
  | _ => digits_value 0 s
  end.

(** ** Example documents *)

(** [{k1: v1, ..., kn: vn}] *)
Definition obj (fields : list (string * json)) : json := JObj (list_to_map fields).

Definition image_1 : json := obj [("id", JInt 1); ("file_name", JStr "a.jpg")].
Definition image_2 : json := obj [("id", JInt 2); ("file_name", JStr "b.jpg")].
Definition image_0 : json := obj [("id", JInt 0); ("file_name", JStr "c.jpg")].
Definition image_without_id : json := obj [("file_name", JStr "d.jpg")].
Definition image_named : json := obj [("id", JStr "img_001"); ("file_name", JStr "e.jpg")].

Definition annotation_1_on_2 : json :=
  obj [("id", JInt 1); ("image_id", JInt 2); ("category_id", JInt 1)].
Definition annotation_1_on_1 : json :=
  obj [("id", JInt 1); ("image_id", JInt 1); ("category_id", JInt 1)].
Definition annotation_on_1 : json := obj [("image_id", JInt 1)].
Definition annotation_on_9 : json := obj [("id", JInt 3); ("image_id", JInt 9)].

(** An annotation whose id was read from the JSON number [1e999]. *)
Definition annotation_infinite_id : json :=
  obj [("id", JFloat (S754_infinity false)); ("image_id", JInt 1)].

Definition dataset_a : json :=
  obj [("info", obj [("year", JInt 2024)]);
       ("categories", JList [obj [("id", JInt 1); ("name", JStr "fiber")]]);
       ("images", JList [image_1; image_2]);
       ("annotations", JList [annotation_1_on_2])].

Definition dataset_b : json :=
  obj [("images", JList [image_1]);
       ("annotations", JList [annotation_1_on_1; annotation_on_1])].

Definition dataset_empty : json := obj [("images", JList []); ("annotations", JList [])].

(** A second dataset whose only image has id [0]. *)
Definition dataset_zero : json := obj [("images", JList [image_0]); ("annotations", JList [])].

(** A second dataset with an annotation whose id is an infinite float. *)
Definition dataset_infinite_id : json :=
  obj [("images", JList [image_1]); ("annotations", JList [annotation_infinite_id])].

(** ** convert_coco_to_masks.py *)

(** [v.get(key, fallback)]. *)
Definition py_get (v : json) (key : string) (fallback : json) : result json :=
  match v with
  | JObj m => Ok (default fallback (m !! key))
  | _ => Err (Builtin AttributeError)
  end.

(** The truth value of [v], as [or] and [if] test it. *)
Definition truthy (v : json) : bool :=
  match v with
  | JNull => false
  | JBool b => b
  | JInt z => negb (z =? 0)
  | JFloat (S754_zero _) => false
  | JFloat _ => true
  | JStr s => negb (String.eqb s "")
  | JList l => negb (bool_decide (l = []))
  | JObj m => negb (bool_decide (dom m = ∅))
  end.

(** The label of the mask of [ann] in [save_instance_masks]:
    [ann.get('id', None) or ann.get('instance_id', None) or ann.get('annId', None)],
    replaced by [ann.get('category_id', 0)] when it is [None]. *)
Definition instance_label (ann : json) : result json :=
  id ← py_get ann "id" JNull;
  inst_id ←
    (if truthy id then Ok id else
     instance_id ← py_get ann "instance_id" JNull;
     if truthy instance_id then Ok instance_id else py_get ann "annId" JNull);
  match inst_id with
  | JNull => py_get ann "category_id" (JInt 0)
  | _ => Ok inst_id
  end.

(** A mask: [h] rows of [w] pixels. *)
Definition mask (A : Type) : Type := list (list A).

(** [np.zeros((h, w), dtype=np.uint8)] *)
Definition zeros (h w : Z) : result (mask Z) :=
  if bool_decide (0 ≤ h ∧ 0 ≤ w)
  then Ok (replicate (Z.to_nat h) (replicate (Z.to_nat w) 0))
  else Err (Builtin ValueError).

Definition mask_or (m1 m2 : mask bool) : mask bool := zip_with (zip_with orb) m1 m2.

(** [np.any(m, axis=2)] on the masks stacked along the last axis. *)
Definition any_axis2 (ms : list (mask bool)) : mask bool :=
  match ms with
  | [] => []
  | m :: ms' => foldl mask_or m ms'
  end.

(** [m.astype(np.uint8) * 255] for an array of booleans. *)
Definition times_255 (m : mask bool) : mask Z :=
  map (map (λ b : bool, if b then 255 else 0)) m.

(** [m.astype(np.uint8) * 255] for an array of bytes: the product is taken
    in [uint8] and wraps around. *)
Definition scale_255 (m : mask Z) : mask Z :=
  map (map (λ b : Z, (b * 255) `mod` 256)) m.

(** The truth values of the bytes of an array, as [np.any] reads them. *)
Definition nonzero (m : mask Z) : mask bool :=
  map (map (λ b : Z, negb (b =? 0))) m.

(** [len(v)] *)
Definition py_len (v : json) : result nat :=
  match v with
  | JList l => Ok (length l)
  | JStr s => Ok (String.length s)
  | JObj m => Ok (size m)
  | _ => Err (Builtin TypeError)
  end.

(** *** The codec

    The script calls [pycocotools.mask], which is not part of the
    repository.  Its Python layer ([mask.py] and the wrappers of
    [_mask.pyx]) is modelled below; the run-length routines underneath are
    parameters. *)

Section Codec.

(** A run-length encoding, as the routines of the codec hold it. *)
Variable rle : Type.

(** The encodings computed for a list of objects ([frBbox], [frPoly] or
    [frUncompressedRLE], one encoding per element), or the exception raised
    on the way. *)
Variable frList : list json → Z → Z → result (list rle).

(** The encoding computed for a list that is itself one object
    ([frBbox([pyobj])[0]] for four entries, [frPoly([pyobj])[0]] for more),
    or the exception raised on the way. *)
Variable frObject : list json → Z → Z → result rle.

(** The encoding computed for one object with the keys [counts] and [size]
    ([frUncompressedRLE] on the singleton list), or the exception raised. *)
Variable frDict : gmap string json → Z → Z → result rle.

(** [rleFrString]: the encoding read from a compressed string of counts. *)
Variable rleFrString : string → Z → Z → rle.

(** [rleMerge] with [intersect = 0]. *)
Variable rleMerge : list rle → rle.

(** [rleDecode] on one encoding: the bytes of the buffer afterwards, [0] and
    [1] as far as the counts reach and what the memory held beyond. *)
Variable rleDecode : rle → mask Z.

(** [rleDecode] on a list of encodings: the frames of the buffer that they
    share, one for each encoding, of the size of the first. *)
Variable rleDecodes : list rle → list (mask Z).

(** The values that the script passes to the codec: a JSON value taken from
    the document, or what the codec returned, an encoding (a dictionary with
    the keys [size] and [counts]) or a list of encodings. *)
Inductive pyval :=
| PJson (j : json)
| PRle (r : rle)
| PRles (rs : list rle).

(** An array of bytes returned by [decode]: [(h, w)] or [(h, w, n)]. *)
Inductive ndarray :=
| Arr2 (m : mask Z)
| Arr3 (ms : list (mask Z)).

Definition unsupported : exn := Raised Exception "input type is not supported.".

(** [_mask.frPyObjects].  A list whose first element has four entries or
    more, or is an object with [counts] and [size], is a list of objects and
    gives a list of encodings; another list of four entries or more is one
    object and gives one encoding, like an object with [counts] and
    [size]. *)
Definition frPyObjects (pyobj : json) (h w : Z) : result pyval :=
  match pyobj with
  | JList l =>
      match l with
      | [] => Err (Builtin IndexError)
      | first :: _ =>
          n ← py_len first;
          if bool_decide (n = 4%nat) || bool_decide (4 < n)%nat then
            rs ← frList l h w; Ok (PRles rs)
          else if match first with
                  | JObj m => bool_decide (is_Some (m !! "counts"))
                              && bool_decide (is_Some (m !! "size"))
                  | _ => false
                  end then
            rs ← frList l h w; Ok (PRles rs)
          else if bool_decide (length l = 4%nat) || bool_decide (4 < length l)%nat then
            r ← frObject l h w; Ok (PRle r)
          else Err unsupported
      end
  | JObj m =>
      if bool_decide (is_Some (m !! "counts")) && bool_decide (is_Some (m !! "size"))
      then r ← frDict m h w; Ok (PRle r)
      else Err unsupported
  | _ => Err unsupported
  end.

(** [obj['size'][i]] converted to an unsigned integer: a float is
    truncated first. *)
Definition size_at (size : json) (i : nat) : result Z :=
  match size with
  | JList l =>
      match l !! i with
      | Some (JInt z) => if bool_decide (0 ≤ z) then Ok z else Err (Builtin OverflowError)
      | Some (JBool b) => Ok (if b then 1 else 0)
      | Some (JFloat (S754_zero _)) => Ok 0
      | Some (JFloat (S754_finite s m e)) =>
          let r := Z.shiftl (Z.pos m) e in
          if s then (if bool_decide (r = 0) then Ok 0 else Err (Builtin OverflowError))
          else Ok r
      | Some (JFloat S754_nan) => Err (Builtin ValueError)
      | Some (JFloat (S754_infinity _)) => Err (Builtin OverflowError)
      | Some _ => Err (Builtin TypeError)
      | None => Err (Builtin IndexError)
      end
  | JObj _ => Err (Builtin KeyError)
  | _ => Err (Builtin TypeError)
  end.

(** One step of [_mask._frString]: reads [obj['counts']] and [obj['size']]. *)
Definition frString (obj : pyval) : result rle :=
  match obj with
  | PRle r => Ok r
  | PRles _ => Err (Builtin TypeError)
  | PJson j =>
      counts ← getitem j "counts";
      match counts with
      | JStr s =>
          size ← getitem j "size";
          h ← size_at size 0;
          size ← getitem j "size";
          w ← size_at size 1;
          Ok (rleFrString s h w)
      | _ => Err (Builtin TypeError)
      end
  end.

(** [mask.merge(rleObjs)] *)
Definition merge (rleObjs : list pyval) : result pyval :=
  rs ← mapM frString rleObjs;
  Ok (PRle (rleMerge rs)).

(** [mask.decode(rleObjs)]: a stack of masks for a list, one mask otherwise. *)
Definition decode (rleObjs : pyval) : result ndarray :=
  match rleObjs with
  | PRles rs => Ok (Arr3 (rleDecodes rs))
  | PJson (JList l) => rs ← mapM (λ j, frString (PJson j)) l; Ok (Arr3 (rleDecodes rs))
  | _ => r ← frString rleObjs; Ok (Arr2 (rleDecode r))
  end.

(** The expression that encodes [segm] in both functions of the script. *)
Definition encode_segmentation (segm : json) (h w : Z) : result pyval :=
  match segm with
  | JList _ => frPyObjects segm h w
  | _ =>
      counts ← py_get segm "counts" JNull;
      match counts with
      | JList _ => frPyObjects segm h w
      | _ => Ok (PJson segm)
      end
  end.

(** [if m.ndim == 3: m = np.any(m, axis=2)] followed by the scaling. *)
Definition flatten_mask (m : ndarray) : mask Z :=
  match m with
  | Arr3 ms => times_255 (any_axis2 (nonzero <$> ms))
  | Arr2 m => scale_255 m
  end.

(** The loop of [ann_to_mask], from the current value of [rles]. *)
Fixpoint ann_to_mask_loop (h w : Z) (anns : list json) (rles : list pyval)
    : result (list pyval) :=
  match anns with
  | [] => Ok rles
  | ann :: rest =>
      segm ← py_get ann "segmentation" JNull;
      match segm with
      | JNull => ann_to_mask_loop h w rest rles
      | _ =>
          rles ← try_except
                   (rle ← encode_segmentation segm h w; Ok (rles ++ [rle]))
                   [Exception]
                   (Ok rles);
          ann_to_mask_loop h w rest rles
      end
  end.

Definition ann_to_mask (h w : Z) (anns : list json) : result (mask Z) :=
  if bool_decide (length anns = 0%nat) then zeros h w else
  rles ← ann_to_mask_loop h w anns [];
  if bool_decide (length rles = 0%nat) then zeros h w else
  merged ← merge rles;
  m ← decode merged;
  Ok (flatten_mask m).

(** The loop over the annotations of one image in [save_instance_masks],
    from the list of the masks saved so far, each with the label that names
    its file. *)
Fixpoint save_instance_masks_loop (h w : Z) (anns : list json)
    (saved : list (json * mask Z)) : result (list (json * mask Z)) :=
  match anns with
  | [] => Ok saved
  | ann :: rest =>
      segm ← py_get ann "segmentation" JNull;
      match segm with
      | JNull => save_instance_masks_loop h w rest saved
      | _ =>
          match
            try_except
              (rle ← encode_segmentation segm h w;
               m ← decode rle;
               Ok (Some (flatten_mask m)))
              [Exception]
              (Ok None)
          with
          | Ok (Some mask) =>
              inst_id ← instance_label ann;
              save_instance_masks_loop h w rest (saved ++ [(inst_id, mask)])
          | Ok None => save_instance_masks_loop h w rest saved
          | Err e => Err e
          end
      end
  end.

End Codec.

Global Arguments PJson {rle} j.
Global Arguments PRle {rle} r.
Global Arguments PRles {rle} rs.

(** Example annotations for the masks. *)

(** The square [[0,0, 0,2, 2,2, 2,0]], as a polygon segmentation. *)
Definition polygon_annotation : json :=
  obj [("id", JInt 1); ("image_id", JInt 1);
       ("segmentation",
        JList [JList [JInt 0; JInt 0; JInt 0; JInt 2; JInt 2; JInt 2; JInt 2; JInt 0]])].

(** An annotation whose segmentation is an object without [counts]. *)
Definition malformed_annotation : json :=
  obj [("id", JInt 2); ("image_id", JInt 1); ("segmentation", obj [("size", JList [JInt 2; JInt 2])])].

(** An annotation with id [0]. *)
Definition annotation_id_zero : json :=
  obj [("id", JInt 0); ("image_id", JInt 1); ("category_id", JInt 7)].

(** ** The rest of merge_annotations.py *)

(** An item whose value under [key] is an infinite float: the value on which
    [int] raises the error that [get_max_id] does not catch. *)
Definition overflows (key : string) (item : json) : Prop :=
  ∃ m s, item = JObj m ∧ m !! key = Some (JFloat (S754_infinity s)).

(** [ann'] is [ann] as [remap_annotations] rewrites it with the mapping [mp]
    and the offset [off]: the image reference read by [int] and replaced by
    the image of the mapping, the id shifted when [int] converts it and
    absent otherwise, every other field as it was. *)
Definition remapped_to (int_of_str : string → option Z) (mp : gmap Z Z) (off : Z)
    (ann ann' : json) : Prop :=
  ∃ m m' v old new,
    ann = JObj m ∧ ann' = JObj m'
    ∧ m !! "image_id" = Some v ∧ py_int int_of_str v = Ok old ∧ mp !! old = Some new
    ∧ m' !! "image_id" = Some (JInt new)
    ∧ (∀ k, k ≠ "id" → k ≠ "image_id" → m' !! k = m !! k)
    ∧ m' !! "id" = match m !! "id" with
                   | Some w =>
                       match py_int int_of_str w with
                       | Ok i => Some (JInt (i + off))
                       | Err _ => None
                       end
                   | None => None
                   end.

(** *** [main] *)

(** The arguments that [parse_args] returns. *)
Record merge_args := {
  json_a : string;
  json_b : string;
  output : string;
}.

(** What the outside answers to [main]: whether each input file exists, what
    [load_json] returns for it, and what [write_json] returns. *)
Record merge_env := {
  exists_a : bool;
  exists_b : bool;
  load_a : result json;
  load_b : result json;
  write_json_result : result unit;
}.

(** What [main] does to the outside: a line on [stderr] or [stdout], and the
    call [write_json(data, path)]. *)
Inductive effect :=
| Stderr (msg : string)
| Stdout (msg : string)
| WriteJson (data : json) (path : string).

(** The calls of [write_json] among the effects, in order. *)
Definition writes (effs : list effect) : list (json * string) :=
  omap (λ eff, match eff with WriteJson data path => Some (data, path) | _ => None end) effs.

Definition categories_warning : string :=
  "Warning: categories differ between files. Keeping categories from the first file.".

Section Main.

Variable int_of_str : string → option Z.

(** [x != y] on two values of the documents. *)
Variable py_ne : json → json → bool.

(** The warning of [merge_instances], printed once the two loops over the
    second dataset have succeeded. *)
Definition merge_instances_warning (a b : json) : list effect :=
  match a, b with
  | JObj ma, JObj mb =>
      match ma !! "categories", mb !! "categories" with
      | Some ca, Some cb => if py_ne ca cb then [Stderr categories_warning] else []
      | _, _ => []
      end
  | _, _ => []
  end.

(** [main], from the parsed arguments: the exit code or the exception that
    ends it, and what it did on the way. *)
Definition main (args : merge_args) (env : merge_env) : result Z * list effect :=
  if negb (exists_a env) then
    (Ok 2, [Stderr ("First JSON not found: " +:+ json_a args)])
  else if negb (exists_b env) then
    (Ok 2, [Stderr ("Second JSON not found: " +:+ json_b args)])
  else
    match load_a env with
    | Err e => (Err e, [])
    | Ok data_a =>
        match load_b env with
        | Err e => (Err e, [])
        | Ok data_b =>
            match merge_instances int_of_str data_a data_b with
            | Err e => (Err e, [])
            | Ok merged =>
                let done := merge_instances_warning data_a data_b
                            ++ [WriteJson merged (output args)] in
                match write_json_result env with
                | Err e => (Err e, done)
                | Ok _ =>
                    match
                      n_images ← py_get merged "images" (JList []) ≫= py_len;
                      n_annotations ← py_get merged "annotations" (JList []) ≫= py_len;
                      Ok ("Merged: images=" +:+ pretty n_images +:+ ", annotations="
                          +:+ pretty n_annotations +:+ " -> " +:+ output args)
                    with
                    | Err e => (Err e, done)
                    | Ok line => (Ok 0, done ++ [Stdout line])
                    end
                end
            end
        end
    end.

End Main.

(** *** Examples *)

(** The merge of [dataset_a] and [dataset_b]. *)
Definition dataset_a_b : json :=
  obj [("info", obj [("year", JInt 2024)]);
       ("categories", JList [obj [("id", JInt 1); ("name", JStr "fiber")]]);
       ("images", JList [image_1; image_2; obj [("id", JInt 3); ("file_name", JStr "a.jpg")]]);
       ("annotations",
        JList [annotation_1_on_2;
               obj [("id", JInt 2); ("image_id", JInt 3); ("category_id", JInt 1)];
               obj [("image_id", JInt 3)]])].

(** An annotation whose image reference is [null], and a second dataset
    that holds it. *)
Definition annotation_null_ref : json := obj [("id", JInt 3); ("image_id", JNull)].

Definition dataset_null_ref : json :=
  obj [("images", JList [image_1]); ("annotations", JList [annotation_null_ref])].

(** A second dataset with an annotation that refers to an image that it
    does not have. *)
Definition dataset_on_9 : json :=
  obj [("images", JList [image_1]); ("annotations", JList [annotation_on_9])].

(** A second dataset whose annotations all have an id. *)
Definition dataset_c : json :=
  obj [("images", JList [image_1]); ("annotations", JList [annotation_1_on_1])].

Definition example_args : merge_args :=
  {| json_a := "a.json"; json_b := "b.json"; output := "out/merged.json" |}.

(** Both inputs exist and load, and the output can be written. *)
Definition example_env : merge_env :=
  {| exists_a := true; exists_b := true;
     load_a := Ok dataset_a; load_b := Ok dataset_b;
     write_json_result := Ok () |}.

(** Items with an id as a number, as a string of digits, as another string,
    and without an id. *)
Definition items_mixed : list json :=
  [obj [("id", JInt 5)]; obj [("name", JStr "x")]; obj [("id", JStr "7")];
   obj [("id", JStr "seven")]; JNull].

(** ** The rest of convert_coco_to_masks.py *)

(** [v is None] *)
Definition is_none (v : json) : bool :=
  match v with JNull => true | _ => false end.

Definition missing_size : exn :=
  Raised ValueError "Image entry missing both size and file_name.".

Section ImageSize.

Variable int_of_str : string → option Z.

(** [Image.open(file_path).size]: the pair (width, height) of the image
    file, or the exception raised on the way. *)
Variable image_size : json → result (Z * Z).

Definition load_image_size (image_info : json) : result (Z * Z) :=
  height ← py_get image_info "height" JNull;
  width ← py_get image_info "width" JNull;
  if negb (is_none height) && negb (is_none width) then
    h ← py_int int_of_str height;
    w ← py_int int_of_str width;
    Ok (h, w)
  else
    file_path ← py_get image_info "file_name" JNull;
    if is_none file_path then Err missing_size else
    '(w, h) ← image_size file_path;
    Ok (h, w).

End ImageSize.

(** *** Vocabulary of the statements about the masks *)

(** The field [key] of [m] is present and not [None]. *)
Definition given (m : gmap string json) (key : string) : Prop :=
  ∃ v, m !! key = Some v ∧ v ≠ JNull.

(** [ann] is an object without a segmentation, or with [None] as one. *)
Definition unsegmented (ann : json) : Prop :=
  ∃ m, ann = JObj m ∧ (m !! "segmentation" = None ∨ m !! "segmentation" = Some JNull).

(** [ann] is an object whose segmentation is in the compressed form: an
    object with the string [s] under [counts] and the pair [h], [w] under
    [size]. *)
Definition compressed (s : string) (h w : Z) (ann : json) : Prop :=
  ∃ m ms, ann = JObj m ∧ m !! "segmentation" = Some (JObj ms)
          ∧ ms !! "counts" = Some (JStr s)
          ∧ ms !! "size" = Some (JList [JInt h; JInt w])
          ∧ 0 ≤ h ∧ 0 ≤ w.

(** A mask with the two levels 0 and 255. *)
Definition two_levels (m : mask Z) : Prop := Forall (Forall (λ p, p = 0 ∨ p = 255)) m.

(** An array of bytes that holds a bitmap: every byte is 0 or 1. *)
Definition bitmap (m : mask Z) : Prop :=
  Forall (Forall (λ b, b `mod` 256 = 0 ∨ b `mod` 256 = 1)) m.

Section Treatment.

Variable rle : Type.
Variable frList : list json → Z → Z → result (list rle).
Variable frObject : list json → Z → Z → result rle.
Variable frDict : gmap string json → Z → Z → result rle.
Variable rleFrString : string → Z → Z → rle.

(** [ann] is passed over by the loop of [ann_to_mask] and by that of
    [save_instance_masks]: it has no segmentation, or the encoding of its
    segmentation raises. *)
Definition skipped (h w : Z) (ann : json) : Prop :=
  unsegmented ann
  ∨ ∃ m segm, ann = JObj m ∧ m !! "segmentation" = Some segm
              ∧ is_ok (encode_segmentation rle frList frObject frDict segm h w) = false.

(** What the loop of [ann_to_mask] does with an annotation: it passes it
    over; or it keeps its segmentation as it is, in the compressed form with
    the counts [s] and the size [h], [w]; or it keeps the encoding [r] that
    the codec computes for its segmentation. *)
Inductive treatment :=
| Skipped
| Compressed (s : string) (h w : Z)
| Encoded (r : rle).

Definition treated (h w : Z) (t : treatment) (ann : json) : Prop :=
  match t with
  | Skipped => skipped h w ann
  | Compressed s hh ww => compressed s hh ww ann
  | Encoded r =>
      ∃ m segm, ann = JObj m ∧ m !! "segmentation" = Some segm
                ∧ encode_segmentation rle frList frObject frDict segm h w = Ok (PRle r)
  end.

(** The encoding that [merge] reads for an annotation that is kept. *)
Definition encoding_of (t : treatment) : option rle :=
  match t with
  | Skipped => None
  | Compressed s h w => Some (rleFrString s h w)
  | Encoded r => Some r
  end.

End Treatment.

Global Arguments Skipped {rle}.
Global Arguments Compressed {rle} s h w.
Global Arguments Encoded {rle} r.
Global Arguments skipped {rle} frList frObject frDict h w ann.
Global Arguments treated {rle} frList frObject frDict h w t ann.
Global Arguments encoding_of {rle} rleFrString t.

(** *** A codec for the examples

    An encoding is the buffer that decoding leaves.  Every element of a
    list, every list that is one object, and every object with [counts] and
    [size], is encoded as the full frame.  A string of counts gives the full
    frame when it is not empty; the empty string reaches no byte and leaves
    the frame as the memory was, here with the byte 82.  Merging one
    encoding copies it, merging more unites them. *)

Definition frame (h w : Z) (b : Z) : mask Z :=
  replicate (Z.to_nat h) (replicate (Z.to_nat w) b).

Definition frame_frList (l : list json) (h w : Z) : result (list (mask Z)) :=
  Ok ((λ _, frame h w 1) <$> l).

Definition frame_frObject (l : list json) (h w : Z) : result (mask Z) :=
  Ok (frame h w 1).

Definition frame_frDict (m : gmap string json) (h w : Z) : result (mask Z) :=
  Ok (frame h w 1).

Definition frame_rleFrString (s : string) (h w : Z) : mask Z :=
  frame h w (if String.eqb s "" then 82 else 1).

Definition frame_rleMerge (rs : list (mask Z)) : mask Z :=
  match rs with
  | [r] => r
  | _ => map (map (λ b : bool, if b then 1 else 0)) (any_axis2 (nonzero <$> rs))
  end.

Definition frame_rleDecode (r : mask Z) : mask Z := r.

Definition frame_rleDecodes (rs : list (mask Z)) : list (mask Z) := rs.

(** An annotation with a segmentation in the compressed form, of size 2 by 2. *)
Definition compressed_annotation : json :=
  obj [("id", JInt 3); ("image_id", JInt 1);
       ("segmentation", obj [("counts", JStr "04"); ("size", JList [JInt 2; JInt 2])])].

(** An annotation with a segmentation in the compressed form whose counts
    are empty. *)
Definition empty_counts_annotation : json :=
  obj [("id", JInt 5); ("image_id", JInt 1);
       ("segmentation", obj [("counts", JStr ""); ("size", JList [JInt 2; JInt 2])])].

(** An annotation whose segmentation is one list of strings, as one
    object. *)
Definition flat_annotation : json :=
  obj [("id", JInt 6); ("image_id", JInt 1);
       ("segmentation",
        JList [JStr "0"; JStr "0"; JStr "0"; JStr "2"; JStr "2"; JStr "2"; JStr "2"; JStr "0"])].

(** An annotation whose segmentation is a number. *)
Definition number_annotation : json :=
  obj [("id", JInt 4); ("image_id", JInt 1); ("segmentation", JInt 5)].

(** * copy_fused_images.py *)

(** [f"{parent_name}_{i}"] *)
Definition suffixed (parent_name : string) (i : nat) : string :=
  parent_name +:+ "_" +:+ pretty i.

(** A dictionary in which every key is its own value. *)
Definition identity_on (unique_names : gmap string string) : Prop :=
  ∀ key value, unique_names !! key = Some value → value = key.

Section FusedFiles.

(** The paths of the files found. *)
Variable path : Type.

(** [name_counts[parent_name] += 1] on the dictionary of the counts, whose
    keys are kept in the order of their insertion. *)
Fixpoint count_name (parent_name : string) (name_counts : list (string * nat))
    : list (string * nat) :=
  match name_counts with
  | [] => [(parent_name, 1%nat)]
  | (name, count) :: rest =>
      if decide (name = parent_name) then (name, S count) :: rest
      else (name, count) :: count_name parent_name rest
  end.

(** The first loop of [ensure_unique_names]. *)
Definition name_counts (fused_files : list (path * string)) : list (string * nat) :=
  foldl (λ name_counts '(_, parent_name), count_name parent_name name_counts)
        [] fused_files.

(** [for i in range(count)], for a name counted more than once. *)
Definition add_duplicates (parent_name : string) (count : nat)
    (unique_names : gmap string string) : gmap string string :=
  foldl (λ (unique_names : gmap string string) (i : nat),
           if decide (i = 0%nat) then <[parent_name := parent_name]> unique_names
           else <[suffixed parent_name (i + 1) := suffixed parent_name (i + 1)]> unique_names)
        unique_names (seq 0 count).

(** The body of the second loop. *)
Definition add_unique_names (unique_names : gmap string string)
    (item : string * nat) : gmap string string :=
  let '(parent_name, count) := item in
  if decide (count = 1%nat) then <[parent_name := parent_name]> unique_names
  else add_duplicates parent_name count unique_names.

Definition ensure_unique_names (fused_files : list (path * string)) : gmap string string :=
  foldl add_unique_names ∅ (name_counts fused_files).

(** The loop of [main] that prepares the arguments of [copy_file]: for each
    file its path, its parent name and the name under which it is copied.
    [unique_names[parent_name]] raises [KeyError] on a missing key. *)
Fixpoint copy_args_loop (unique_names : gmap string string)
    (fused_files : list (path * string)) (name_mapping : gmap string string)
    (copy_args : list (path * string * string)) : result (list (path * string * string)) :=
  match fused_files with
  | [] => Ok copy_args
  | (fused_file_path, parent_name) :: rest =>
      name_mapping ←
        (if bool_decide (is_Some (name_mapping !! parent_name)) then Ok name_mapping
         else match unique_names !! parent_name with
              | Some unique_name => Ok (<[parent_name := unique_name]> name_mapping)
              | None => Err (Builtin KeyError)
              end);
      match name_mapping !! parent_name with
      | Some unique_name =>
          copy_args_loop unique_names rest name_mapping
            (copy_args ++ [(fused_file_path, parent_name, unique_name)])
      | None => Err (Builtin KeyError)
      end
  end.

Definition copy_args (fused_files : list (path * string))
    : result (list (path * string * string)) :=
  copy_args_loop (ensure_unique_names fused_files) fused_files ∅ [].

End FusedFiles.

(** ** The merge over a store

    The same functions with the objects of Python in a heap: dictionaries
    and lists are reached through references, [copy.deepcopy] allocates, and
    an assignment to a key updates the object in place.  The local list
    [updated_images], [updated_annotations] and the dictionary [old_to_new],
    which hold references and integers and never become part of a document,
    are kept as values of the model. *)

Module Store.

Abbreviation loc := nat.

Inductive val :=
| VNone
| VBool (b : bool)
| VInt (z : Z)
| VFloat (f : spec_float)
| VStr (s : string)
| VRef (l : loc).
Global Arguments VRef l%_nat.

(** A dictionary holds its items in the order of their insertion. *)
Inductive object :=
| ODict (items : list (string * val))
| OList (elems : list val).

(** The address of an object is its index; an allocation appends. *)
Abbreviation heap := (list object).

(** Computations: a result, which may be an exception, and the heap left. *)
Definition st (A : Type) : Type := heap → result A * heap.

Global Instance st_ret : MRet st := λ A a h, (Ok a, h).
Global Instance st_bind : MBind st := λ A B f m h,
  match m h with
  | (Ok a, h') => f a h'
  | (Err e, h') => (Err e, h')
  end.

Definition raise {A} (e : exn) : st A := λ h, (Err e, h).

Definition lift {A} (r : result A) : st A := λ h, (r, h).

Definition try_except {A} (body : st A) (cs : list exn_class) (handler : st A) : st A :=
  λ h, match body h with
       | (Ok a, h') => (Ok a, h')
       | (Err e, h') => if except cs e then handler h' else (Err e, h')
       end.

Fixpoint foldM {A B} (f : B → A → st B) (b : B) (l : list A) : st B :=
  match l with
  | [] => mret b
  | x :: l' => b' ← f b x; foldM f b' l'
  end.

Definition for_each {A} (l : list A) (f : A → st unit) : st unit :=
  foldM (λ _ x, f x) () l.

(** *** The heap *)

Definition alloc (o : object) : st loc := λ h, (Ok (length h), h ++ [o]).

(** Reading an address that holds no object does not happen in Python; the
    model raises [SystemError]. *)
Definition load (l : loc) : st object := λ h,
  match h !! l with
  | Some o => (Ok o, h)
  | None => (Err (Builtin SystemError), h)
  end.

Definition store (l : loc) (o : object) : st unit := λ h, (Ok (), <[l := o]> h).

(** *** Dictionaries *)

Fixpoint dict_get (items : list (string * val)) (key : string) : option val :=
  match items with
  | [] => None
  | (k, v) :: rest => if decide (k = key) then Some v else dict_get rest key
  end.

Fixpoint dict_set (items : list (string * val)) (key : string) (x : val)
    : list (string * val) :=
  match items with
  | [] => [(key, x)]
  | (k, v) :: rest =>
      if decide (k = key) then (k, x) :: rest else (k, v) :: dict_set rest key x
  end.

Definition dict_del (items : list (string * val)) (key : string) : list (string * val) :=
  filter (λ p, p.1 ≠ key) items.

(** *** The Python operations *)

Definition py_int (int_of_str : string → option Z) (v : val) : result Z :=
  match v with
  | VInt z => Ok z
  | VBool b => Ok (if b then 1 else 0)
  | VFloat (S754_zero _) => Ok 0
  | VFloat (S754_finite s m e) =>
      let r := Z.shiftl (Z.pos m) e in Ok (if s then - r else r)
  | VFloat S754_nan => Err (Builtin ValueError)
  | VFloat (S754_infinity _) => Err (Builtin OverflowError)
  | VStr s =>
      match int_of_str s with
      | Some z => Ok z
      | None => Err (Builtin ValueError)
      end
  | VNone | VRef _ => Err (Builtin TypeError)
  end.

(** [key in v] *)
Definition py_in (key : string) (v : val) : st bool :=
  match v with
  | VRef l =>
      o ← load l;
      match o with
      | ODict items => mret (bool_decide (is_Some (dict_get items key)))
      | OList elems =>
          mret (existsb (λ x, match x with VStr s => bool_decide (s = key) | _ => false end)
                        elems)
      end
  | VStr s => mret (is_substring key s)
  | _ => raise (Builtin TypeError)
  end.

(** [v[key]] *)
Definition getitem (v : val) (key : string) : st val :=
  match v with
  | VRef l =>
      o ← load l;
      match o with
      | ODict items =>
          match dict_get items key with
          | Some x => mret x
          | None => raise (Builtin KeyError)
          end
      | OList _ => raise (Builtin TypeError)
      end
  | _ => raise (Builtin TypeError)
  end.

(** [v[key] = x] *)
Definition setitem (v : val) (key : string) (x : val) : st unit :=
  match v with
  | VRef l =>
      o ← load l;
      match o with
      | ODict items => store l (ODict (dict_set items key x))
      | OList _ => raise (Builtin TypeError)
      end
  | _ => raise (Builtin TypeError)
  end.

(** [v.pop(key, None)] *)
Definition pop (v : val) (key : string) : st unit :=
  match v with
  | VRef l =>
      o ← load l;
      match o with
      | ODict items => store l (ODict (dict_del items key))
      | OList _ => raise (Builtin TypeError)
      end
  | _ => raise (Builtin AttributeError)
  end.

(** [y.append(x)] *)
Definition append (y : loc) (x : val) : st unit :=
  o ← load y;
  match o with
  | OList elems => store y (OList (elems ++ [x]))
  | ODict _ => raise (Builtin AttributeError)
  end.

(** [isinstance(v, dict)] and [isinstance(v, list)] *)
Definition is_dict (v : val) : st bool :=
  match v with
  | VRef l => o ← load l; mret (match o with ODict _ => true | OList _ => false end)
  | _ => mret false
  end.

Definition is_list (v : val) : st bool :=
  match v with
  | VRef l => o ← load l; mret (match o with OList _ => true | ODict _ => false end)
  | _ => mret false
  end.

(** The elements of a list, for [for x in v]. *)
Definition elements_of (v : val) : st (list val) :=
  match v with
  | VRef l =>
      o ← load l;
      match o with
      | OList elems => mret elems
      | ODict _ => raise (Builtin TypeError)
      end
  | _ => raise (Builtin TypeError)
  end.

(** The items of a dictionary, for [for key, value in v.items()]. *)
Definition items_of (v : val) : st (list (string * val)) :=
  match v with
  | VRef l =>
      o ← load l;
      match o with
      | ODict items => mret items
      | OList _ => raise (Builtin AttributeError)
      end
  | _ => raise (Builtin AttributeError)
  end.

(** [x + ys] for a list [x] and the elements [ys] of a local list: a new
    list. *)
Definition list_concat (x : val) (ys : list val) : st val :=
  xs ← elements_of x;
  l ← alloc (OList (xs ++ ys));
  mret (VRef l).

(** [copy.deepcopy(x, memo)], with [n] bounding the depth of the recursion:
    an atomic value is returned as it is; a list or a dictionary already in
    [memo] gives its copy; otherwise an empty copy is allocated and recorded
    in [memo], then filled with the copies of the elements. *)
Fixpoint deepcopy_memo (n : nat) (x : val) (memo : gmap loc loc)
    : st (val * gmap loc loc) :=
  match x with
  | VRef l =>
      match memo !! l with
      | Some y => mret (VRef y, memo)
      | None =>
          match n with
          | O => raise (Builtin RecursionError)
          | S n' =>
              o ← load l;
              match o with
              | OList elems =>
                  y ← alloc (OList []);
                  memo ← foldM (λ memo a,
                                  '(a', memo) ← deepcopy_memo n' a memo;
                                  append y a';;
                                  mret memo)
                               (<[l := y]> memo) elems;
                  mret (VRef y, memo)
              | ODict items =>
                  y ← alloc (ODict []);
                  memo ← foldM (λ memo '(key, value),
                                  '(value', memo) ← deepcopy_memo n' value memo;
                                  setitem (VRef y) key value';;
                                  mret memo)
                               (<[l := y]> memo) items;
                  mret (VRef y, memo)
              end
          end
      end
  | _ => mret (x, memo)
  end.

(** [copy.deepcopy(x)]: the recursion goes as deep as there are objects. *)
Definition deepcopy (x : val) : st val := λ h,
  ('(y, _) ← deepcopy_memo (S (length h)) x ∅; mret y) h.

(** *** merge_annotations.py *)

Section Functions.

Variable int_of_str : string → option Z.

Definition validate_coco_like (payload : val) (label : string) : st unit :=
  d ← is_dict payload;
  if negb d then raise (Raised ValueError (label +:+ " must be a JSON object")) else
  for_each ["images"; "annotations"]%string (λ key,
    has ← py_in key payload;
    if negb has
    then raise (Raised ValueError (label +:+ " missing required key: " +:+ key))
    else
      v ← getitem payload key;
      l ← is_list v;
      if negb l
      then raise (Raised ValueError (label +:+ "." +:+ key +:+ " must be a list"))
      else mret ()).

Fixpoint get_max_id_loop (max_id : Z) (items : list val) (key : string) : st Z :=
  match items with
  | [] => mret max_id
  | item :: rest =>
      value ← try_except
                (v ← getitem item key; value ← lift (py_int int_of_str v); mret (Some value))
                [KeyError; TypeError; ValueError]
                (mret None);
      match value with
      | Some value =>
          get_max_id_loop (if bool_decide (value > max_id) then value else max_id) rest key
      | None => get_max_id_loop max_id rest key
      end
  end.

Definition get_max_id (items : val) (key : string) : st Z :=
  items ← elements_of items;
  get_max_id_loop 0 items key.

Fixpoint build_image_id_mapping_loop (images_b : list val) (image_id_offset : Z)
    (updated_images : list val) (old_to_new : gmap Z Z) : st (list val * gmap Z Z) :=
  match images_b with
  | [] => mret (updated_images, old_to_new)
  | image :: rest =>
      has_id ← py_in "id" image;
      if negb has_id then raise missing_image_id else
      v ← getitem image "id";
      old_id ← lift (py_int int_of_str v);
      let new_id := old_id + image_id_offset in
      new_image ← deepcopy image;
      setitem new_image "id" (VInt new_id);;
      build_image_id_mapping_loop rest image_id_offset
        (updated_images ++ [new_image]) (<[old_id := new_id]> old_to_new)
  end.

Definition build_image_id_mapping (images_b : val) (image_id_offset : Z)
    : st (list val * gmap Z Z) :=
  images_b ← elements_of images_b;
  build_image_id_mapping_loop images_b image_id_offset [] ∅.

Fixpoint remap_annotations_loop (annotations_b : list val) (image_id_map : gmap Z Z)
    (annotation_id_offset : Z) (updated_annotations : list val) : st (list val) :=
  match annotations_b with
  | [] => mret updated_annotations
  | ann :: rest =>
      has_ref ← py_in "image_id" ann;
      if negb has_ref then raise missing_image_ref else
      v ← getitem ann "image_id";
      old_image_id ← lift (py_int int_of_str v);
      match image_id_map !! old_image_id with
      | None => raise (unknown_image_ref old_image_id)
      | Some new_image_id =>
          new_ann ← deepcopy ann;
          setitem new_ann "image_id" (VInt new_image_id);;
          has_id ← py_in "id" ann;
          (if (has_id : bool) then
             try_except
               (v ← getitem ann "id";
                id ← lift (py_int int_of_str v);
                setitem new_ann "id" (VInt (id + annotation_id_offset)))
               [TypeError; ValueError]
               (pop new_ann "id")
           else mret ());;
          remap_annotations_loop rest image_id_map annotation_id_offset
            (updated_annotations ++ [new_ann])
      end
  end.

Definition remap_annotations (annotations_b : val) (image_id_map : gmap Z Z)
    (annotation_id_offset : Z) : st (list val) :=
  annotations_b ← elements_of annotations_b;
  remap_annotations_loop annotations_b image_id_map annotation_id_offset [].

(** [merge_instances], without the warning on [stderr]. *)
Definition merge_instances (a b : val) : st val :=
  validate_coco_like a "First JSON";;
  validate_coco_like b "Second JSON";;
  a_images ← getitem a "images";
  max_image_id_a ← get_max_id a_images "id";
  a_annotations ← getitem a "annotations";
  max_ann_id_a ← get_max_id a_annotations "id";
  b_images ← getitem b "images";
  '(updated_images_b, image_id_map) ← build_image_id_mapping b_images max_image_id_a;
  b_annotations ← getitem b "annotations";
  updated_annotations_b ← remap_annotations b_annotations image_id_map max_ann_id_a;
  merged ← alloc (ODict []);
  let merged := VRef merged in
  for_each ["info"; "licenses"; "categories"]%string (λ key,
    has ← py_in key a;
    if (has : bool) then
      v ← getitem a key; c ← deepcopy v; setitem merged key c
    else mret ());;
  a_images ← getitem a "images";
  c ← deepcopy a_images;
  images ← list_concat c updated_images_b;
  setitem merged "images" images;;
  a_annotations ← getitem a "annotations";
  c ← deepcopy a_annotations;
  annotations ← list_concat c updated_annotations_b;
  setitem merged "annotations" annotations;;
  a_items ← items_of a;
  for_each a_items (λ '(key, value),
    has ← py_in key merged;
    if negb has then c ← deepcopy value; setitem merged key c else mret ());;
  mret merged.

End Functions.

(** *** Reading a document off the heap *)

(** The JSON value that [v] stands for in [h], followed down to depth [n]. *)
Fixpoint read (n : nat) (h : heap) (v : val) : option json :=
  match v with
  | VNone => Some JNull
  | VBool b => Some (JBool b)
  | VInt z => Some (JInt z)
  | VFloat f => Some (JFloat f)
  | VStr s => Some (JStr s)
  | VRef l =>
      match n with
      | O => None
      | S n' =>
          match h !! l with
          | Some (OList elems) => JList <$> mapM (read n' h) elems
          | Some (ODict items) =>
              kvs ← mapM (λ '(k, x), pair k <$> read n' h x) items;
              Some (JObj (list_to_map kvs))
          | None => None
          end
      end
  end.

(** *** Well-formed heaps *)

(** A reference below [n]. *)
Definition valid_val (n : nat) (v : val) : Prop :=
  match v with VRef l => (l < n)%nat | _ => True end.

(** No reference below [n]. *)
Definition fresh_val (n : nat) (v : val) : Prop :=
  match v with VRef l => (n ≤ l)%nat | _ => True end.

Definition vals_of (o : object) : list val :=
  match o with ODict items => items.*2 | OList elems => elems end.

(** Every reference held by an object of [h] is the address of an object
    of [h]. *)
Definition closed (h : heap) : Prop :=
  Forall (λ o, Forall (valid_val (length h)) (vals_of o)) h.

(** [h'] keeps every object of [h] at its address and as it was, and the
    objects that it adds refer to added objects only. *)
Definition extends (h h' : heap) : Prop :=
  h `prefix_of` h'
  ∧ Forall (λ o, Forall (fresh_val (length h)) (vals_of o)) (drop (length h) h').

(** *** The judgements of the frame property *)

(** [wp m h Q]: the outcome of [m] from [h] satisfies [Q]. *)
Definition wp {A} (m : st A) (h : heap) (Q : result A → heap → Prop) : Prop :=
  Q (m h).1 (m h).2.

(** With [h0] the heap in which the inputs live: a value of that heap, and
    a value made since, which is then a reference into [h] or atomic. *)
Definition orig (h0 : heap) (v : val) : Prop := valid_val (length h0) v.

Definition new (h0 h : heap) (v : val) : Prop :=
  fresh_val (length h0) v ∧ valid_val (length h) v.

(** The errors of Python, as opposed to those of the model. *)
Definition python_error (e : exn) : Prop :=
  class_of e ≠ RecursionError ∧ class_of e ≠ SystemError.

(** The outcome of a computation started in [h]: the heap still extends
    [h0] and has not shrunk, a result satisfies [Q], and an exception is one
    of Python. *)
Definition post {A} (h0 h : heap) (Q : heap → A → Prop) (r : result A) (h' : heap)
    : Prop :=
  extends h0 h' ∧ (length h ≤ length h')%nat
  ∧ match r with Ok a => Q h' a | Err e => python_error e end.

(** The memo of [deepcopy]: from objects of [h0] to objects made since. *)
Definition memo_ok (h0 h : heap) (memo : gmap nat nat) : Prop :=
  ∀ l y, memo !! l = Some y → (l < length h0)%nat ∧ (length h0 ≤ y < length h)%nat.

(** The state of a copy in the making: the heap [h] of the call is kept,
    the copy at [y] is still a container of the same kind, and [memo] has
    grown. *)
Definition copying (h0 h : heap) (y : nat) (is_list : bool) (memo : gmap nat nat)
    (hc : heap) (memo_c : gmap nat nat) : Prop :=
  h `prefix_of` hc ∧ extends h0 hc
  ∧ (∃ o, hc !! y = Some o
          ∧ match o with OList _ => is_list = true | ODict _ => is_list = false end)
  ∧ memo_ok h0 hc memo_c ∧ memo ⊆ memo_c.

(** *** An example heap: the documents [dataset_a] and [dataset_b] *)

Definition example_heap : heap :=
  [ (* 0 *) ODict [("year", VInt 2024)];
    (* 1 *) ODict [("id", VInt 1); ("name", VStr "fiber")];
    (* 2 *) OList [VRef 1];
    (* 3 *) ODict [("id", VInt 1); ("file_name", VStr "a.jpg")];
    (* 4 *) ODict [("id", VInt 2); ("file_name", VStr "b.jpg")];
    (* 5 *) OList [VRef 3; VRef 4];
    (* 6 *) ODict [("id", VInt 1); ("image_id", VInt 2); ("category_id", VInt 1)];
    (* 7 *) OList [VRef 6];
    (* 8 *) ODict [("info", VRef 0); ("categories", VRef 2); ("images", VRef 5);
                   ("annotations", VRef 7)];
    (* 9 *) ODict [("id", VInt 1); ("file_name", VStr "a.jpg")];
    (* 10 *) OList [VRef 9];
    (* 11 *) ODict [("id", VInt 1); ("image_id", VInt 1); ("category_id", VInt 1)];
    (* 12 *) ODict [("image_id", VInt 1)];
    (* 13 *) OList [VRef 11; VRef 12];
    (* 14 *) ODict [("images", VRef 10); ("annotations", VRef 13)] ].

End Store.
(** * Properties of the merge *)

(** ** Results *)

Lemma bind_Ok {A B} (f : A → result B) (r : result A) (b : B) :
  r ≫= f = Ok b ↔ ∃ a, r = Ok a ∧ f a = Ok b.
Proof.
  destruct r as [a|e]; simpl; split.
  - eauto.
  - by intros (a' & [= <-] & ?).
  - done.
  - by intros (a' & ? & ?).
Qed.

Lemma is_ok_true {A} (r : result A) : is_ok r = true ↔ ∃ a, r = Ok a.
Proof. destruct r; simpl; split; eauto; (done || by intros [? ?]). Qed.

Lemma is_ok_false {A} (r : result A) : is_ok r = false ↔ ∃ e, r = Err e.
Proof. destruct r; simpl; split; eauto; (done || by intros [? ?]). Qed.

(** [mapM] over [result] stops at the first element on which [f] fails. *)
Lemma mapM_result_Ok {A B} (f : A → result B) (l : list A) (k : list B) :
  mapM f l = Ok k ↔ Forall2 (λ x y, f x = Ok y) l k.
Proof.
  revert k. induction l as [|x l IH]; intros k; simpl.
  - split; [intros [= <-]; constructor | by inversion 1].
  - split.
    + intros H. apply bind_Ok in H as (y & Hy & H).
      apply bind_Ok in H as (k' & Hk' & [= <-]).
      constructor; [done | by apply IH].
    + inversion 1 as [|? y ? k' Hy Hk']; subst.
      apply IH in Hk'. by rewrite Hy; simpl; rewrite Hk'.
Qed.

Lemma mapM_result_Err {A B} (f : A → result B) (l : list A) (e : exn) :
  mapM f l = Err e ↔
  ∃ pre x post, l = pre ++ x :: post ∧ is_ok (mapM f pre) = true ∧ f x = Err e.
Proof.
  induction l as [|x l IH]; simpl.
  - split; [done | intros (pre & y & post & Hl & _); by destruct pre].
  - split.
    + destruct (f x) as [y|e'] eqn:Hx; simpl.
      * destruct (mapM f l) as [k|e'] eqn:Hl; simpl; [done | intros [= ->]].
        destruct (proj1 IH eq_refl) as (pre & z & post & -> & Hpre & Hz).
        exists (x :: pre), z, post. split_and!; [done | | done].
        apply is_ok_true in Hpre as [k' Hk']. apply is_ok_true. exists (y :: k').
        change (mapM f (x :: pre)) with (f x ≫= λ y, mapM f pre ≫= λ k, Ok (y :: k)).
        by rewrite Hx; simpl; rewrite Hk'.
      * intros [= ->]. by exists [], x, l.
    + intros (pre & z & post & Hl & Hpre & Hz).
      destruct pre as [|x' pre]; simpl in Hl; simplify_eq; [by simpl; rewrite Hz |].
      apply is_ok_true in Hpre as [k Hk].
      change (mapM f (x' :: pre)) with (f x' ≫= λ y, mapM f pre ≫= λ k, Ok (y :: k)) in Hk.
      apply bind_Ok in Hk as (y & Hy & Hk). apply bind_Ok in Hk as (k' & Hk & _).
      simpl. rewrite Hy; simpl.
      assert (mapM f (pre ++ z :: post) = Err e) as ->; [| done].
      apply IH. exists pre, z, post. by rewrite Hk.
Qed.

Lemma mapM_result_cons {A B} (f : A → result B) (x : A) (l : list A) :
  mapM f (x :: l) = f x ≫= λ y, mapM f l ≫= λ k, Ok (y :: k).
Proof. done. Qed.

Lemma mapM_result_length {A B} (f : A → result B) (l : list A) (k : list B) :
  mapM f l = Ok k → length k = length l.
Proof. intros H%mapM_result_Ok. symmetry. by eapply Forall2_length. Qed.

Lemma mapM_result_is_ok {A B} (f : A → result B) (l : list A) :
  is_ok (mapM f l) = true ↔ Forall (λ x, is_ok (f x) = true) l.
Proof.
  induction l as [|x l IH]; simpl; [by split; [constructor|] |].
  rewrite Forall_cons, <- IH.
  destruct (f x); simpl; [| by split; [| intros []]].
  destruct (mapM f l); simpl; by split; [| intros []].
Qed.

Section Merge.

Variable int_of_str : string → option Z.

Abbreviation py_int := (py_int int_of_str).
Abbreviation get_max_id := (get_max_id int_of_str).
Abbreviation get_max_id_loop := (get_max_id_loop int_of_str).
Abbreviation build_image_id_mapping_body := (build_image_id_mapping_body int_of_str).
Abbreviation build_image_id_mapping_loop := (build_image_id_mapping_loop int_of_str).
Abbreviation build_image_id_mapping := (build_image_id_mapping int_of_str).
Abbreviation remap_annotations_body := (remap_annotations_body int_of_str).
Abbreviation remap_annotations_loop := (remap_annotations_loop int_of_str).
Abbreviation remap_annotations := (remap_annotations int_of_str).
Abbreviation merge_instances := (merge_instances int_of_str).

(** ** [get_max_id] *)

Lemma get_max_id_loop_ints key ids items max_id :
  Forall2 (carries key) ids items →
  get_max_id_loop max_id items key = Ok (foldl Z.max max_id ids).
Proof.
  intros H. revert max_id.
  induction H as [|z item ids items (m & -> & Hm) _ IH]; intros max_id; simpl; [done |].
  rewrite Hm; simpl. rewrite IH. do 2 f_equal.
  case_bool_decide; lia.
Qed.

Lemma foldl_max_ge (ids : list Z) (a : Z) : a ≤ foldl Z.max a ids.
Proof.
  revert a. induction ids as [|z ids IH]; intros a; simpl; [lia |].
  specialize (IH (Z.max a z)). lia.
Qed.

Lemma foldl_max_upper (ids : list Z) (a z : Z) : z ∈ ids → z ≤ foldl Z.max a ids.
Proof.
  revert a. induction ids as [|y ids IH]; intros a; [by inversion 1 |].
  intros [->|Hin]%elem_of_cons; simpl; [| by apply IH].
  pose proof (foldl_max_ge ids (Z.max a y)). lia.
Qed.

Lemma foldl_max_elem (ids : list Z) (a : Z) :
  foldl Z.max a ids = a ∨ foldl Z.max a ids ∈ ids.
Proof.
  revert a. induction ids as [|y ids IH]; intros a; simpl; [by left |].
  destruct (IH (Z.max a y)) as [->|Hin].
  - destruct (Z.max_spec a y) as [[_ ->]|[_ ->]]; [right; left | by left].
  - right. by right.
Qed.

Lemma get_max_id_ints (key : string) (ids : list Z) (items : list json) :
  Forall2 (carries key) ids items →
  Forall (λ z, 0 ≤ z) ids →
  ∃ r, get_max_id items key = Ok r
       ∧ (ids = [] → r = 0)
       ∧ (ids ≠ [] → r ∈ ids)
       ∧ (∀ z, z ∈ ids → z ≤ r).
Proof.
  intros Hitems Hpos. exists (foldl Z.max 0 ids). split_and!.
  - by apply get_max_id_loop_ints.
  - by intros ->.
  - intros Hne. destruct (foldl_max_elem ids 0) as [H0|Hin]; [| done].
    destruct ids as [|y ids]; [done |].
    assert (y = 0) as ->; [| rewrite H0; by left].
    pose proof (foldl_max_upper (y :: ids) 0 y ltac:(by left)).
    apply Forall_cons in Hpos as [? _]. lia.
  - intros z. apply foldl_max_upper.
Qed.

(** C3. On items that carry non-negative integer ids, [get_max_id] returns
    the largest of the ids, and [0] when there is none. *)
Theorem get_max_id_maximum (key : string) (ids : list Z) (items : list json) :
  Forall2 (carries key) ids items →
  Forall (λ z, 0 ≤ z) ids →
  ∃ r, get_max_id items key = Ok r
       ∧ (ids = [] → r = 0)
       ∧ (ids ≠ [] → r ∈ ids)
       ∧ (∀ z, z ∈ ids → z ≤ r).
Proof. apply get_max_id_ints. Qed.

(** ** The two loops over the second dataset *)

Lemma build_image_id_mapping_loop_mapM images off acc mp :
  build_image_id_mapping_loop images off acc mp =
  ps ← mapM (λ image, build_image_id_mapping_body image off) images;
  Ok (acc ++ ps.*1, foldl (λ (m : gmap Z Z) (p : json * Z), <[p.2 := p.2 + off]> m) mp ps).
Proof.
  revert acc mp. induction images as [|image images IH]; intros acc mp; simpl.
  - by rewrite app_nil_r.
  - destruct (build_image_id_mapping_body image off) as [[new_image old_id]|e]; simpl; [| done].
    rewrite IH. destruct (mapM _ images) as [ps|e]; simpl; [| done].
    by rewrite <- app_assoc.
Qed.

Lemma remap_annotations_loop_mapM anns mp off acc :
  remap_annotations_loop anns mp off acc =
  new ← mapM (λ ann, remap_annotations_body ann mp off) anns; Ok (acc ++ new).
Proof.
  revert acc. induction anns as [|ann anns IH]; intros acc; simpl.
  - by rewrite app_nil_r.
  - destruct (remap_annotations_body ann mp off) as [new_ann|e]; simpl; [| done].
    rewrite IH. destruct (mapM _ anns) as [new|e]; simpl; [| done].
    by rewrite <- app_assoc.
Qed.

Lemma build_image_id_mapping_body_carries image z off :
  carries "id" z image →
  build_image_id_mapping_body image off = Ok (shifted "id" off image, z).
Proof.
  intros (m & -> & Hm). unfold build_image_id_mapping_body, shifted; simpl.
  by rewrite Hm.
Qed.

Lemma build_image_id_mapping_body_lacks image off :
  lacks "id" image → build_image_id_mapping_body image off = Err missing_image_id.
Proof.
  intros (m & -> & Hm). unfold build_image_id_mapping_body; simpl.
  by rewrite Hm.
Qed.

(** The map built from the images that carry the ids [ids]. *)
Lemma foldl_insert_lookup (off : Z) (ps : list (json * Z)) (mp : gmap Z Z) (z : Z) :
  foldl (λ (m : gmap Z Z) (p : json * Z), <[p.2 := p.2 + off]> m) mp ps !! z =
  if decide (z ∈ ps.*2) then Some (z + off) else mp !! z.
Proof.
  revert mp. induction ps as [|[j y] ps IH]; intros mp; simpl; [done |].
  rewrite IH. destruct (decide (z ∈ ps.*2)) as [Hin|Hnin].
  - rewrite decide_True; [done | by right].
  - destruct (decide (y = z)) as [->|Hne].
    + rewrite decide_True by (by left). by rewrite lookup_insert_eq.
    + rewrite decide_False; [by rewrite lookup_insert_ne |].
      by intros [->|?]%elem_of_cons.
Qed.

Lemma build_image_id_mapping_carries images ids off :
  Forall2 (carries "id") ids images →
  ∃ mp, build_image_id_mapping images off = Ok (shifted "id" off <$> images, mp)
        ∧ ∀ z, mp !! z = if decide (z ∈ ids) then Some (z + off) else None.
Proof.
  intros H. unfold build_image_id_mapping.
  rewrite build_image_id_mapping_loop_mapM.
  assert (mapM (λ image, build_image_id_mapping_body image off) images
          = Ok (zip (shifted "id" off <$> images) ids)) as ->.
  { apply mapM_result_Ok. induction H as [|z image ids images Hc _ IH]; simpl; constructor; [| done].
    by apply build_image_id_mapping_body_carries. }
  simpl. eexists. split.
  - rewrite fst_zip; [done |]. rewrite length_fmap. apply Forall2_length in H. lia.
  - intros z. rewrite foldl_insert_lookup, lookup_empty.
    rewrite snd_zip; [done |]. rewrite length_fmap. apply Forall2_length in H. lia.
Qed.

(** ** [merge_instances] *)

Lemma validate_coco_like_Ok d label :
  validate_coco_like d label = Ok () ↔ ∃ images annotations, dataset d images annotations.
Proof.
  split.
  - destruct d as [| | | | | |m]; try done. simpl.
    destruct (m !! "images") as [[]|] eqn:Hi; try done; simpl.
    destruct (m !! "annotations") as [[]|] eqn:Ha; try done; simpl.
    intros _. eexists _, _, m. done.
  - intros (images & annotations & m & -> & Hi & Ha). simpl. by rewrite Hi, Ha.
Qed.

Lemma carry_over_union (a merged : gmap string json) : carry_over a merged = merged ∪ a.
Proof.
  unfold carry_over.
  apply (map_fold_weak_ind (λ r (m : gmap string json), r = merged ∪ m)).
  - by rewrite (right_id_L ∅ (∪)).
  - intros i x m r Hm ->. unfold deepcopy. case_bool_decide as Hi.
    + destruct Hi as [y Hy]. apply lookup_union_Some_raw in Hy as [Hy|[_ Hy]]; [| congruence].
      apply map_eq. intros j. rewrite !lookup_union.
      destruct (decide (i = j)) as [<-|Hne].
      * rewrite Hy, Hm, lookup_insert_eq. done.
      * by rewrite lookup_insert_ne.
    + rewrite insert_union_r; [done |].
      apply eq_None_not_Some. intros Hs. apply Hi.
      destruct Hs as [y Hy]. exists y. by apply lookup_union_Some_l.
Qed.

(** The object assembled at the end of [merge_instances]. *)
Lemma merged_fields (ma : gmap string json) (images annotations : list json) :
  carry_over ma
    (<["annotations" := JList annotations]>
       (<["images" := JList images]>
          (foldl (λ (merged : gmap string json) (key : string),
                    match ma !! key with
                    | Some v => <[key := deepcopy v]> merged
                    | None => merged
                    end) ∅ ["info"; "licenses"; "categories"]%string)))
  = merged_object ma images annotations.
Proof.
  rewrite carry_over_union. unfold merged_object, deepcopy. simpl.
  apply map_eq. intros k. rewrite lookup_union.
  destruct (decide (k = "annotations")) as [->|Hka].
  { rewrite lookup_insert_eq, lookup_insert_ne, lookup_insert_eq by done.
    by destruct (ma !! "annotations"). }
  destruct (decide (k = "images")) as [->|Hki].
  { rewrite lookup_insert_ne, !lookup_insert_eq by done. by destruct (ma !! "images"). }
  rewrite !(lookup_insert_ne _ _ k) by done.
  destruct (decide (k = "info")) as [->|?];
    [| destruct (decide (k = "licenses")) as [->|?];
       [| destruct (decide (k = "categories")) as [->|?]]];
    destruct (ma !! "info") eqn:H1, (ma !! "licenses") eqn:H2, (ma !! "categories") eqn:H3;
    simplify_map_eq; try done; by repeat case_match.
Qed.

(** [merge_instances] succeeds exactly when both inputs pass the validation
    and each of the four steps on their lists succeeds; its result is then
    the object assembled from the outcomes of the steps. *)
Lemma merge_instances_Ok a b r :
  merge_instances a b = Ok r ↔
  ∃ ma ia aa ib ab max_image_id_a max_ann_id_a images_b mp annotations_b,
    a = JObj ma ∧ dataset a ia aa ∧ dataset b ib ab
    ∧ get_max_id ia "id" = Ok max_image_id_a
    ∧ get_max_id aa "id" = Ok max_ann_id_a
    ∧ build_image_id_mapping ib max_image_id_a = Ok (images_b, mp)
    ∧ remap_annotations ab mp max_ann_id_a = Ok annotations_b
    ∧ r = JObj (merged_object ma (ia ++ images_b) (aa ++ annotations_b)).
Proof.
  unfold merge_instances. split.
  - intros H.
    apply bind_Ok in H as ([] & Hva & H). apply bind_Ok in H as ([] & Hvb & H).
    apply validate_coco_like_Ok in Hva as (ia & aa & Hda).
    apply validate_coco_like_Ok in Hvb as (ib & ab & Hdb).
    pose proof Hda as (ma & -> & Hia & Haa). pose proof Hdb as (mb & -> & Hib & Hab).
    simpl in H. rewrite Hia, Haa, Hib, Hab in H. simpl in H.
    apply bind_Ok in H as (mi & Hmi & H). apply bind_Ok in H as (mn & Hmn & H).
    apply bind_Ok in H as ([images_b mp] & Hbuild & H).
    apply bind_Ok in H as (annotations_b & Hremap & H).
    injection H as <-. rewrite merged_fields.
    by eexists ma, ia, aa, ib, ab, mi, mn, images_b, mp, annotations_b.
  - intros (ma & ia & aa & ib & ab & mi & mn & images_b & mp & annotations_b
            & -> & Hda & Hdb & Hmi & Hmn & Hbuild & Hremap & ->).
    rewrite (proj2 (validate_coco_like_Ok _ _)) by eauto.
    rewrite (proj2 (validate_coco_like_Ok _ _)) by eauto.
    destruct Hda as (ma' & [= <-] & Hia & Haa). destruct Hdb as (mb & -> & Hib & Hab).
    simpl. rewrite Hia, Haa, Hib, Hab. simpl.
    rewrite Hmi; simpl. rewrite Hmn; simpl. rewrite Hbuild; simpl. rewrite Hremap; simpl.
    by rewrite merged_fields.
Qed.

Lemma get_max_id_loop_typed key items max_id :
  Forall (integer_or_absent key) items → ∃ r, get_max_id_loop max_id items key = Ok r.
Proof.
  intros H. revert max_id.
  induction H as [|item items (m & -> & Hm) _ IH]; intros max_id; simpl; [eauto |].
  destruct (m !! key) as [v|] eqn:Hv; simpl; [| apply IH].
  destruct (Hm v eq_refl) as [z ->]. simpl. apply IH.
Qed.

Lemma remap_annotations_body_record ann mp ids off_i off_a :
  (∀ z, z ∈ ids → mp !! z = Some (z + off_i)) →
  annotation_record ids ann →
  remap_annotations_body ann mp off_a = Ok (remapped_annotation off_i off_a ann).
Proof.
  intros Hmp [(z & (m & -> & Hz) & Hin) (m' & [= <-] & Hid)].
  unfold remap_annotations_body, remapped_annotation, shifted; simpl.
  rewrite Hz; simpl. rewrite (Hmp z Hin). simpl.
  rewrite lookup_insert_ne by done.
  destruct (m !! "id") as [v|] eqn:Hv; simpl; [| done].
  destruct (Hid v eq_refl) as [i ->]. done.
Qed.

Lemma remap_annotations_records anns mp ids off_i off_a :
  (∀ z, z ∈ ids → mp !! z = Some (z + off_i)) →
  Forall (annotation_record ids) anns →
  remap_annotations anns mp off_a = Ok (remapped_annotation off_i off_a <$> anns).
Proof.
  intros Hmp H. unfold remap_annotations. rewrite remap_annotations_loop_mapM.
  assert (mapM (λ ann, remap_annotations_body ann mp off_a) anns
          = Ok (remapped_annotation off_i off_a <$> anns)) as ->; [| done].
  apply mapM_result_Ok. induction H as [|ann anns Hann _ IH]; simpl; constructor; [| done].
  by eapply remap_annotations_body_record.
Qed.

(** The merge of two well-typed datasets succeeds, with the two offsets
    computed from the first dataset. *)
Lemma merge_instances_typed a b ia aa ib ab ids :
  first_dataset a ia aa → second_dataset b ib ab ids →
  ∃ ma off_i off_a,
    a = JObj ma
    ∧ get_max_id ia "id" = Ok off_i
    ∧ get_max_id aa "id" = Ok off_a
    ∧ merge_instances a b
      = Ok (JObj (merged_object ma (ia ++ (shifted "id" off_i <$> ib))
                                   (aa ++ (remapped_annotation off_i off_a <$> ab)))).
Proof.
  intros (Hda & Hia & Haa) (Hdb & Hib & Hab).
  destruct (get_max_id_loop_typed "id" ia 0 Hia) as [off_i Hoi].
  destruct (get_max_id_loop_typed "id" aa 0 Haa) as [off_a Hoa].
  destruct (build_image_id_mapping_carries ib ids off_i Hib) as (mp & Hbuild & Hmp).
  pose proof Hda as (ma & -> & _).
  exists ma, off_i, off_a. split_and!; [done.. |].
  apply merge_instances_Ok.
  eexists ma, ia, aa, ib, ab, off_i, off_a, _, mp, _. split_and!; try done.
  eapply remap_annotations_records; [| done].
  intros z Hz. rewrite Hmp. by rewrite decide_True.
Qed.

(** C2. The merge of two well-typed datasets holds, under [images], the
    images of the first followed by those of the second with their ids
    shifted, and under [annotations] the annotations of the first followed
    by those of the second with their ids and image references shifted: in
    the order of the inputs, one output record per input record. *)
Theorem merge_instances_concatenates a b ia aa ib ab ids :
  first_dataset a ia aa → second_dataset b ib ab ids →
  ∃ m off_i off_a,
    merge_instances a b = Ok (JObj m)
    ∧ get_max_id ia "id" = Ok off_i
    ∧ get_max_id aa "id" = Ok off_a
    ∧ m !! "images" = Some (JList (ia ++ (shifted "id" off_i <$> ib)))
    ∧ m !! "annotations"
      = Some (JList (aa ++ (remapped_annotation off_i off_a <$> ab))).
Proof.
  intros Ha Hb.
  destruct (merge_instances_typed a b ia aa ib ab ids Ha Hb)
    as (ma & off_i & off_a & -> & Hoi & Hoa & Hmerge).
  eexists _, off_i, off_a. split_and!; [done.. | |]; unfold merged_object.
  - by rewrite lookup_insert_eq.
  - by rewrite lookup_insert_ne, lookup_insert_eq.
Qed.

(** C9. Merging a well-typed dataset with a second dataset whose two lists
    are empty gives back the first dataset, every field included. *)
Theorem merge_instances_empty_second a b ia aa :
  first_dataset a ia aa → dataset b [] [] →
  merge_instances a b = Ok a
  ∧ getitem a "images" = Ok (JList ia)
  ∧ getitem a "annotations" = Ok (JList aa).
Proof.
  intros Ha Hb.
  destruct (merge_instances_typed a b ia aa [] [] [] Ha) as (ma & off_i & off_a & -> & _ & _ & ->).
  { split_and!; [done | constructor | constructor]. }
  destruct Ha as ((ma' & [= <-] & Hia & Haa) & _). simpl. rewrite Hia, Haa.
  split_and!; [| done..]. do 2 f_equal. unfold merged_object. rewrite !app_nil_r.
  by rewrite (insert_id _ "annotations"), insert_id.
Qed.

(** ** Images without an id *)

Lemma build_image_id_mapping_typed images off :
  Forall (integer_or_absent "id") images →
  (Exists (lacks "id") images
   ∧ mapM (λ image, build_image_id_mapping_body image off) images = Err missing_image_id)
  ∨ (∃ ids, Forall2 (carries "id") ids images).
Proof.
  induction 1 as [|image images (m & -> & Hm) _ IH]; [right; by exists [] |].
  destruct (m !! "id") as [v|] eqn:Hv.
  - destruct (Hm v eq_refl) as [z ->].
    assert (carries "id" z (JObj m)) as Hc by by exists m.
    destruct IH as [[Hex Herr]|[ids Hids]].
    + left. split; [by right |].
      rewrite mapM_result_cons.
      rewrite (build_image_id_mapping_body_carries _ z) by done. simpl. by rewrite Herr.
    + right. exists (z :: ids). by constructor.
  - assert (lacks "id" (JObj m)) as Hl by by exists m.
    left. split; [by left |].
    rewrite mapM_result_cons. by rewrite build_image_id_mapping_body_lacks.
Qed.

Lemma carries_not_lacks key z item : carries key z item → ¬ lacks key item.
Proof. intros (m & -> & Hm) (m' & [= <-] & Hm'). congruence. Qed.

Lemma dataset_inj d images annotations images' annotations' :
  dataset d images annotations → dataset d images' annotations' →
  images' = images ∧ annotations' = annotations.
Proof. intros (m & -> & Hi & Ha) (m' & [= <-] & Hi' & Ha'). split; congruence. Qed.

(** On image records whose [id], when present, is an integer,
    [build_image_id_mapping] fails exactly when some record has no [id]; the
    error is then the missing-id error, and the merge of any dataset with one
    that holds these images fails too.  When every record carries an id, the
    result holds each image with its id shifted by the offset, and the
    mapping sends every old id, and nothing else, to that id plus the
    offset. *)
Lemma build_image_id_mapping_integer_ids (images : list json) (offset : Z) :
  Forall (integer_or_absent "id") images →
  (Exists (lacks "id") images ↔ ∃ e, build_image_id_mapping images offset = Err e)
  ∧ (∀ e, build_image_id_mapping images offset = Err e → e = missing_image_id)
  ∧ (Exists (lacks "id") images →
     ∀ a b annotations, dataset b images annotations → is_ok (merge_instances a b) = false)
  ∧ (∀ ids, Forall2 (carries "id") ids images →
     ∃ mp, build_image_id_mapping images offset = Ok (shifted "id" offset <$> images, mp)
           ∧ Forall2 (carries "id") ((λ z, z + offset) <$> ids) (shifted "id" offset <$> images)
           ∧ ∀ z, mp !! z = if decide (z ∈ ids) then Some (z + offset) else None).
Proof.
  intros Htyped.
  assert (∀ off, Exists (lacks "id") images →
                 build_image_id_mapping images off = Err missing_image_id) as Hfail.
  { intros off Hex. unfold build_image_id_mapping. rewrite build_image_id_mapping_loop_mapM.
    destruct (build_image_id_mapping_typed images off Htyped) as [[_ ->]|[ids Hids]]; [done |].
    exfalso. apply Exists_exists in Hex as (image & Hin & Hl).
    apply list_elem_of_lookup in Hin as [i Hi].
    destruct (Forall2_lookup_r _ _ _ _ _ Hids Hi) as (z & _ & Hc).
    by eapply carries_not_lacks. }
  assert (∀ e, build_image_id_mapping images offset = Err e →
               Exists (lacks "id") images ∧ e = missing_image_id) as Herr.
  { intros e He. unfold build_image_id_mapping in He.
    rewrite build_image_id_mapping_loop_mapM in He.
    destruct (build_image_id_mapping_typed images offset Htyped) as [[Hex Hm]|[ids Hids]].
    - rewrite Hm in He. by injection He as <-.
    - destruct (build_image_id_mapping_carries images ids offset Hids) as (mp & Hok & _).
      unfold build_image_id_mapping in Hok. rewrite build_image_id_mapping_loop_mapM in Hok.
      congruence. }
  split_and!.
  - split; [eauto | intros [e He]; by apply Herr in He as [? _]].
  - intros e He. by apply Herr in He as [_ ?].
  - intros Hex a b annotations Hb.
    destruct (merge_instances a b) as [r|e] eqn:Hm; [| done].
    apply merge_instances_Ok in Hm
      as (ma & ia & aa & ib & ab & mi & mn & imgs & mp & anns & _ & _ & Hb' & _ & _ & Hbuild & _).
    destruct (dataset_inj _ _ _ _ _ Hb Hb') as [-> _].
    rewrite (Hfail mi Hex) in Hbuild. done.
  - intros ids Hids.
    destruct (build_image_id_mapping_carries images ids offset Hids) as (mp & Hok & Hmp).
    exists mp. split_and!; [done | | done].
    apply Forall2_fmap. eapply Forall2_impl; [exact Hids |].
    intros z image (m & -> & Hm). unfold shifted. rewrite Hm.
    eexists. split; [done |]. by rewrite lookup_insert_eq.
Qed.

(** ** Images with any id *)

Lemma build_image_id_mapping_body_reads image z off :
  reads_as int_of_str "id" z image →
  build_image_id_mapping_body image off = Ok (with_field "id" (z + off) image, z).
Proof.
  intros (m & v & -> & Hm & Hv). unfold build_image_id_mapping_body; simpl.
  rewrite Hm; simpl. by rewrite Hv.
Qed.

Lemma build_image_id_mapping_body_Ok image off new_image z :
  build_image_id_mapping_body image off = Ok (new_image, z) →
  reads_as int_of_str "id" z image.
Proof.
  unfold build_image_id_mapping_body.
  destruct image as [| | | |s|l|m]; simpl; try done.
  - destruct (is_substring "id" s); done.
  - destruct (existsb _ l); done.
  - destruct (m !! "id") as [v|] eqn:Hm; simpl; [| done].
    destruct (py_int v) as [z'|] eqn:Hv; simpl; [| done].
    intros [= _ <-]. by exists m, v.
Qed.

Lemma build_image_id_mapping_reads images ids off :
  Forall2 (reads_as int_of_str "id") ids images →
  ∃ mp, build_image_id_mapping images off
        = Ok (zip_with (with_field "id") ((λ z, z + off) <$> ids) images, mp)
        ∧ ∀ z, mp !! z = if decide (z ∈ ids) then Some (z + off) else None.
Proof.
  intros H. unfold build_image_id_mapping.
  rewrite build_image_id_mapping_loop_mapM.
  assert (mapM (λ image, build_image_id_mapping_body image off) images
          = Ok (zip (zip_with (with_field "id") ((λ z, z + off) <$> ids) images) ids)) as ->.
  { apply mapM_result_Ok. induction H as [|z image ids images Hc _ IH]; simpl; constructor; [| done].
    by apply build_image_id_mapping_body_reads. }
  assert (length (zip_with (with_field "id") ((λ z, z + off) <$> ids) images) = length ids) as Hlen.
  { rewrite length_zip_with, length_fmap. apply Forall2_length in H. lia. }
  simpl. eexists. split.
  - rewrite fst_zip; [done | lia].
  - intros z. rewrite foldl_insert_lookup, lookup_empty. rewrite snd_zip; [done | lia].
Qed.

(** C4. [build_image_id_mapping] fails exactly when some image is not an
    object with an [id] that [int] converts, and the merge of any dataset with
    one that holds these images fails too; the error is the missing-id error
    when the first such image is an object without [id].  When every image
    carries a convertible id, the result holds each image with its id set to
    the old id plus the offset, and the mapping sends every old id, and
    nothing else, to that id plus the offset. *)
Theorem build_image_id_mapping_total (images : list json) (offset : Z) :
  ((∃ e, build_image_id_mapping images offset = Err e)
   ↔ Exists (λ image, ∀ z, ¬ reads_as int_of_str "id" z image) images)
  ∧ ((∃ e, build_image_id_mapping images offset = Err e) →
     ∀ a b annotations, dataset b images annotations → is_ok (merge_instances a b) = false)
  ∧ (∀ pre image post ids,
       images = pre ++ image :: post → Forall2 (reads_as int_of_str "id") ids pre →
       lacks "id" image →
       build_image_id_mapping images offset = Err missing_image_id)
  ∧ (∀ ids, Forall2 (reads_as int_of_str "id") ids images →
     ∃ mp, build_image_id_mapping images offset
           = Ok (zip_with (with_field "id") ((λ z, z + offset) <$> ids) images, mp)
           ∧ Forall2 (carries "id") ((λ z, z + offset) <$> ids)
               (zip_with (with_field "id") ((λ z, z + offset) <$> ids) images)
           ∧ ∀ z, mp !! z = if decide (z ∈ ids) then Some (z + offset) else None).
Proof.
  split_and!.
  - unfold build_image_id_mapping. rewrite build_image_id_mapping_loop_mapM. split.
    + intros [e He].
      destruct (mapM _ images) as [ps|e'] eqn:HmapM; [done |].
      apply mapM_result_Err in HmapM as (pre & image & post & -> & _ & Herr).
      apply Exists_app. right. apply Exists_cons_hd. intros z Hz.
      by rewrite (build_image_id_mapping_body_reads _ z) in Herr.
    + intros Hex. destruct (mapM _ images) as [ps|e'] eqn:HmapM; [| by eexists].
      exfalso. apply mapM_result_Ok in HmapM.
      apply Exists_exists in Hex as (image & Hin & Hno).
      apply list_elem_of_lookup in Hin as [i Hi].
      destruct (Forall2_lookup_l _ _ _ _ _ HmapM Hi) as ([new_image z] & _ & Hok).
      by apply build_image_id_mapping_body_Ok, Hno in Hok.
  - intros [e He] a b annotations Hb.
    destruct (merge_instances a b) as [r|e'] eqn:Hm; [| done].
    apply merge_instances_Ok in Hm
      as (ma & ia & aa & ib & ab & mi & mn & imgs & mp & anns & _ & _ & Hb' & _ & _ & Hbuild & _).
    destruct (dataset_inj _ _ _ _ _ Hb Hb') as [-> _].
    unfold build_image_id_mapping in He, Hbuild.
    rewrite build_image_id_mapping_loop_mapM in He, Hbuild.
    destruct (mapM (λ image, build_image_id_mapping_body image offset) images) eqn:H1; [done |].
    destruct (mapM (λ image, build_image_id_mapping_body image mi) images) eqn:H2; [| done].
    apply mapM_result_Err in H1 as (pre & image & post & -> & _ & Herr).
    apply mapM_result_Ok in H2.
    destruct (Forall2_lookup_l _ _ _ (length pre) image H2) as ([new_image z] & _ & Hok).
    { by rewrite lookup_app_r, Nat.sub_diag by lia. }
    apply build_image_id_mapping_body_Ok in Hok.
    by rewrite (build_image_id_mapping_body_reads _ z) in Herr.
  - intros pre image post ids -> Hpre Himage.
    unfold build_image_id_mapping. rewrite build_image_id_mapping_loop_mapM.
    assert (mapM (λ image, build_image_id_mapping_body image offset) (pre ++ image :: post)
            = Err missing_image_id) as ->; [| done].
    apply mapM_result_Err. exists pre, image, post. split_and!; [done | |].
    + apply mapM_result_is_ok, Forall_forall. intros x Hx.
      apply list_elem_of_lookup in Hx as [i Hi].
      destruct (Forall2_lookup_r _ _ _ _ _ Hpre Hi) as (z & _ & Hz).
      by rewrite (build_image_id_mapping_body_reads _ z).
    + by apply build_image_id_mapping_body_lacks.
  - intros ids Hids.
    destruct (build_image_id_mapping_reads images ids offset Hids) as (mp & Hok & Hmp).
    exists mp. split_and!; [done | | done].
    clear Hok Hmp. induction Hids as [|z image ids images (m & v & -> & _ & _) _ IH]; simpl.
    + constructor.
    + constructor; [| done]. eexists. split; [done |]. by rewrite lookup_insert_eq.
Qed.

Lemma merge_instances_steps a b ma ia aa ib ab :
  a = JObj ma → dataset a ia aa → dataset b ib ab →
  merge_instances a b =
  max_image_id_a ← get_max_id ia "id";
  max_ann_id_a ← get_max_id aa "id";
  built ← build_image_id_mapping ib max_image_id_a;
  annotations_b ← remap_annotations ab built.2 max_ann_id_a;
  Ok (JObj (merged_object ma (ia ++ built.1) (aa ++ annotations_b))).
Proof.
  intros -> Hda Hdb. unfold merge_instances.
  rewrite (proj2 (validate_coco_like_Ok _ _)) by eauto.
  rewrite (proj2 (validate_coco_like_Ok _ _)) by eauto.
  destruct Hda as (ma' & [= <-] & Hia & Haa). destruct Hdb as (mb & -> & Hib & Hab).
  simpl. rewrite Hia, Haa, Hib, Hab. simpl.
  destruct (get_max_id ia "id") as [mi|]; simpl; [| done].
  destruct (get_max_id aa "id") as [mn|]; simpl; [| done].
  destruct (build_image_id_mapping ib mi) as [[imgs mp]|]; simpl; [| done].
  destruct (remap_annotations ab mp mn) as [anns|]; simpl; [| done].
  by rewrite merged_fields.
Qed.

(** ** Annotations whose image reference does not resolve *)

Lemma remap_annotations_body_lacks ann mp off :
  lacks "image_id" ann → remap_annotations_body ann mp off = Err missing_image_ref.
Proof. intros (m & -> & Hm). unfold remap_annotations_body; simpl. by rewrite Hm. Qed.

Lemma remap_annotations_body_unknown (m : gmap string json) (mp : gmap Z Z) off v :
  m !! "image_id" = Some v → (∀ z, py_int v = Ok z → mp !! z = None) →
  is_ok (remap_annotations_body (JObj m) mp off) = false.
Proof.
  intros Hm Hz. unfold remap_annotations_body; simpl.
  rewrite Hm; simpl. destruct (py_int v) as [z|] eqn:Hv; simpl; [| done].
  by rewrite (Hz z eq_refl).
Qed.

Lemma remap_annotations_body_typed_Err ann mp off e :
  typed_annotation ann → remap_annotations_body ann mp off = Err e → dangling_reference e.
Proof.
  intros [(m & -> & Href) (m' & [= <-] & Hid)]. unfold remap_annotations_body; simpl.
  destruct (m !! "image_id") as [v|] eqn:Hv; simpl; [| intros [= <-]; by left].
  destruct (Href v eq_refl) as [z ->]. simpl.
  destruct (mp !! z) as [new|]; [| intros [= <-]; right; by exists z].
  simpl. destruct (m !! "id") as [w|] eqn:Hw; simpl; [| done].
  destruct (Hid w eq_refl) as [i ->]. done.
Qed.

Lemma py_int_Err v e :
  py_int v = Err e →
  ¬ dangling_reference e ∧ class_of e ∈ [TypeError; ValueError; OverflowError].
Proof.
  intros H.
  assert (∃ c, e = Builtin c ∧ c ∈ [TypeError; ValueError; OverflowError]) as (c & -> & Hc).
  { destruct v as [| | |[]| |l|m]; simpl in H; try discriminate;
      try (injection H as <-; eexists; split; [done | set_solver]).
    destruct (int_of_str s); [discriminate |].
    injection H as <-. eexists; split; [done | set_solver]. }
  split; [| done]. by intros [?|[z ?]].
Qed.

(** The error of the merge when [remap_annotations] is reached and fails at
    [ann], every annotation before it being remapped. *)
Lemma merge_instances_remap_Err a b ma ia aa ib ab off_i off_a images_b mp pre ann post e :
  a = JObj ma → dataset a ia aa → dataset b ib ab →
  get_max_id ia "id" = Ok off_i → get_max_id aa "id" = Ok off_a →
  build_image_id_mapping ib off_i = Ok (images_b, mp) →
  ab = pre ++ ann :: post →
  is_ok (mapM (λ ann, remap_annotations_body ann mp off_a) pre) = true →
  remap_annotations_body ann mp off_a = Err e →
  merge_instances a b = Err e.
Proof.
  intros Ha Hda Hdb Hmi Hmn Hbuild Hab Hpre Hann.
  rewrite (merge_instances_steps a b ma ia aa ib ab) by done.
  rewrite Hmi, Hmn. simpl. rewrite Hbuild. simpl.
  unfold remap_annotations. rewrite remap_annotations_loop_mapM.
  assert (mapM (λ ann, remap_annotations_body ann mp off_a) ab = Err e) as ->; [| done].
  apply mapM_result_Err. by exists pre, ann, post.
Qed.

(** C5, amended.  When an annotation of the second dataset has no
    [image_id], or one that [int] does not convert to a key of the mapping
    built from the images of that dataset, the merge returns no result.
    Once the merge has reached the annotations, the error is decided by the
    first annotation that is not remapped: the error of the missing
    reference when it has no [image_id], that of the unknown reference when
    [int] converts its [image_id] to a value that is not a key, and the
    error of [int] itself, which is neither of them, when [int] rejects its
    [image_id].  On well-typed inputs the error is always one of the two
    errors raised for a missing or unknown reference. *)
Theorem dangling_reference_is_fatal a b ib ab :
  dataset b ib ab →
  (Exists (unresolved int_of_str ib) ab → is_ok (merge_instances a b) = false)
  ∧ (∀ ma ia aa off_i off_a images_b mp pre ann post,
       a = JObj ma → dataset a ia aa →
       get_max_id ia "id" = Ok off_i → get_max_id aa "id" = Ok off_a →
       build_image_id_mapping ib off_i = Ok (images_b, mp) →
       ab = pre ++ ann :: post →
       is_ok (mapM (λ ann, remap_annotations_body ann mp off_a) pre) = true →
       (lacks "image_id" ann → merge_instances a b = Err missing_image_ref)
       ∧ (∀ m v z, ann = JObj m → m !! "image_id" = Some v → py_int v = Ok z →
                   mp !! z = None → merge_instances a b = Err (unknown_image_ref z))
       ∧ (∀ m v e, ann = JObj m → m !! "image_id" = Some v → py_int v = Err e →
                   merge_instances a b = Err e
                   ∧ ¬ dangling_reference e
                   ∧ class_of e ∈ [TypeError; ValueError; OverflowError]))
  ∧ (∀ ia aa ids,
       first_dataset a ia aa → Forall2 (carries "id") ids ib → Forall typed_annotation ab →
       Exists (unresolved int_of_str ib) ab →
       ∃ e, merge_instances a b = Err e ∧ dangling_reference e).
Proof.
  intros Hdb.
  assert (Exists (unresolved int_of_str ib) ab → is_ok (merge_instances a b) = false)
    as Hfatal.
  { intros Hex.
    destruct (merge_instances a b) as [r|e] eqn:Hm; [| done].
    apply merge_instances_Ok in Hm
      as (ma & ia & aa & ib' & ab' & mi & mn & imgs & mp & anns
          & _ & _ & Hdb' & _ & _ & Hbuild & Hremap & _).
    destruct (dataset_inj _ _ _ _ _ Hdb Hdb') as [-> ->].
    unfold remap_annotations in Hremap. rewrite remap_annotations_loop_mapM in Hremap.
    apply bind_Ok in Hremap as (new & Hnew & _). apply mapM_result_Ok in Hnew.
    apply Exists_exists in Hex as (ann & Hin & Hbad).
    apply list_elem_of_lookup in Hin as [i Hi].
    destruct (Forall2_lookup_l _ _ _ _ _ Hnew Hi) as (new_ann & _ & Hok).
    destruct Hbad as [Hl|(m & v & -> & Hv & Hz)].
    - by rewrite remap_annotations_body_lacks in Hok.
    - assert (is_ok (remap_annotations_body (JObj m) mp mn) = false) as Hno.
      { eapply remap_annotations_body_unknown; [done |]. intros z Hvz. by eapply Hz. }
      by rewrite Hok in Hno. }
  split_and!; [done | |].
  - intros ma ia aa off_i off_a images_b mp pre ann post Ha Hda Hmi Hmn Hbuild Hab Hpre.
    pose proof (merge_instances_remap_Err a b ma ia aa ib ab off_i off_a images_b mp
                  pre ann post) as Herr.
    split_and!.
    + intros Hl. eapply Herr; try done. by apply remap_annotations_body_lacks.
    + intros m v z -> Hv Hz Hnone. eapply Herr; try done.
      unfold remap_annotations_body; simpl. rewrite Hv; simpl. rewrite Hz; simpl.
      by rewrite Hnone.
    + intros m v e -> Hv He. split; [| by eapply py_int_Err].
      eapply Herr; try done.
      unfold remap_annotations_body; simpl. rewrite Hv; simpl. by rewrite He.
  - intros ia aa ids (Hda & Hia & Haa) Hib Hab Hex.
    pose proof (Hfatal Hex) as Hfail.
    pose proof Hda as (ma & Ha & _).
    rewrite (merge_instances_steps a b ma ia aa ib ab) in Hfail |- * by done.
    destruct (get_max_id_loop_typed "id" ia 0 Hia) as [mi Hmi].
    destruct (get_max_id_loop_typed "id" aa 0 Haa) as [mn Hmn].
    destruct (build_image_id_mapping_carries ib ids mi Hib) as (mp & Hbuild & _).
    unfold get_max_id in *. rewrite Hmi, Hmn in Hfail |- *. simpl in *.
    rewrite Hbuild in Hfail |- *. simpl in *.
    destruct (remap_annotations ab mp mn) as [anns|e] eqn:Hremap; [done |].
    exists e. split; [done |].
    unfold remap_annotations in Hremap. rewrite remap_annotations_loop_mapM in Hremap.
    destruct (mapM _ ab) as [|e'] eqn:HmapM; [done |]. injection Hremap as ->.
    apply mapM_result_Err in HmapM as (pre & ann & post & -> & _ & Herr).
    apply Forall_app in Hab as [_ [Hann _]%Forall_cons].
    by eapply remap_annotations_body_typed_Err.
Qed.

(** ** The id of a remapped annotation *)

(** [int] raises an error that the handler of [remap_annotations] does not
    catch on the infinite floats only. *)
Lemma py_int_uncaught v e :
  py_int v = Err e → class_of e ∉ [TypeError; ValueError] →
  e = Builtin OverflowError ∧ ∃ s, v = JFloat (S754_infinity s).
Proof.
  destruct v as [| | |[]| |l|m]; simpl; intros H Hc; try discriminate;
    try (injection H as <-; simpl in Hc; first [by eauto | exfalso; apply Hc; set_solver]).
  destruct (int_of_str s); [discriminate |].
  injection H as <-. exfalso. apply Hc. set_solver.
Qed.

(** X7. The id of an annotation of the second dataset whose image reference
    resolves: shifted by the offset when [int] converts it, removed when
    [int] raises [TypeError] or [ValueError]; the annotation is kept in both
    cases.  The other errors of [int] are not caught. *)
Theorem remap_annotations_body_id (m : gmap string json) (mp : gmap Z Z) v z new w off :
  m !! "image_id" = Some v → py_int v = Ok z → mp !! z = Some new →
  m !! "id" = Some w →
  let new_ann := <["image_id" := JInt new]> m in
  (∀ i, py_int w = Ok i →
        remap_annotations_body (JObj m) mp off = Ok (JObj (<["id" := JInt (i + off)]> new_ann)))
  ∧ (∀ e, py_int w = Err e → class_of e ∈ [TypeError; ValueError] →
          remap_annotations_body (JObj m) mp off = Ok (JObj (delete "id" new_ann)))
  ∧ (∀ e, py_int w = Err e → class_of e ∉ [TypeError; ValueError] →
          remap_annotations_body (JObj m) mp off = Err e).
Proof.
  intros Hv Hz Hnew Hw new_ann. unfold remap_annotations_body; simpl.
  rewrite Hv; simpl. rewrite Hz; simpl. rewrite Hnew; simpl. rewrite Hw; simpl.
  split_and!.
  - by intros i ->.
  - intros e -> He. simpl. unfold except.
    by rewrite (bool_decide_eq_true_2 _ He).
  - intros e -> He. simpl. unfold except.
    by rewrite (bool_decide_eq_false_2 _ He).
Qed.

(** ** Distinct image ids *)

Lemma shifted_other key key' off item z :
  key ≠ key' → carries key' z item → carries key' z (shifted key off item).
Proof.
  intros Hne (m & -> & Hm). unfold shifted.
  destruct (m !! key) as [[]|]; try by eexists.
  eexists. split; [done |]. by rewrite lookup_insert_ne.
Qed.

Lemma shifted_carries key off item z :
  carries key z item → carries key (z + off) (shifted key off item).
Proof.
  intros (m & -> & Hm). unfold shifted. rewrite Hm.
  eexists. split; [done |]. by rewrite lookup_insert_eq.
Qed.

(** X9. The image ids of the merge of two datasets with non-negative image
    ids, distinct within each dataset, whose annotations refer to images of
    their own dataset: those of the first, then those of the second plus the
    offset, which is what [get_max_id] returns on the images of the first,
    its largest id (0 without images).  Every annotation of the result
    refers to an image of the result, and the ids are pairwise distinct
    exactly when the first dataset has no image or the second has no image
    with id [0]. *)
Theorem merge_instances_image_ids a b ia aa ib ab idsA idsB :
  dataset a ia aa → Forall2 (carries "id") idsA ia →
  Forall (annotation_record idsA) aa →
  second_dataset b ib ab idsB →
  Forall (λ z, 0 ≤ z) idsA → Forall (λ z, 0 ≤ z) idsB →
  NoDup idsA → NoDup idsB →
  ∃ m off images annotations,
    let ids := idsA ++ ((λ z, z + off) <$> idsB) in
    merge_instances a b = Ok (JObj m)
    ∧ get_max_id ia "id" = Ok off
    ∧ (off = 0 ∨ off ∈ idsA) ∧ (∀ z, z ∈ idsA → z ≤ off)
    ∧ m !! "images" = Some (JList images)
    ∧ m !! "annotations" = Some (JList annotations)
    ∧ Forall2 (carries "id") ids images
    ∧ Forall (λ ann, ∃ z, carries "image_id" z ann ∧ z ∈ ids) annotations
    ∧ (NoDup ids ↔ idsA = [] ∨ 0 ∉ idsB).
Proof.
  intros Hda Hia Haa Hb HposA HposB HndA HndB.
  assert (first_dataset a ia aa) as Ha.
  { split_and!; [done | |].
    - apply Forall_forall. intros image Hin. apply list_elem_of_lookup in Hin as [i Hi].
      destruct (Forall2_lookup_r _ _ _ _ _ Hia Hi) as (z & _ & m & -> & Hm).
      exists m. split; [done |]. intros v Hv. exists z. congruence.
    - eapply Forall_impl; [exact Haa |]. by intros ann [_ ?]. }
  destruct (merge_instances_typed a b ia aa ib ab idsB Ha Hb)
    as (ma & off & off_a & -> & Hoff & _ & Hmerge).
  destruct (get_max_id_ints "id" idsA ia Hia HposA) as (off' & Hoff' & H0 & Hin & Hmax).
  assert (off' = off) as -> by congruence.
  destruct Hb as (_ & Hib & Hab).
  eexists _, off, _, _. split_and!.
  - exact Hmerge.
  - exact Hoff.
  - destruct idsA as [|y idsA]; [left; by apply H0 | right; by apply Hin].
  - exact Hmax.
  - unfold merged_object. by rewrite lookup_insert_eq.
  - unfold merged_object. by rewrite lookup_insert_ne, lookup_insert_eq.
  - apply Forall2_app; [done |]. apply Forall2_fmap.
    eapply Forall2_impl; [exact Hib |]. intros z image. apply shifted_carries.
  - apply Forall_app. split.
    + eapply Forall_impl; [exact Haa |]. intros ann [(z & Hc & Hz) _].
      exists z. split; [done |]. apply elem_of_app. by left.
    + apply Forall_fmap. eapply Forall_impl; [exact Hab |]. intros ann [(z & Hc & Hz) _].
      exists (z + off). split.
      * unfold remapped_annotation. apply shifted_other; [done |]. by apply shifted_carries.
      * apply elem_of_app. right. apply list_elem_of_fmap. by exists z.
  - rewrite NoDup_app. split.
    + intros (_ & Hdisj & _).
      destruct idsA as [|y idsA]; [by left |]. right. intros H0B.
      apply (Hdisj off); [by apply Hin |].
      apply list_elem_of_fmap. exists 0. split; [lia | done].
    + intros Hcond. split_and!; [done | |].
      * intros x HxA [z [-> HzB]]%list_elem_of_fmap.
        destruct Hcond as [->|H0B]; [by apply elem_of_nil in HxA |].
        pose proof (Hmax _ HxA).
        pose proof (proj1 (Forall_forall _ _) HposB _ HzB) as Hz. simpl in Hz.
        assert (z = 0) as -> by lia. done.
      * apply NoDup_fmap; [| done]. intros x y. lia.
Qed.

End Merge.

(** ** The statements on examples *)

(** Solves [dataset], [carries], [lacks] and the other predicates of the
    vocabulary on closed documents. *)
Ltac solve_record :=
  repeat first
    [ progress intros
    | done
    | match goal with
      | |- _ ∧ _ => split
      | |- Forall _ _ => constructor
      | |- Forall2 _ _ _ => constructor
      | |- dataset _ _ _ => by eexists
      | |- carries _ _ _ => by eexists
      | |- lacks _ _ => by eexists
      | |- integer_or_absent _ _ =>
          eexists; split; [reflexivity |];
          let v := fresh "v" in let Hv := fresh "Hv" in
          intros v Hv; vm_compute in Hv; try discriminate; injection Hv as <-; by eexists
      | |- first_dataset _ _ _ => unfold first_dataset
      | |- second_dataset _ _ _ _ => unfold second_dataset
      | |- annotation_record _ _ => unfold annotation_record
      | |- typed_annotation _ => unfold typed_annotation
      | |- ∃ z, carries _ z _ ∧ _ => eexists; split; [by eexists | set_solver]
      end ].

Example get_max_id_empty : get_max_id decimal_int [] "id" = Ok 0.
Proof. reflexivity. Qed.

Lemma get_max_id_maximum_witness :
  get_max_id decimal_int [obj [("id", JInt 5)]; obj [("id", JInt 2)]; obj [("id", JInt 9)]] "id"
  = Ok 9.
Proof.
  destruct (get_max_id_maximum decimal_int "id" [5; 2; 9]
              [obj [("id", JInt 5)]; obj [("id", JInt 2)]; obj [("id", JInt 9)]])
    as (r & -> & _ & Hin & Hmax).
  - solve_record.
  - repeat constructor; lia.
  - f_equal. specialize (Hin ltac:(done)). specialize (Hmax 9 ltac:(set_solver)).
    set_unfold. lia.
Defined.

Lemma merge_instances_concatenates_witness :
  first_dataset dataset_a [image_1; image_2] [annotation_1_on_2]
  ∧ second_dataset dataset_b [image_1] [annotation_1_on_1; annotation_on_1] [1]
  ∧ ∃ m off_i off_a,
      merge_instances decimal_int dataset_a dataset_b = Ok (JObj m)
      ∧ get_max_id decimal_int [image_1; image_2] "id" = Ok off_i
      ∧ get_max_id decimal_int [annotation_1_on_2] "id" = Ok off_a
      ∧ m !! "images" = Some (JList ([image_1; image_2] ++ (shifted "id" off_i <$> [image_1])))
      ∧ m !! "annotations"
        = Some (JList ([annotation_1_on_2]
                       ++ (remapped_annotation off_i off_a
                           <$> [annotation_1_on_1; annotation_on_1]))).
Proof.
  assert (first_dataset dataset_a [image_1; image_2] [annotation_1_on_2]) as Ha
    by solve_record.
  assert (second_dataset dataset_b [image_1] [annotation_1_on_1; annotation_on_1] [1]) as Hb
    by solve_record.
  split_and!; [done.. |].
  exact (merge_instances_concatenates decimal_int _ _ _ _ _ _ _ Ha Hb).
Defined.

Example merge_instances_a_b :
  merge_instances decimal_int dataset_a dataset_b
  = Ok (obj [("info", obj [("year", JInt 2024)]);
             ("categories", JList [obj [("id", JInt 1); ("name", JStr "fiber")]]);
             ("images",
              JList [image_1; image_2; obj [("id", JInt 3); ("file_name", JStr "a.jpg")]]);
             ("annotations",
              JList [annotation_1_on_2;
                     obj [("id", JInt 2); ("image_id", JInt 3); ("category_id", JInt 1)];
                     obj [("image_id", JInt 3)]])]).
Proof. vm_compute. reflexivity. Qed.

Lemma merge_instances_empty_second_witness :
  first_dataset dataset_a [image_1; image_2] [annotation_1_on_2]
  ∧ dataset dataset_empty [] []
  ∧ merge_instances decimal_int dataset_a dataset_empty = Ok dataset_a.
Proof.
  assert (first_dataset dataset_a [image_1; image_2] [annotation_1_on_2]) as Ha
    by solve_record.
  assert (dataset dataset_empty [] []) as Hb by solve_record.
  split_and!; [done.. |].
  exact (proj1 (merge_instances_empty_second decimal_int _ _ _ _ Ha Hb)).
Defined.

Lemma build_image_id_mapping_total_witness :
  Forall2 (reads_as decimal_int "id") [1; 2] [image_1; image_2]
  ∧ ∃ mp, build_image_id_mapping decimal_int [image_1; image_2] 5
          = Ok (zip_with (with_field "id") ((λ z, z + 5) <$> [1; 2]) [image_1; image_2], mp)
          ∧ Forall2 (carries "id") ((λ z, z + 5) <$> [1; 2])
              (zip_with (with_field "id") ((λ z, z + 5) <$> [1; 2]) [image_1; image_2])
          ∧ ∀ z, mp !! z = if decide (z ∈ [1; 2]) then Some (z + 5) else None.
Proof.
  assert (Forall2 (reads_as decimal_int "id") [1; 2] [image_1; image_2]) as H.
  { repeat constructor; by eexists _, _. }
  split; [done |].
  destruct (build_image_id_mapping_total decimal_int [image_1; image_2] 5) as (_ & _ & _ & Hok).
  exact (Hok [1; 2] H).
Defined.

(** C4 at an image whose id is a string that is not a number: the record has
    an [id] and the function fails all the same. *)
Lemma build_image_id_mapping_named_image :
  ¬ ((∃ e, build_image_id_mapping decimal_int [image_named] 0 = Err e)
     ↔ Exists (lacks "id") [image_named]).
Proof.
  intros [Hfail _].
  assert (Exists (lacks "id") [image_named]) as Hex by (apply Hfail; by eexists).
  apply Exists_cons in Hex as [(m & [= <-] & Hm)|Hex]; [done | by inversion Hex].
Qed.

Example build_image_id_mapping_1_2 :
  build_image_id_mapping decimal_int [image_1; image_2] 5
  = Ok ([obj [("id", JInt 6); ("file_name", JStr "a.jpg")];
         obj [("id", JInt 7); ("file_name", JStr "b.jpg")]],
        {[1 := 6; 2 := 7]}).
Proof. vm_compute. reflexivity. Qed.

Lemma dangling_reference_is_fatal_witness :
  dataset dataset_on_9 [image_1] [annotation_on_9]
  ∧ is_ok (merge_instances decimal_int dataset_a dataset_on_9) = false
  ∧ merge_instances decimal_int dataset_a dataset_on_9 = Err (unknown_image_ref 9).
Proof.
  assert (dataset dataset_on_9 [image_1] [annotation_on_9]) as Hdb by solve_record.
  destruct (dangling_reference_is_fatal decimal_int dataset_a dataset_on_9
              [image_1] [annotation_on_9] Hdb) as (Hfatal & Herror & _).
  split_and!; [done | |].
  - apply Hfatal. apply Exists_cons_hd. right. eexists _, (JInt 9). split_and!; [done.. |].
    intros z off images_b mp [= <-] [= _ <-]. reflexivity.
  - destruct (Herror _ [image_1; image_2] [annotation_1_on_2] 2 1
                [obj [("id", JInt 3); ("file_name", JStr "a.jpg")]] {[1 := 3]}
                [] annotation_on_9 [] eq_refl) as (_ & Hunknown & _);
      [solve_record | reflexivity | reflexivity | reflexivity | reflexivity | reflexivity |].
    by eapply (Hunknown _ (JInt 9) 9).
Defined.

(** The claim as it was stated, at an annotation whose image reference is
    [null]: the reference is there and is no key of the mapping, and the
    merge fails, but with the [TypeError] of [int], which is not an error of
    the missing or unknown reference. *)
Lemma dangling_reference_null_image_id :
  Exists (unresolved decimal_int [image_1]) [annotation_null_ref]
  ∧ merge_instances decimal_int dataset_a dataset_null_ref = Err (Builtin TypeError)
  ∧ ¬ ∃ e, merge_instances decimal_int dataset_a dataset_null_ref = Err e
           ∧ dangling_reference e.
Proof.
  assert (merge_instances decimal_int dataset_a dataset_null_ref = Err (Builtin TypeError))
    as Hmerge by reflexivity.
  split_and!; [| done |].
  - apply Exists_cons_hd. right. eexists _, JNull. split_and!; [done.. |].
    by intros z off new_images mp.
  - intros (e & He & Hd). rewrite Hmerge in He. injection He as <-.
    by destruct Hd as [?|[z ?]].
Qed.

Example merge_instances_dangling :
  merge_instances decimal_int dataset_a
    (obj [("images", JList [image_1]); ("annotations", JList [annotation_on_9])])
  = Err (unknown_image_ref 9).
Proof. vm_compute. reflexivity. Qed.

Lemma remap_annotations_body_id_witness :
  remap_annotations_body decimal_int
    (obj [("id", JStr "n/a"); ("image_id", JInt 1)]) {[1 := 6]} 10
  = Ok (obj [("image_id", JInt 6)]).
Proof.
  pose proof (remap_annotations_body_id decimal_int
                (list_to_map [("id", JStr "n/a"); ("image_id", JInt 1)])
                {[1 := 6]} (JInt 1) 1 6 (JStr "n/a") 10
                eq_refl eq_refl eq_refl eq_refl) as (_ & Hdrop & _).
  unfold obj. rewrite (Hdrop (Builtin ValueError) eq_refl ltac:(set_solver)).
  vm_compute. reflexivity.
Defined.

Lemma merge_instances_image_ids_witness :
  ∃ m off images annotations,
    let ids := [1; 2] ++ ((λ z, z + off) <$> [1]) in
    merge_instances decimal_int dataset_a dataset_b = Ok (JObj m)
    ∧ get_max_id decimal_int [image_1; image_2] "id" = Ok off
    ∧ (off = 0 ∨ off ∈ [1; 2]) ∧ (∀ z, z ∈ [1; 2] → z ≤ off)
    ∧ m !! "images" = Some (JList images)
    ∧ m !! "annotations" = Some (JList annotations)
    ∧ Forall2 (carries "id") ids images
    ∧ Forall (λ ann, ∃ z, carries "image_id" z ann ∧ z ∈ ids) annotations
    ∧ (NoDup ids ↔ [1; 2] = [] ∨ 0 ∉ [1]).
Proof.
  apply (merge_instances_image_ids decimal_int dataset_a dataset_b
           [image_1; image_2] [annotation_1_on_2]
           [image_1] [annotation_1_on_1; annotation_on_1] [1; 2] [1]).
  - solve_record.
  - solve_record.
  - solve_record.
  - solve_record.
  - repeat constructor; lia.
  - repeat constructor; lia.
  - apply NoDup_cons. split; [set_solver |]. apply NoDup_singleton.
  - apply NoDup_singleton.
Defined.

(** C1 at two datasets with distinct ids each: the image with id [0] of the
    second is given the id of the last image of the first. *)
Theorem merge_instances_id_zero_collides :
  ∃ m, merge_instances decimal_int dataset_a dataset_zero = Ok (JObj m)
       ∧ m !! "images"
         = Some (JList [image_1; image_2; obj [("id", JInt 2); ("file_name", JStr "c.jpg")]])
       ∧ ¬ ∃ ids, NoDup ids
                  ∧ Forall2 (carries "id") ids
                      [image_1; image_2; obj [("id", JInt 2); ("file_name", JStr "c.jpg")]].
Proof.
  eexists. split_and!.
  - vm_compute. reflexivity.
  - vm_compute. reflexivity.
  - intros (ids & Hnd & Hids).
    apply Forall2_cons_inv_r in Hids as (z1 & ? & _ & Hids & ->).
    apply Forall2_cons_inv_r in Hids as (z2 & ? & (? & [= <-] & H2) & Hids & ->).
    apply Forall2_cons_inv_r in Hids as (z3 & ? & (? & [= <-] & H3) & Hids & ->).
    vm_compute in H2, H3. injection H2 as <-. injection H3 as <-.
    apply NoDup_cons in Hnd as [_ Hnd]. apply NoDup_cons in Hnd as [Hnd _].
    apply Hnd. by left.
Qed.

(** C6 at an annotation whose id is an infinite float: the error of [int] is
    not caught and the merge fails. *)
Theorem merge_instances_infinite_id_fails :
  merge_instances decimal_int dataset_a dataset_infinite_id = Err (Builtin OverflowError).
Proof. vm_compute. reflexivity. Qed.

(** * More of merge_annotations.py *)

Section MergeMore.

Variable int_of_str : string → option Z.

Abbreviation py_int := (py_int int_of_str).
Abbreviation get_max_id := (get_max_id int_of_str).
Abbreviation get_max_id_loop := (get_max_id_loop int_of_str).
Abbreviation build_image_id_mapping_body := (build_image_id_mapping_body int_of_str).
Abbreviation build_image_id_mapping := (build_image_id_mapping int_of_str).
Abbreviation remap_annotations_body := (remap_annotations_body int_of_str).
Abbreviation remap_annotations := (remap_annotations int_of_str).
Abbreviation merge_instances := (merge_instances int_of_str).
Abbreviation reads_as := (reads_as int_of_str).
Abbreviation remapped_to := (remapped_to int_of_str).

(** ** [validate_coco_like] *)

Lemma validate_coco_like_Err payload label e :
  validate_coco_like payload label = Err e → ∃ msg, e = Raised ValueError (label +:+ msg).
Proof.
  destruct payload as [| | | | | |m]; simpl; try (intros [= <-]; by eexists).
  destruct (m !! "images") as [[]|]; simpl; try (intros [= <-]; by eexists).
  all: destruct (m !! "annotations") as [[]|]; simpl; try (intros [= <-]; by eexists).
  all: done.
Qed.

(** X1. [validate_coco_like] accepts exactly the objects with a list under
    [images] and a list under [annotations].  Every rejection is a
    [ValueError] whose message starts with the label of the document, and a
    missing [images] is reported whatever is under [annotations]. *)
Theorem validate_coco_like_outcome (payload : json) (label : string) :
  (validate_coco_like payload label = Ok ()
   ↔ ∃ images annotations, dataset payload images annotations)
  ∧ (∀ e, validate_coco_like payload label = Err e →
          ∃ msg, e = Raised ValueError (label +:+ msg))
  ∧ (∀ m, payload = JObj m → m !! "images" = None →
          validate_coco_like payload label
          = Err (Raised ValueError (label +:+ " missing required key: images"))).
Proof.
  split_and!.
  - apply validate_coco_like_Ok.
  - intros e. apply validate_coco_like_Err.
  - intros m -> Hm. simpl. by rewrite Hm.
Qed.

(** X2. [merge_instances] validates the first document, then the second, before
    it reads anything else.  A first document that is not an object with the
    two lists is rejected with a [ValueError] that names it, whatever the
    second document is; otherwise a second document that is not such an
    object is rejected with a [ValueError] that names it. *)
Theorem merge_instances_invalid (a b : json) :
  (¬ (∃ images annotations, dataset a images annotations) →
   ∃ msg, merge_instances a b = Err (Raised ValueError ("First JSON" +:+ msg)))
  ∧ ((∃ images annotations, dataset a images annotations) →
     ¬ (∃ images annotations, dataset b images annotations) →
     ∃ msg, merge_instances a b = Err (Raised ValueError ("Second JSON" +:+ msg))).
Proof.
  unfold merge_instances. split.
  - intros Ha. destruct (validate_coco_like a "First JSON") as [[]|e] eqn:Hva.
    + by apply validate_coco_like_Ok in Hva.
    + apply validate_coco_like_Err in Hva as [msg ->]. by exists msg.
  - intros Ha Hb. apply (validate_coco_like_Ok _ "First JSON") in Ha as ->.
    destruct (validate_coco_like b "Second JSON") as [[]|e] eqn:Hvb.
    + by apply validate_coco_like_Ok in Hvb.
    + apply validate_coco_like_Err in Hvb as [msg ->]. by exists msg.
Qed.

(** ** [get_max_id] *)

Lemma reads_as_inj key z z' item : reads_as key z item → reads_as key z' item → z = z'.
Proof. intros (m & v & -> & Hv & Hz) (m' & v' & [= <-] & Hv' & Hz'). congruence. Qed.

(** What the loop of [get_max_id] meets at one item: a value, an error that
    it skips, or the error that it lets through. *)
Lemma get_max_id_item key item :
  (∃ z, getitem item key ≫= py_int = Ok z ∧ reads_as key z item ∧ ¬ overflows key item)
  ∨ (∃ e, getitem item key ≫= py_int = Err e
          ∧ except [KeyError; TypeError; ValueError] e = true
          ∧ (∀ z, ¬ reads_as key z item) ∧ ¬ overflows key item)
  ∨ (getitem item key ≫= py_int = Err (Builtin OverflowError) ∧ overflows key item).
Proof.
  destruct item as [| | | | | |m].
  1-6: right; left; exists (Builtin TypeError); split_and!; [done | done | |];
       [by intros ? (? & ? & ? & _) | by intros (? & ? & ? & _)].
  simpl. destruct (m !! key) as [v|] eqn:Hv; simpl.
  - destruct (py_int v) as [z|e] eqn:Hz.
    + left. exists z. split_and!; [done | by exists m, v |].
      intros (m' & s & [= <-] & Hs). rewrite Hv in Hs. injection Hs as ->. done.
    + destruct (decide (class_of e ∈ [TypeError; ValueError])) as [Hc|Hc].
      * right; left. exists e. split_and!; [done | | |].
        -- unfold except. rewrite bool_decide_eq_true_2; [done | set_solver].
        -- intros z (m' & v' & [= <-] & Hv' & Hz'). congruence.
        -- intros (m' & s & [= <-] & Hs). rewrite Hv in Hs. injection Hs as ->.
           simpl in Hz. injection Hz as <-. simpl in Hc. set_solver.
      * right; right. destruct (py_int_uncaught _ _ _ Hz Hc) as [-> [s ->]].
        split; [done |]. by exists m, s.
  - right; left. exists (Builtin KeyError). split_and!; [done | done | |].
    + intros z (m' & v' & [= <-] & Hv' & _). congruence.
    + intros (m' & s & [= <-] & Hs). congruence.
Qed.

Lemma get_max_id_loop_outcome key items max_id :
  (Exists (overflows key) items
   ∧ get_max_id_loop max_id items key = Err (Builtin OverflowError))
  ∨ (¬ Exists (overflows key) items
     ∧ ∃ r, get_max_id_loop max_id items key = Ok r ∧ max_id ≤ r
            ∧ (∀ item z, item ∈ items → reads_as key z item → z ≤ r)
            ∧ (r = max_id ∨ ∃ item, item ∈ items ∧ reads_as key r item)).
Proof.
  revert max_id. induction items as [|item items IH]; intros max_id.
  { right. split; [by intros ?%Exists_nil |]. exists max_id. split_and!; [done | lia | | by left].
    by intros item z ?%elem_of_nil. }
  simpl.
  destruct (get_max_id_item key item)
    as [(z & -> & Hz & Hno)|[(e & -> & -> & Hnone & Hno)|[-> Hover]]].
  - destruct (IH (if bool_decide (z > max_id) then z else max_id))
      as [[Hex ->]|(Hnex & r & -> & Hge & Hub & Hwit)].
    { left. split; [by apply Exists_cons_tl | done]. }
    right. split; [by intros [?|?]%Exists_cons |].
    exists r. split_and!; [done | case_bool_decide; lia | |].
    + intros item' z' [->|Hin]%elem_of_cons Hr.
      * rewrite (reads_as_inj _ _ _ _ Hr Hz). case_bool_decide; lia.
      * by eapply Hub.
    + destruct Hwit as [->|(item' & Hin & Hr)].
      * case_bool_decide; [| by left]. right. exists item. split; [set_solver | done].
      * right. exists item'. split; [set_solver | done].
  - destruct (IH max_id) as [[Hex ->]|(Hnex & r & -> & Hge & Hub & Hwit)].
    { left. split; [by apply Exists_cons_tl | done]. }
    right. split; [by intros [?|?]%Exists_cons |].
    exists r. split_and!; [done | done | |].
    + intros item' z' [->|Hin]%elem_of_cons Hr; [by destruct (Hnone z') | by eapply Hub].
    + destruct Hwit as [->|(item' & Hin & Hr)]; [by left |].
      right. exists item'. split; [set_solver | done].
  - left. split; [by apply Exists_cons_hd | done].
Qed.

(** X3. [get_max_id] fails exactly when some item has an infinite float under
    the key, with the [OverflowError] of [int].  Otherwise its result is
    never negative, bounds every value that [int] reads under the key, and is
    [0] or one of these values: the items without the key, and those whose
    value [int] rejects, are passed over. *)
Theorem get_max_id_outcome (items : list json) (key : string) :
  ((∃ e, get_max_id items key = Err e) ↔ Exists (overflows key) items)
  ∧ (∀ e, get_max_id items key = Err e → e = Builtin OverflowError)
  ∧ (∀ r, get_max_id items key = Ok r →
          0 ≤ r
          ∧ (∀ item z, item ∈ items → reads_as key z item → z ≤ r)
          ∧ (r = 0 ∨ ∃ item, item ∈ items ∧ reads_as key r item)).
Proof.
  unfold get_max_id.
  destruct (get_max_id_loop_outcome key items 0)
    as [[Hex ->]|(Hnex & r & -> & Hge & Hub & Hwit)]; split_and!.
  - split; [done | by eexists].
  - by intros e [= <-].
  - done.
  - split; [by intros [e ?] | done].
  - done.
  - by intros r' [= <-].
Qed.

Lemma max_step (value max_id : Z) :
  (if bool_decide (value > max_id) then value else max_id) = Z.max max_id value.
Proof. case_bool_decide; lia. Qed.

Lemma get_max_id_loop_app key xs ys max_id :
  get_max_id_loop max_id (xs ++ ys) key
  = get_max_id_loop max_id xs key ≫= λ r, get_max_id_loop r ys key.
Proof.
  revert max_id. induction xs as [|item xs IH]; intros max_id; [done |].
  simpl. destruct (getitem item key ≫= py_int) as [z|e]; [apply IH |].
  destruct (except _ e); [apply IH | done].
Qed.

Lemma get_max_id_loop_max key items m m' :
  get_max_id_loop (Z.max m m') items key
  = get_max_id_loop m' items key ≫= λ r, Ok (Z.max m r).
Proof.
  revert m'. induction items as [|item items IH]; intros m'; [done |].
  simpl. destruct (getitem item key ≫= py_int) as [z|e].
  - rewrite !max_step, <- Z.max_assoc. apply IH.
  - destruct (except _ e); [apply IH | done].
Qed.

(** X4. The largest id of a concatenation is the larger of the largest ids of
    its two parts, and it fails when one of them does. *)
Theorem get_max_id_app (xs ys : list json) (key : string) :
  get_max_id (xs ++ ys) key
  = r1 ← get_max_id xs key; r2 ← get_max_id ys key; Ok (Z.max r1 r2).
Proof.
  unfold get_max_id.
  rewrite get_max_id_loop_app.
  destruct (get_max_id_loop_outcome key xs 0) as [[_ ->]|(_ & r & -> & Hge & _)]; [done |].
  simpl. rewrite <- (Z.max_l r 0) at 1 by done. apply get_max_id_loop_max.
Qed.

Lemma carries_integer_or_absent key ids items :
  Forall2 (carries key) ids items → Forall (integer_or_absent key) items.
Proof.
  intros H. apply Forall_forall. intros item Hin.
  apply list_elem_of_lookup in Hin as [i Hi].
  destruct (Forall2_lookup_r _ _ _ _ _ H Hi) as (z & _ & m & -> & Hm).
  exists m. split; [done |]. intros v Hv. exists z. congruence.
Qed.

Lemma foldl_max_shift (off a : Z) (ids : list Z) :
  foldl Z.max (a + off) ((λ z, z + off) <$> ids) = foldl Z.max a ids + off.
Proof.
  revert a. induction ids as [|z ids IH]; intros a; [done |].
  simpl. rewrite Z.add_max_distr_r. apply IH.
Qed.

(** X11. The largest image id of a merge is the sum of the largest image ids of
    the two datasets: it is the offset that a further merge would use. *)
Theorem merge_instances_max_image_id a b ia aa ib ab idsA idsB :
  dataset a ia aa → Forall2 (carries "id") idsA ia →
  Forall (integer_or_absent "id") aa →
  second_dataset b ib ab idsB →
  ∃ m images max_a max_b,
    merge_instances a b = Ok (JObj m)
    ∧ m !! "images" = Some (JList images)
    ∧ get_max_id ia "id" = Ok max_a
    ∧ get_max_id ib "id" = Ok max_b
    ∧ get_max_id images "id" = Ok (max_a + max_b).
Proof.
  intros Hda Hia Haa Hb.
  assert (first_dataset a ia aa) as Ha.
  { split_and!; [done | by eapply carries_integer_or_absent | done]. }
  destruct (merge_instances_typed int_of_str a b ia aa ib ab idsB Ha Hb)
    as (ma & off & off_a & -> & Hoff & _ & Hmerge).
  destruct Hb as (_ & Hib & _).
  pose proof (get_max_id_loop_ints int_of_str "id" idsA ia 0 Hia) as HmaxA.
  pose proof (get_max_id_loop_ints int_of_str "id" idsB ib 0 Hib) as HmaxB.
  assert (off = foldl Z.max 0 idsA) as -> by (unfold get_max_id in Hoff; congruence).
  eexists _, _, _, _. split_and!.
  - exact Hmerge.
  - unfold merged_object. by rewrite lookup_insert_eq.
  - exact HmaxA.
  - exact HmaxB.
  - unfold get_max_id.
    rewrite (get_max_id_loop_ints int_of_str "id"
               (idsA ++ ((λ z, z + foldl Z.max 0 idsA) <$> idsB))).
    + rewrite foldl_app.
      rewrite <- (Z.add_0_l (foldl Z.max 0 idsA)) at 1.
      rewrite foldl_max_shift. f_equal. lia.
    + apply Forall2_app; [done |]. apply Forall2_fmap.
      eapply Forall2_impl; [exact Hib |]. intros z image. apply shifted_carries.
Qed.

(** ** Distinct annotation ids *)

Lemma NoDup_app_shift (xs ys : list Z) :
  Forall (λ z, 0 ≤ z) xs → Forall (λ z, 0 ≤ z) ys → NoDup xs → NoDup ys →
  NoDup (xs ++ ((λ z, z + foldl Z.max 0 xs) <$> ys)) ↔ xs = [] ∨ 0 ∉ ys.
Proof.
  intros Hxs Hys Hndx Hndy. rewrite NoDup_app. split.
  - intros (_ & Hdisj & _).
    destruct xs as [|x xs]; [by left |]. right. intros H0.
    set (off := foldl Z.max 0 (x :: xs)) in *.
    assert (off ∈ x :: xs) as Hoff.
    { destruct (foldl_max_elem (x :: xs) 0) as [H|H]; [| done].
      fold off in H.
      pose proof (foldl_max_upper (x :: xs) 0 x ltac:(set_solver)) as Hx. fold off in Hx.
      apply Forall_cons in Hxs as [Hx0 _].
      assert (x = off) as <- by lia. set_solver. }
    apply (Hdisj off Hoff). apply list_elem_of_fmap. exists 0. split; [lia | done].
  - intros Hcond. split_and!; [done | |].
    + intros x Hx [z [-> Hz]]%list_elem_of_fmap.
      destruct Hcond as [->|H0]; [by apply elem_of_nil in Hx |].
      pose proof (foldl_max_upper xs 0 _ Hx).
      pose proof (proj1 (Forall_forall _ _) Hys _ Hz) as Hz0. simpl in Hz0.
      assert (z = 0) as -> by lia. done.
    + apply NoDup_fmap; [| done]. intros x y. lia.
Qed.

(** X10. The annotation ids of the merge of two datasets whose annotations all
    carry a non-negative id, distinct within each dataset: those of the
    first, then those of the second shifted by the largest of the first.
    They are pairwise distinct exactly when the first dataset has no
    annotation or the second has no annotation with id [0]. *)
Theorem merge_instances_annotation_ids a b ia aa ib ab idsB annsA annsB :
  dataset a ia aa → Forall (integer_or_absent "id") ia →
  Forall2 (carries "id") annsA aa →
  second_dataset b ib ab idsB → Forall2 (carries "id") annsB ab →
  Forall (λ z, 0 ≤ z) annsA → Forall (λ z, 0 ≤ z) annsB →
  NoDup annsA → NoDup annsB →
  ∃ m off annotations,
    let ids := annsA ++ ((λ z, z + off) <$> annsB) in
    merge_instances a b = Ok (JObj m)
    ∧ get_max_id aa "id" = Ok off
    ∧ m !! "annotations" = Some (JList annotations)
    ∧ Forall2 (carries "id") ids annotations
    ∧ (NoDup ids ↔ annsA = [] ∨ 0 ∉ annsB).
Proof.
  intros Hda Hia Haa Hb Hab HposA HposB HndA HndB.
  assert (first_dataset a ia aa) as Ha.
  { split_and!; [done | done | by eapply carries_integer_or_absent]. }
  destruct (merge_instances_typed int_of_str a b ia aa ib ab idsB Ha Hb)
    as (ma & off_i & off & -> & _ & Hoff & Hmerge).
  pose proof (get_max_id_loop_ints int_of_str "id" annsA aa 0 Haa) as Hmax.
  assert (off = foldl Z.max 0 annsA) as -> by (unfold get_max_id in Hoff; congruence).
  eexists _, _, _. split_and!.
  - exact Hmerge.
  - exact Hoff.
  - unfold merged_object. by rewrite lookup_insert_ne, lookup_insert_eq.
  - apply Forall2_app; [done |]. apply Forall2_fmap.
    eapply Forall2_impl; [exact Hab |]. intros z ann Hz.
    unfold remapped_annotation. apply shifted_carries. by apply shifted_other.
  - by apply NoDup_app_shift.
Qed.

(** ** An empty first dataset *)

Lemma shifted_zero key item : shifted key 0 item = item.
Proof.
  destruct item as [| | | | | |m]; try done. unfold shifted.
  destruct (m !! key) as [[]|] eqn:Hm; try done.
  by rewrite Z.add_0_r, insert_id.
Qed.

(** X12. Merging into a first dataset without images and annotations: both
    offsets are [0], so that the merge is [build_image_id_mapping] and
    [remap_annotations] with the offset [0] on the second dataset.  When the
    second dataset is well typed (its images carry integer ids, its
    annotations refer to them by integers and have an integer id or none),
    its images and its annotations come out as they are, ids included. *)
Theorem merge_instances_empty_first a b ib ab :
  dataset a [] [] → dataset b ib ab →
  get_max_id [] "id" = Ok 0
  ∧ (∃ ma, a = JObj ma
           ∧ merge_instances a b
             = (built ← build_image_id_mapping ib 0;
                annotations_b ← remap_annotations ab built.2 0;
                Ok (JObj (merged_object ma built.1 annotations_b))))
  ∧ (∀ ids, second_dataset b ib ab ids →
       ∃ m, merge_instances a b = Ok (JObj m)
            ∧ m !! "images" = Some (JList ib)
            ∧ m !! "annotations" = Some (JList ab)).
Proof.
  intros Ha Hdb. split_and!; [done | |].
  - pose proof Ha as (ma & -> & _). exists ma. split; [done |].
    by rewrite (merge_instances_steps int_of_str (JObj ma) b ma [] [] ib ab).
  - intros ids Hb.
    assert (first_dataset a [] []) as Hfirst by (split_and!; [done | constructor..]).
    destruct (merge_instances_typed int_of_str a b [] [] ib ab ids Hfirst Hb)
      as (ma & off_i & off_a & -> & [= <-] & [= <-] & Hmerge).
    eexists. split; [exact Hmerge |].
    assert (shifted "id" 0 <$> ib = ib) as ->.
    { rewrite <- (list_fmap_id ib) at 2. apply list_fmap_ext. intros ???. apply shifted_zero. }
    assert (remapped_annotation 0 0 <$> ab = ab) as ->.
    { rewrite <- (list_fmap_id ab) at 2. apply list_fmap_ext. intros ???.
      unfold remapped_annotation. by rewrite !shifted_zero. }
    unfold merged_object. simpl.
    split; [by rewrite lookup_insert_eq | by rewrite lookup_insert_ne, lookup_insert_eq].
Qed.

(** ** [build_image_id_mapping] *)

(** X5. When [build_image_id_mapping] returns, [int] has read an id on every
    image.  The images come back in the same order with this id plus the
    offset as an integer and every other field as it was; the mapping sends
    each id read to the id plus the offset and holds nothing else, so two
    different old ids never get the same new id. *)
Theorem build_image_id_mapping_Ok (images : list json) (offset : Z)
    (new_images : list json) (mp : gmap Z Z) :
  build_image_id_mapping images offset = Ok (new_images, mp) →
  ∃ ids,
    Forall2 (reads_as "id") ids images
    ∧ new_images = zip_with (with_field "id") ((λ z, z + offset) <$> ids) images
    ∧ length new_images = length images
    ∧ (∀ z, mp !! z = if decide (z ∈ ids) then Some (z + offset) else None)
    ∧ (∀ z1 z2 v, mp !! z1 = Some v → mp !! z2 = Some v → z1 = z2).
Proof.
  intros H.
  assert (∃ ids, Forall2 (reads_as "id") ids images) as [ids Hids].
  { unfold build_image_id_mapping in H.
    rewrite build_image_id_mapping_loop_mapM in H.
    destruct (mapM _ images) as [ps|e] eqn:HmapM; [| done].
    apply mapM_result_Ok in HmapM. exists (ps.*2).
    apply Forall2_fmap_l, Forall2_flip.
    eapply Forall2_impl; [exact HmapM |].
    intros image [new_image z] Hbody. simpl.
    by eapply build_image_id_mapping_body_Ok. }
  exists ids.
  destruct (build_image_id_mapping_reads int_of_str images ids offset Hids)
    as (mp' & Hbuild & Hmp).
  rewrite Hbuild in H. injection H as <- <-.
  split_and!; [done | done | | done |].
  - rewrite length_zip_with, length_fmap.
    apply Forall2_length in Hids. lia.
  - intros z1 z2 v H1 H2. rewrite Hmp in H1, H2.
    destruct (decide (z1 ∈ ids)); [| done]. destruct (decide (z2 ∈ ids)); [| done].
    simplify_eq. lia.
Qed.

(** ** [remap_annotations] *)

Lemma remap_annotations_body_Ok ann mp off ann' :
  remap_annotations_body ann mp off = Ok ann' → remapped_to mp off ann ann'.
Proof.
  unfold remap_annotations_body.
  destruct ann as [| | | |s|l|m]; try done.
  { simpl. by destruct (is_substring _ _). }
  { simpl. by destruct (existsb _ _). }
  simpl. destruct (m !! "image_id") as [v|] eqn:Hv; simpl; [| done].
  destruct (py_int v) as [old|e] eqn:Hold; simpl; [| done].
  destruct (mp !! old) as [new|] eqn:Hnew; [| done]. simpl.
  destruct (m !! "id") as [w|] eqn:Hw; simpl.
  - destruct (py_int w) as [i|e] eqn:Hi; simpl.
    + intros [= <-]. exists m, (<["id" := JInt (i + off)]> (<["image_id" := JInt new]> m)), v, old, new.
      split_and!; try done.
      * by rewrite lookup_insert_ne, lookup_insert_eq.
      * intros k ? ?. by rewrite !lookup_insert_ne.
      * by rewrite lookup_insert_eq, Hw, Hi.
    + destruct (except _ e); [| done].
      intros [= <-]. exists m, (delete "id" (<["image_id" := JInt new]> m)), v, old, new.
      split_and!; try done.
      * by rewrite lookup_delete_ne, lookup_insert_eq.
      * intros k ? ?. by rewrite lookup_delete_ne, lookup_insert_ne.
      * by rewrite lookup_delete_eq, Hw, Hi.
  - intros [= <-]. exists m, (<["image_id" := JInt new]> m), v, old, new.
    split_and!; try done.
    + by rewrite lookup_insert_eq.
    + intros k ? ?. by rewrite lookup_insert_ne.
    + by rewrite lookup_insert_ne, Hw.
Qed.

(** X6. When [remap_annotations] returns, it returns one annotation for each
    annotation given, in the same order.  Each has an image reference taken
    from the mapping, an [id] only where the original had one that [int]
    converts (the id plus the offset), and every other field as it was. *)
Theorem remap_annotations_Ok (annotations : list json) (mp : gmap Z Z) (offset : Z)
    (out : list json) :
  remap_annotations annotations mp offset = Ok out →
  Forall2 (remapped_to mp offset) annotations out ∧ length out = length annotations.
Proof.
  unfold remap_annotations. rewrite remap_annotations_loop_mapM.
  destruct (mapM _ annotations) as [new|e] eqn:HmapM; [| done].
  intros [= <-]. apply mapM_result_Ok in HmapM.
  assert (Forall2 (remapped_to mp offset) annotations new) as H.
  { eapply Forall2_impl; [exact HmapM |]. intros ann ann'. apply remap_annotations_body_Ok. }
  split; [done |]. symmetry. by eapply Forall2_length.
Qed.

(** ** The fields of the merged document *)

(** X8. The document that [merge_instances] returns has the keys of the first
    document and no other, and under every key but [images] and
    [annotations] the value of the first document.  Of the second document
    only [images] and [annotations] are read: another second document with
    the same two fields gives the same result. *)
Theorem merge_instances_fields (a b r : json) :
  merge_instances a b = Ok r →
  ∃ ma m,
    a = JObj ma ∧ r = JObj m
    ∧ dom m = dom ma
    ∧ (∀ k, k ≠ "images" → k ≠ "annotations" → m !! k = ma !! k)
    ∧ (∀ b', getitem b' "images" = getitem b "images" →
             getitem b' "annotations" = getitem b "annotations" →
             merge_instances a b' = Ok r).
Proof.
  intros H.
  pose proof H as Hok.
  apply merge_instances_Ok in H
    as (ma & ia & aa & ib & ab & mi & mn & images_b & mp & annotations_b
        & -> & Ha & Hb & Hmi & Hmn & Hbuild & Hremap & ->).
  eexists _, _. split_and!; [done | done | | |].
  - destruct Ha as (ma' & [= <-] & Hi & Hn). unfold merged_object.
    rewrite !dom_insert_L.
    apply elem_of_dom_2 in Hi. apply elem_of_dom_2 in Hn. set_solver.
  - intros k ? ?. unfold merged_object. by rewrite !lookup_insert_ne.
  - intros b' Hi Hn. apply merge_instances_Ok.
    exists ma, ia, aa, ib, ab, mi, mn, images_b, mp, annotations_b.
    split_and!; try done.
    destruct Hb as (mb & -> & Hbi & Hbn). simpl in Hi, Hn. rewrite Hbi in Hi. rewrite Hbn in Hn.
    destruct b' as [| | | | | |mb']; try done. simpl in Hi, Hn.
    exists mb'. split; [done |].
    destruct (mb' !! "images"); [| done]. destruct (mb' !! "annotations"); [| done].
    by simplify_eq.
Qed.

(** ** [main] *)

Section MainFacts.

(** [x != y] on two values of the documents. *)
Variable py_ne : json → json → bool.

Abbreviation main := (main int_of_str py_ne).

Lemma merge_instances_lists a b merged :
  merge_instances a b = Ok merged →
  ∃ images annotations,
    py_get merged "images" (JList []) = Ok (JList images)
    ∧ py_get merged "annotations" (JList []) = Ok (JList annotations).
Proof.
  intros H. apply merge_instances_Ok in H
    as (ma & ia & aa & ib & ab & mi & mn & images_b & mp & annotations_b
        & _ & _ & _ & _ & _ & _ & _ & ->).
  eexists _, _. unfold merged_object. simpl.
  by rewrite lookup_insert_eq, lookup_insert_ne, lookup_insert_eq.
Qed.

Lemma writes_merge_instances_warning a b : writes (merge_instances_warning py_ne a b) = [].
Proof.
  unfold merge_instances_warning.
  destruct a as [| | | | | |ma], b as [| | | | | |mb]; try done.
  destruct (ma !! "categories"), (mb !! "categories"); try done.
  by destruct (py_ne _ _).
Qed.

(** X13. What [main] returns and does.  The exit code is [2] exactly when an
    input file is missing, and [0] exactly when both files exist and load,
    the merge succeeds and the output is written.  [write_json] is called at
    most once, with the merge of the two loaded documents and the output
    path; when it is not called, either an input is missing or [main] ends
    with an exception without having printed anything. *)
Theorem main_outcome (args : merge_args) (env : merge_env) (r : result Z)
    (effs : list effect) :
  main args env = (r, effs) →
  (r = Ok 2 ↔ exists_a env && exists_b env = false)
  ∧ (r = Ok 0
     ↔ exists_a env && exists_b env = true
       ∧ ∃ a b merged, load_a env = Ok a ∧ load_b env = Ok b
                       ∧ merge_instances a b = Ok merged
                       ∧ write_json_result env = Ok ())
  ∧ ((writes effs = [] ∧ (r = Ok 2 ∨ ∃ e, r = Err e ∧ effs = []))
     ∨ (∃ a b merged, exists_a env && exists_b env = true
                      ∧ load_a env = Ok a ∧ load_b env = Ok b
                      ∧ merge_instances a b = Ok merged
                      ∧ writes effs = [(merged, output args)])).
Proof.
  unfold main.
  destruct (exists_a env); simpl.
  2: { intros [= <- <-]. split_and!; [done | | left; split; [done | by left]].
       split; [done | by intros [? _]]. }
  destruct (exists_b env); simpl.
  2: { intros [= <- <-]. split_and!; [done | | left; split; [done | by left]].
       split; [done | by intros [? _]]. }
  destruct (load_a env) as [a|e].
  2: { intros [= <- <-]. split_and!; [done | | left; split; [done | right; by eexists]].
       split; [done | by intros (_ & ? & ? & ? & ? & _)]. }
  destruct (load_b env) as [b|e].
  2: { intros [= <- <-]. split_and!; [done | | left; split; [done | right; by eexists]].
       split; [done | by intros (_ & ? & ? & ? & _ & ? & _)]. }
  destruct (merge_instances a b) as [merged|e] eqn:Hmerge.
  2: { intros [= <- <-]. split_and!; [done | | left; split; [done | right; by eexists]].
       split; [done |]. intros (_ & ? & ? & ? & [= <-] & [= <-] & ? & _). congruence. }
  destruct (merge_instances_lists _ _ _ Hmerge) as (images & annotations & -> & ->).
  assert (∀ rest, writes rest = [] →
            writes ((merge_instances_warning py_ne a b ++ [WriteJson merged (output args)])
                    ++ rest) = [(merged, output args)]) as Hwrites.
  { intros rest Hrest. unfold writes in *. rewrite !omap_app.
    fold (writes (merge_instances_warning py_ne a b)).
    rewrite writes_merge_instances_warning, Hrest. done. }
  destruct (write_json_result env) as [[]|e]; simpl.
  - intros [= <- <-]. split_and!; [done | |].
    + split; [| done]. intros _. split; [done |]. by exists a, b, merged.
    + right. exists a, b, merged. split_and!; try done. by apply Hwrites.
  - intros [= <- <-]. split_and!; [done | |].
    + split; [done | by intros (_ & ? & ? & ? & _ & _ & _ & ?)].
    + right. exists a, b, merged. split_and!; try done.
      rewrite <- (app_nil_r (_ ++ [WriteJson _ _])). by apply Hwrites.
Qed.

End MainFacts.


End MergeMore.

(** ** The statements on examples *)

Example get_max_id_mixed : get_max_id decimal_int items_mixed "id" = Ok 7.
Proof. reflexivity. Qed.

Lemma merge_instances_max_image_id_witness :
  ∃ m images max_a max_b,
    merge_instances decimal_int dataset_a dataset_b = Ok (JObj m)
    ∧ m !! "images" = Some (JList images)
    ∧ get_max_id decimal_int [image_1; image_2] "id" = Ok max_a
    ∧ get_max_id decimal_int [image_1] "id" = Ok max_b
    ∧ get_max_id decimal_int images "id" = Ok (max_a + max_b).
Proof.
  apply (merge_instances_max_image_id decimal_int dataset_a dataset_b
           [image_1; image_2] [annotation_1_on_2]
           [image_1] [annotation_1_on_1; annotation_on_1] [1; 2] [1]);
    solve_record.
Defined.

Lemma build_image_id_mapping_Ok_witness :
  ∃ ids,
    Forall2 (reads_as decimal_int "id") ids [image_1; image_2]
    ∧ [obj [("id", JInt 6); ("file_name", JStr "a.jpg")];
       obj [("id", JInt 7); ("file_name", JStr "b.jpg")]]
      = zip_with (with_field "id") ((λ z, z + 5) <$> ids) [image_1; image_2]
    ∧ length [obj [("id", JInt 6); ("file_name", JStr "a.jpg")];
              obj [("id", JInt 7); ("file_name", JStr "b.jpg")]]
      = length [image_1; image_2]
    ∧ (∀ z, ({[1 := 6; 2 := 7]} : gmap Z Z) !! z
            = if decide (z ∈ ids) then Some (z + 5) else None)
    ∧ (∀ z1 z2 v, ({[1 := 6; 2 := 7]} : gmap Z Z) !! z1 = Some v →
                  ({[1 := 6; 2 := 7]} : gmap Z Z) !! z2 = Some v → z1 = z2).
Proof.
  apply (build_image_id_mapping_Ok decimal_int [image_1; image_2] 5). reflexivity.
Defined.

Lemma remap_annotations_Ok_witness :
  Forall2 (remapped_to decimal_int {[1 := 6]} 10)
    [annotation_1_on_1; obj [("id", JStr "n/a"); ("image_id", JStr "1")]]
    [obj [("id", JInt 11); ("image_id", JInt 6); ("category_id", JInt 1)];
     obj [("image_id", JInt 6)]]
  ∧ length [obj [("id", JInt 11); ("image_id", JInt 6); ("category_id", JInt 1)];
            obj [("image_id", JInt 6)]]
    = length [annotation_1_on_1; obj [("id", JStr "n/a"); ("image_id", JStr "1")]].
Proof.
  apply (remap_annotations_Ok decimal_int
           [annotation_1_on_1; obj [("id", JStr "n/a"); ("image_id", JStr "1")]]
           {[1 := 6]} 10).
  reflexivity.
Defined.

Lemma merge_instances_fields_witness :
  ∃ ma m,
    dataset_a = JObj ma ∧ dataset_a_b = JObj m
    ∧ dom m = dom ma
    ∧ (∀ k, k ≠ "images" → k ≠ "annotations" → m !! k = ma !! k)
    ∧ (∀ b', getitem b' "images" = getitem dataset_b "images" →
             getitem b' "annotations" = getitem dataset_b "annotations" →
             merge_instances decimal_int dataset_a b' = Ok dataset_a_b).
Proof.
  apply (merge_instances_fields decimal_int dataset_a dataset_b dataset_a_b).
  vm_compute. reflexivity.
Defined.

Lemma main_outcome_witness :
  let effs := [WriteJson dataset_a_b "out/merged.json";
               Stdout "Merged: images=3, annotations=3 -> out/merged.json"] in
  main decimal_int (λ _ _, true) example_args example_env = (Ok 0, effs)
  ∧ (exists_a example_env && exists_b example_env = true
     ∧ ∃ a b merged, load_a example_env = Ok a ∧ load_b example_env = Ok b
                     ∧ merge_instances decimal_int a b = Ok merged
                     ∧ write_json_result example_env = Ok ()).
Proof.
  assert (main decimal_int (λ _ _, true) example_args example_env
          = (Ok 0, [WriteJson dataset_a_b "out/merged.json";
                    Stdout "Merged: images=3, annotations=3 -> out/merged.json"])) as H
    by (vm_compute; reflexivity).
  split; [exact H |].
  by apply (proj1 (proj1 (proj2 (main_outcome decimal_int (λ _ _, true) _ _ _ _ H)))).
Defined.

Lemma merge_instances_annotation_ids_witness :
  ∃ m off annotations,
    let ids := [1] ++ ((λ z, z + off) <$> [1]) in
    merge_instances decimal_int dataset_a dataset_c = Ok (JObj m)
    ∧ get_max_id decimal_int [annotation_1_on_2] "id" = Ok off
    ∧ m !! "annotations" = Some (JList annotations)
    ∧ Forall2 (carries "id") ids annotations
    ∧ (NoDup ids ↔ [1] = [] ∨ 0 ∉ [1]).
Proof.
  apply (merge_instances_annotation_ids decimal_int dataset_a dataset_c
           [image_1; image_2] [annotation_1_on_2] [image_1] [annotation_1_on_1] [1] [1] [1]);
    solve_record; apply NoDup_singleton.
Defined.

Lemma merge_instances_empty_first_witness :
  ∃ m, merge_instances decimal_int dataset_empty dataset_b = Ok (JObj m)
       ∧ m !! "images" = Some (JList [image_1])
       ∧ m !! "annotations" = Some (JList [annotation_1_on_1; annotation_on_1]).
Proof.
  apply (merge_instances_empty_first decimal_int dataset_empty dataset_b
           [image_1] [annotation_1_on_1; annotation_on_1]) with (ids := [1]);
    solve_record.
Defined.

(** * Properties of the mask script *)

(** ** The label of an instance mask *)

(** X23. The label of an annotation, tier by tier.  A field counts as
    missing when it is absent or [None].  The label is [id] when it is a
    value that Python counts as true; else [instance_id] when it is such a
    value; else [annId], the last operand of the [or] chain, when it is not
    missing, whatever its truth value; else the value under [category_id]
    when the key is there, and [0] when it is not. *)
Theorem instance_label_tiers (m : gmap string json) :
  let field key := default JNull (m !! key) in
  instance_label (JObj m)
  = Ok (if truthy (field "id") then field "id"
        else if truthy (field "instance_id") then field "instance_id"
        else if negb (is_none (field "annId")) then field "annId"
        else default (JInt 0) (m !! "category_id")).
Proof.
  intros field. unfold instance_label, py_get, field.
  cbn [mbind result_bind].
  destruct (truthy (default JNull (m !! "id"))) eqn:Hid.
  { cbn [mbind result_bind]. by destruct (default JNull (m !! "id")). }
  cbn [mbind result_bind].
  destruct (truthy (default JNull (m !! "instance_id"))) eqn:Hinst.
  { cbn [mbind result_bind]. by destruct (default JNull (m !! "instance_id")). }
  cbn [mbind result_bind].
  by destruct (default JNull (m !! "annId")).
Qed.

(** X24. A field that is present with a value that Python counts as false is
    passed over like an absent one. *)
Lemma instance_label_falsy_id (m : gmap string json) (v : json) :
  m !! "id" = Some v → truthy v = false →
  instance_label (JObj m) = instance_label (JObj (delete "id" m)).
Proof.
  intros Hv Hf. unfold instance_label; simpl.
  rewrite Hv, lookup_delete_eq, !lookup_delete_ne by done. simpl. by rewrite Hf.
Qed.

(** C8 at an annotation whose own id is [0]: the label is the category id. *)
Theorem instance_label_id_zero : instance_label annotation_id_zero = Ok (JInt 7).
Proof. reflexivity. Qed.

Section CodecFacts.

Context {rle : Type}.
Variable frList : list json → Z → Z → result (list rle).
Variable frObject : list json → Z → Z → result rle.
Variable frDict : gmap string json → Z → Z → result rle.
Variable rleFrString : string → Z → Z → rle.
Variable rleMerge : list rle → rle.
Variable rleDecode : rle → mask Z.
Variable rleDecodes : list rle → list (mask Z).

Abbreviation frPyObjects := (frPyObjects rle frList frObject frDict).
Abbreviation frString := (frString rle rleFrString).
Abbreviation merge := (merge rle rleFrString rleMerge).
Abbreviation decode := (decode rle rleFrString rleDecode rleDecodes).
Abbreviation encode_segmentation := (encode_segmentation rle frList frObject frDict).
Abbreviation ann_to_mask_loop := (ann_to_mask_loop rle frList frObject frDict).
Abbreviation ann_to_mask :=
  (ann_to_mask rle frList frObject frDict rleFrString rleMerge rleDecode rleDecodes).
Abbreviation save_instance_masks_loop :=
  (save_instance_masks_loop rle frList frObject frDict rleFrString rleDecode rleDecodes).

(** ** The union mask *)

Lemma ann_to_mask_empty h w : ann_to_mask h w [] = zeros h w.
Proof. done. Qed.

Lemma ann_to_mask_loop_cons h w ann anns acc :
  ann_to_mask_loop h w (ann :: anns) acc =
  segm ← py_get ann "segmentation" JNull;
  match segm with
  | JNull => ann_to_mask_loop h w anns acc
  | _ =>
      rles ← try_except
               (rle ← encode_segmentation segm h w; Ok (acc ++ [rle]))
               [Exception]
               (Ok acc);
      ann_to_mask_loop h w anns rles
  end.
Proof. done. Qed.

(** One turn of the loop: the annotation is passed over, or the encoding of
    its segmentation is appended. *)
Lemma ann_to_mask_loop_step h w ann anns acc rles :
  ann_to_mask_loop h w (ann :: anns) acc = Ok rles →
  ∃ m, ann = JObj m
       ∧ (ann_to_mask_loop h w anns acc = Ok rles
          ∨ ∃ segm v, m !! "segmentation" = Some segm
                      ∧ encode_segmentation segm h w = Ok v
                      ∧ ann_to_mask_loop h w anns (acc ++ [v]) = Ok rles).
Proof.
  simpl. destruct ann as [| | | | | |m]; try done. simpl. intros H. exists m. split; [done |].
  destruct (m !! "segmentation") as [segm|] eqn:Hsegm; simpl in H; [| by left].
  assert (try_except (encode_segmentation segm h w ≫= λ rle0, Ok (acc ++ [rle0]))
            [Exception] (Ok acc)
          ≫= (λ rles', ann_to_mask_loop h w anns rles') = Ok rles
          → ann_to_mask_loop h w anns acc = Ok rles
            ∨ ∃ v, encode_segmentation segm h w = Ok v
                   ∧ ann_to_mask_loop h w anns (acc ++ [v]) = Ok rles) as Hstep.
  { destruct (encode_segmentation segm h w) as [v|e]; simpl; [right; by exists v |].
    destruct (except [Exception] e); simpl; [by left | done]. }
  destruct segm; try (by left);
    (destruct (Hstep H) as [?|(v & ? & ?)]; [by left | right; by eexists _, v]).
Qed.

(** The values collected by the loop: those given, then those of the
    annotations whose segmentation is encoded without an exception. *)
Lemma ann_to_mask_loop_keeps h w anns acc rles :
  ann_to_mask_loop h w anns acc = Ok rles → ∃ new, rles = acc ++ new.
Proof.
  revert acc. induction anns as [|ann anns IH]; intros acc.
  - intros [= <-]. exists []. by rewrite app_nil_r.
  - intros (m & _ & [H|(segm & v & _ & _ & H)])%ann_to_mask_loop_step.
    + by apply IH.
    + apply IH in H as [new ->]. exists ([v] ++ new). by rewrite app_assoc.
Qed.

Lemma ann_to_mask_loop_encoded h w anns acc rles m segm v :
  Exists (λ ann, ann = JObj m) anns →
  m !! "segmentation" = Some segm → segm ≠ JNull →
  encode_segmentation segm h w = Ok v →
  ann_to_mask_loop h w anns acc = Ok rles → v ∈ rles.
Proof.
  intros Hex Hsegm Hnull Henc. revert acc.
  induction Hex as [ann anns ->|ann anns _ IH]; intros acc.
  - rewrite ann_to_mask_loop_cons. unfold py_get. rewrite Hsegm.
    cbn [mbind result_bind default id]. rewrite Henc. simpl.
    assert (ann_to_mask_loop h w anns (acc ++ [v]) = Ok rles → v ∈ rles) as Hnext.
    { intros [new ->]%ann_to_mask_loop_keeps. set_solver. }
    by destruct segm.
  - intros (m' & _ & [H|(segm' & v' & _ & _ & H)])%ann_to_mask_loop_step; by eapply IH.
Qed.

(** [ann_to_mask] returns no mask when the encoding kept for one of the
    annotations is a value that [merge] does not read. *)
Lemma ann_to_mask_unmergeable h w anns m segm v :
  Exists (λ ann, ann = JObj m) anns →
  m !! "segmentation" = Some segm → segm ≠ JNull →
  encode_segmentation segm h w = Ok v →
  is_ok (frString v) = false →
  is_ok (ann_to_mask h w anns) = false.
Proof.
  intros Hex Hsegm Hnull Henc Hv. unfold ann_to_mask.
  case_bool_decide as Hlen; [apply length_zero_iff_nil in Hlen as ->; by inversion Hex |].
  destruct (ann_to_mask_loop h w anns []) as [rles|] eqn:Hloop; simpl; [| done].
  pose proof (ann_to_mask_loop_encoded _ _ _ _ _ _ _ _ Hex Hsegm Hnull Henc Hloop) as Hin.
  case_bool_decide as Hlen'; [apply length_zero_iff_nil in Hlen' as ->; by inversion Hin |].
  unfold merge. destruct (mapM frString rles) as [rs|] eqn:Hrs; simpl; [| done].
  apply mapM_result_Ok in Hrs. apply list_elem_of_lookup in Hin as [i Hi].
  destruct (Forall2_lookup_l _ _ _ _ _ Hrs Hi) as (r & _ & Hr).
  by rewrite Hr in Hv.
Qed.

(** X19. A segmentation given as a list of objects, that is a list whose
    first element has four entries or more (polygons, boxes): when the codec
    encodes it, the list of encodings is kept as one element of [rles], and
    [merge] raises on it. *)
Theorem ann_to_mask_list_segmentation h w anns m first rest n rs :
  Exists (λ ann, ann = JObj m) anns →
  m !! "segmentation" = Some (JList (first :: rest)) →
  py_len first = Ok n → (4 ≤ n)%nat →
  frList (first :: rest) h w = Ok rs →
  is_ok (ann_to_mask h w anns) = false.
Proof.
  intros Hex Hsegm Hlen Hn Hrs.
  eapply (ann_to_mask_unmergeable h w anns m (JList (first :: rest)) (PRles rs)); try done.
  simpl. rewrite Hlen. simpl.
  assert (bool_decide (n = 4%nat) || bool_decide (4 < n)%nat = true) as ->.
  { destruct (decide (n = 4%nat)) as [->|]; [done |].
    rewrite (bool_decide_eq_true_2 (4 < n)%nat) by lia. apply orb_true_r. }
  by rewrite Hrs.
Qed.

(** X20. A segmentation given as an object without [counts] is not skipped: it is
    kept as it is, and [merge] raises on it. *)
Theorem ann_to_mask_malformed_object h w anns m ms :
  Exists (λ ann, ann = JObj m) anns →
  m !! "segmentation" = Some (JObj ms) → ms !! "counts" = None →
  is_ok (ann_to_mask h w anns) = false.
Proof.
  intros Hex Hsegm Hcounts.
  eapply (ann_to_mask_unmergeable h w anns m (JObj ms) (PJson (JObj ms))); try done.
  - simpl. by rewrite Hcounts.
  - simpl. by rewrite Hcounts.
Qed.

(** C7 at the square polygon on a 2 by 2 image: [ann_to_mask] raises
    [TypeError] when the codec encodes the polygon, and otherwise returns the
    empty mask; in no case the mask of the polygon. *)
Theorem ann_to_mask_polygon :
  ann_to_mask 2 2 [polygon_annotation]
  = match frList [JList [JInt 0; JInt 0; JInt 0; JInt 2; JInt 2; JInt 2; JInt 2; JInt 0]] 2 2 with
    | Ok _ => Err (Builtin TypeError)
    | Err _ => Ok [[0; 0]; [0; 0]]
    end.
Proof.
  unfold ann_to_mask. rewrite bool_decide_eq_false_2 by done.
  rewrite ann_to_mask_loop_cons.
  assert (py_get polygon_annotation "segmentation" JNull
          = Ok (JList [JList [JInt 0; JInt 0; JInt 0; JInt 2; JInt 2; JInt 2; JInt 2; JInt 0]]))
    as -> by reflexivity.
  simpl. destruct (frList _ 2 2) as [rs|e]; simpl; [done |].
  unfold except; simpl. by destruct e as [[]|[]].
Qed.

(** The same annotation in [save_instance_masks]: the polygons are decoded
    and their masks united. *)
Lemma save_instance_masks_polygon rs :
  frList [JList [JInt 0; JInt 0; JInt 0; JInt 2; JInt 2; JInt 2; JInt 2; JInt 0]] 2 2 = Ok rs →
  save_instance_masks_loop 2 2 [polygon_annotation] []
  = Ok [(JInt 1, times_255 (any_axis2 (nonzero <$> rleDecodes rs)))].
Proof.
  intros Hrs. unfold save_instance_masks_loop.
  assert (py_get polygon_annotation "segmentation" JNull
          = Ok (JList [JList [JInt 0; JInt 0; JInt 0; JInt 2; JInt 2; JInt 2; JInt 2; JInt 0]]))
    as -> by reflexivity.
  simpl. rewrite Hrs; simpl.
  by assert (instance_label polygon_annotation = Ok (JInt 1)) as -> by reflexivity.
Qed.

(** C7 at an annotation whose segmentation lacks [counts]: [KeyError]. *)
Example ann_to_mask_malformed :
  ann_to_mask 2 2 [malformed_annotation] = Err (Builtin KeyError).
Proof. reflexivity. Qed.

(** When no segmentation is encoded, the mask is all background. *)
Lemma ann_to_mask_nothing_encoded h w anns :
  ann_to_mask_loop h w anns [] = Ok [] → ann_to_mask h w anns = zeros h w.
Proof.
  intros Hloop. unfold ann_to_mask. case_bool_decide; [done |].
  by rewrite Hloop.
Qed.

(** When the encodings kept are all read by [merge], the mask is the one
    that the codec decodes from their merge. *)
Lemma ann_to_mask_merged h w anns rles rs :
  ann_to_mask_loop h w anns [] = Ok rles → rles ≠ [] →
  mapM frString rles = Ok rs →
  ann_to_mask h w anns = Ok (scale_255 (rleDecode (rleMerge rs))).
Proof.
  intros Hloop Hne Hrs. unfold ann_to_mask.
  case_bool_decide as Hlen.
  { apply length_zero_iff_nil in Hlen as ->. simpl in Hloop. congruence. }
  rewrite Hloop; simpl.
  case_bool_decide as Hlen'; [by apply length_zero_iff_nil in Hlen' |].
  unfold merge. by rewrite Hrs.
Qed.


Lemma scale_255_two_levels (m : mask Z) : two_levels (scale_255 m) ↔ bitmap m.
Proof.
  unfold two_levels, bitmap, scale_255. rewrite Forall_fmap.
  apply Forall_proper; [| done]. intros row. simpl. rewrite Forall_fmap.
  apply Forall_proper; [| done]. intros b. simpl.
  pose proof (Z.mod_pos_bound b 256 ltac:(lia)) as Hb.
  rewrite <- (Z.mul_mod_idemp_l b 255 256) by lia.
  set (c := b `mod` 256) in *.
  assert (c * 255 = (256 - c) + (c - 1) * 256) as -> by lia.
  rewrite Z.mod_add by lia.
  destruct (decide (c = 0)) as [->|Hc].
  - rewrite Z.mod_same by lia. tauto.
  - rewrite Z.mod_small by lia. lia.
Qed.


End CodecFacts.

(** * More of convert_coco_to_masks.py *)

(** ** The size of an image *)

Section ImageSizeFacts.

Variable int_of_str : string → option Z.

Lemma given_is_none m key :
  given m key ↔ is_none (default JNull (m !! key)) = false.
Proof.
  unfold given. destruct (m !! key) as [v|]; simpl.
  - split.
    + intros (v' & [= <-] & Hv). by destruct v.
    + intros Hv. exists v. split; [done |]. by intros ->.
  - split; [by intros (? & ? & _) | done].
Qed.

(** X17. [load_image_size] returns the height and the width written in the
    entry, converted by [int], when both are there and not [None]: the image
    file is then not opened, whatever the entry says of it, and a zero or
    negative size is returned as it is written.  Otherwise the size comes
    from the image file, as (height, width) for the (width, height) that the
    file gives, and an entry without [file_name] is rejected. *)
Theorem load_image_size_outcome (image_size : json → result (Z * Z))
    (m : gmap string json) :
  (given m "height" → given m "width" →
   ∀ hv wv, m !! "height" = Some hv → m !! "width" = Some wv →
     load_image_size int_of_str image_size (JObj m)
     = (h ← py_int int_of_str hv; w ← py_int int_of_str wv; Ok (h, w)))
  ∧ (¬ (given m "height" ∧ given m "width") → ¬ given m "file_name" →
     load_image_size int_of_str image_size (JObj m) = Err missing_size)
  ∧ (¬ (given m "height" ∧ given m "width") →
     ∀ file_path, m !! "file_name" = Some file_path → file_path ≠ JNull →
       load_image_size int_of_str image_size (JObj m)
       = match image_size file_path with
         | Ok (w, h) => Ok (h, w)
         | Err e => Err e
         end).
Proof.
  unfold load_image_size. simpl. split_and!.
  - intros Hh%given_is_none Hw%given_is_none hv wv Hhv Hwv.
    rewrite Hh, Hw. simpl. by rewrite Hhv, Hwv.
  - intros Hsize Hfile.
    destruct (is_none (default JNull (m !! "height"))) eqn:Hh;
      destruct (is_none (default JNull (m !! "width"))) eqn:Hw; simpl.
    4: { exfalso. apply Hsize. by rewrite !given_is_none. }
    all: destruct (is_none (default JNull (m !! "file_name"))) eqn:Hf; [done |];
      exfalso; apply Hfile; by rewrite given_is_none.
  - intros Hsize file_path Hfile Hnone.
    destruct (is_none (default JNull (m !! "height"))) eqn:Hh;
      destruct (is_none (default JNull (m !! "width"))) eqn:Hw; simpl.
    4: { exfalso. apply Hsize. by rewrite !given_is_none. }
    all: rewrite Hfile; simpl;
      destruct file_path; try done; simpl; by destruct (image_size _) as [[]|].
Qed.

End ImageSizeFacts.

Section CodecMore.

Context {rle : Type}.
Variable frList : list json → Z → Z → result (list rle).
Variable frObject : list json → Z → Z → result rle.
Variable frDict : gmap string json → Z → Z → result rle.
Variable rleFrString : string → Z → Z → rle.
Variable rleMerge : list rle → rle.
Variable rleDecode : rle → mask Z.
Variable rleDecodes : list rle → list (mask Z).

Abbreviation frString := (frString rle rleFrString).
Abbreviation merge := (merge rle rleFrString rleMerge).
Abbreviation decode := (decode rle rleFrString rleDecode rleDecodes).
Abbreviation encode_segmentation := (encode_segmentation rle frList frObject frDict).
Abbreviation ann_to_mask_loop := (ann_to_mask_loop rle frList frObject frDict).
Abbreviation ann_to_mask :=
  (ann_to_mask rle frList frObject frDict rleFrString rleMerge rleDecode rleDecodes).
Abbreviation save_instance_masks_loop :=
  (save_instance_masks_loop rle frList frObject frDict rleFrString rleDecode rleDecodes).

(** ** The union mask *)

Abbreviation skipped := (skipped frList frObject frDict).
Abbreviation treated := (treated frList frObject frDict).
Abbreviation encoding_of := (encoding_of rleFrString).

Lemma try_except_Exception {A} (body handler : result A) :
  try_except body [Exception] handler
  = match body with Ok a => Ok a | Err _ => handler end.
Proof.
  destruct body as [a|e]; [done |]. unfold try_except, except.
  rewrite (bool_decide_eq_true_2 (Exception ∈ [Exception])) by set_solver.
  by rewrite orb_true_r.
Qed.

Lemma ann_to_mask_loop_skipped h w ann anns acc :
  skipped h w ann → ann_to_mask_loop h w (ann :: anns) acc = ann_to_mask_loop h w anns acc.
Proof.
  intros [(m & -> & [Hm|Hm])|(m & segm & -> & Hm & Herr)];
    rewrite ann_to_mask_loop_cons; unfold py_get; rewrite Hm;
    cbn [mbind result_bind default id]; try done.
  rewrite try_except_Exception.
  apply is_ok_false in Herr as [e ->]. by destruct segm.
Qed.

Lemma compressed_encoded h w s hh ww ann :
  compressed s hh ww ann →
  ∃ m segm, ann = JObj m ∧ m !! "segmentation" = Some segm
            ∧ encode_segmentation segm h w = Ok (PJson segm)
            ∧ frString (PJson segm) = Ok (rleFrString s hh ww).
Proof.
  intros (m & ms & -> & Hm & Hcounts & Hsize & Hh & Hw).
  exists m, (JObj ms). split_and!; [done | done | |].
  - simpl. by rewrite Hcounts.
  - simpl. rewrite Hcounts, Hsize. simpl.
    by rewrite !bool_decide_eq_true_2 by done.
Qed.

(** One turn of the loop on an annotation whose segmentation is encoded:
    the encoding is appended. *)
Lemma ann_to_mask_loop_kept h w (m : gmap string json) segm v anns acc :
  m !! "segmentation" = Some segm → encode_segmentation segm h w = Ok v →
  ann_to_mask_loop h w (JObj m :: anns) acc = ann_to_mask_loop h w anns (acc ++ [v]).
Proof.
  intros Hm Henc. rewrite ann_to_mask_loop_cons. unfold py_get. rewrite Hm.
  cbn [mbind result_bind default id]. rewrite Henc.
  by destruct segm.
Qed.

Lemma ann_to_mask_loop_treated h w anns ts : ∀ acc,
  Forall2 (treated h w) ts anns →
  ∃ kept,
    ann_to_mask_loop h w anns acc = Ok (acc ++ kept)
    ∧ mapM frString kept = Ok (omap encoding_of ts).
Proof.
  intros acc H. revert acc.
  induction H as [|t ann ts anns Ht _ IH]; intros acc.
  { exists []. split; [by rewrite app_nil_r | done]. }
  destruct t as [|s hh ww|r]; simpl in Ht.
  - rewrite ann_to_mask_loop_skipped by done. apply IH.
  - destruct (compressed_encoded h w s hh ww ann Ht) as (m & segm & -> & Hm & Henc & Hfr).
    rewrite (ann_to_mask_loop_kept h w m segm _ anns acc Hm Henc).
    destruct (IH (acc ++ [PJson segm])) as (kept & -> & Hkept).
    exists (PJson segm :: kept). split; [by rewrite <- app_assoc |].
    rewrite mapM_result_cons, Hfr, Hkept. done.
  - destruct Ht as (m & segm & -> & Hm & Henc).
    rewrite (ann_to_mask_loop_kept h w m segm _ anns acc Hm Henc).
    destruct (IH (acc ++ [PRle r])) as (kept & -> & Hkept).
    exists (PRle r :: kept). split; [by rewrite <- app_assoc |].
    rewrite mapM_result_cons, Hkept. done.
Qed.


(** ** The masks of the instances *)

Lemma save_instance_masks_loop_cons h w ann anns saved :
  save_instance_masks_loop h w (ann :: anns) saved =
  segm ← py_get ann "segmentation" JNull;
  match segm with
  | JNull => save_instance_masks_loop h w anns saved
  | _ =>
      match
        try_except
          (enc ← encode_segmentation segm h w;
           m ← decode enc;
           Ok (Some (flatten_mask m)))
          [Exception]
          (Ok None)
      with
      | Ok (Some mask) =>
          inst_id ← instance_label ann;
          save_instance_masks_loop h w anns (saved ++ [(inst_id, mask)])
      | Ok None => save_instance_masks_loop h w anns saved
      | Err e => Err e
      end
  end.
Proof. done. Qed.

Lemma instance_label_object (m : gmap string json) :
  ∃ label, instance_label (JObj m) = Ok label.
Proof.
  unfold instance_label. simpl.
  destruct (truthy (default JNull (m !! "id"))).
  { simpl. destruct (default JNull (m !! "id")); by eexists. }
  simpl. destruct (truthy (default JNull (m !! "instance_id"))).
  { simpl. destruct (default JNull (m !! "instance_id")); by eexists. }
  simpl. destruct (default JNull (m !! "annId")); by eexists.
Qed.

(** One turn of the loop of [save_instance_masks] on an object: the
    annotation is passed over, or its mask is saved under its label. *)
Lemma save_instance_masks_loop_step h w (m : gmap string json) anns saved :
  save_instance_masks_loop h w (JObj m :: anns) saved
  = save_instance_masks_loop h w anns saved
  ∨ ∃ label mask,
      instance_label (JObj m) = Ok label
      ∧ save_instance_masks_loop h w (JObj m :: anns) saved
        = save_instance_masks_loop h w anns (saved ++ [(label, mask)]).
Proof.
  rewrite save_instance_masks_loop_cons. unfold py_get.
  cbn [mbind result_bind].
  destruct (instance_label_object m) as [label Hlabel].
  assert (∀ segm,
            match
              try_except
                (rle0 ← encode_segmentation segm h w;
                 arr ← decode rle0;
                 Ok (Some (flatten_mask arr)))
                [Exception] (Ok None)
            with
            | Ok (Some mask) =>
                inst_id ← instance_label (JObj m);
                save_instance_masks_loop h w anns (saved ++ [(inst_id, mask)])
            | Ok None => save_instance_masks_loop h w anns saved
            | Err e => Err e
            end
            = save_instance_masks_loop h w anns saved
            ∨ ∃ label mask,
                instance_label (JObj m) = Ok label
                ∧ match
                    try_except
                      (rle0 ← encode_segmentation segm h w;
                       arr ← decode rle0;
                       Ok (Some (flatten_mask arr)))
                      [Exception] (Ok None)
                  with
                  | Ok (Some mask) =>
                      inst_id ← instance_label (JObj m);
                      save_instance_masks_loop h w anns (saved ++ [(inst_id, mask)])
                  | Ok None => save_instance_masks_loop h w anns saved
                  | Err e => Err e
                  end
                  = save_instance_masks_loop h w anns (saved ++ [(label, mask)])) as Hstep.
  { intros segm. rewrite try_except_Exception.
    destruct (encode_segmentation segm h w) as [v|e]; simpl; [| by left].
    destruct (decode v) as [arr|e]; simpl; [| by left].
    right. exists label, (flatten_mask arr).
    split; [done |]. by rewrite Hlabel. }
  destruct (m !! "segmentation") as [segm|]; simpl; [| by left].
  destruct segm; first [by left | apply Hstep].
Qed.

(** X22. Up to the writing of the files, the loop of [save_instance_masks]
    over the annotations of an image never raises, as long as they are
    objects: an annotation whose segmentation cannot be encoded or decoded is
    passed over.  It yields at most one mask for each annotation, after those
    yielded before, each under the label of one of the annotations. *)
Theorem save_instance_masks_loop_total (h w : Z) (anns : list json)
    (saved : list (json * mask Z)) :
  Forall (λ ann, ∃ m, ann = JObj m) anns →
  ∃ new,
    save_instance_masks_loop h w anns saved = Ok (saved ++ new)
    ∧ (length new ≤ length anns)%nat
    ∧ Forall (λ p, ∃ ann, ann ∈ anns ∧ instance_label ann = Ok p.1) new.
Proof.
  intros H. revert saved. induction H as [|ann anns [m ->] _ IH]; intros saved.
  { exists []. split_and!; [by rewrite app_nil_r | done | constructor]. }
  destruct (save_instance_masks_loop_step h w m anns saved)
    as [->|(label & mask & Hlabel & ->)].
  - destruct (IH saved) as (new & -> & Hlen & Hnew).
    exists new. split_and!; [done | simpl; lia |].
    eapply Forall_impl; [exact Hnew |]. intros p (ann & Hin & Hl).
    exists ann. split; [set_solver | done].
  - destruct (IH (saved ++ [(label, mask)])) as (new & -> & Hlen & Hnew).
    exists ((label, mask) :: new). split_and!; [by rewrite <- app_assoc | simpl; lia |].
    constructor.
    + exists (JObj m). split; [set_solver | done].
    + eapply Forall_impl; [exact Hnew |]. intros p (ann & Hin & Hl).
      exists ann. split; [set_solver | done].
Qed.

End CodecMore.

(** ** The statements on examples *)

Lemma instance_label_falsy_id_witness :
  instance_label (obj [("id", JInt 0); ("instance_id", JInt 4)])
  = instance_label (JObj (delete "id" (list_to_map [("id", JInt 0); ("instance_id", JInt 4)]))).
Proof.
  apply (instance_label_falsy_id (list_to_map [("id", JInt 0); ("instance_id", JInt 4)])
           (JInt 0)); reflexivity.
Defined.


(** A segmentation whose counts reach no byte: the mask shows the bytes
    that the memory held, multiplied by 255. *)
Example ann_to_mask_empty_counts :
  ann_to_mask (mask Z) frame_frList frame_frObject frame_frDict frame_rleFrString
    frame_rleMerge frame_rleDecode frame_rleDecodes 2 2 [empty_counts_annotation]
  = Ok [[174; 174]; [174; 174]].
Proof. reflexivity. Qed.

Lemma save_instance_masks_loop_total_witness :
  ∃ new,
    save_instance_masks_loop (mask Z) frame_frList frame_frObject frame_frDict
      frame_rleFrString frame_rleDecode frame_rleDecodes 2 2
      [polygon_annotation; number_annotation; compressed_annotation] []
    = Ok ([] ++ new)
    ∧ (length new ≤ 3)%nat
    ∧ Forall (λ p, ∃ ann, ann ∈ [polygon_annotation; number_annotation; compressed_annotation]
                          ∧ instance_label ann = Ok p.1) new.
Proof.
  apply (save_instance_masks_loop_total frame_frList frame_frObject frame_frDict
           frame_rleFrString frame_rleDecode frame_rleDecodes 2 2
           [polygon_annotation; number_annotation; compressed_annotation] []).
  repeat constructor; by eexists.
Defined.

Example save_instance_masks_loop_frames :
  save_instance_masks_loop (mask Z) frame_frList frame_frObject frame_frDict
    frame_rleFrString frame_rleDecode frame_rleDecodes 2 2
    [polygon_annotation; number_annotation; compressed_annotation] []
  = Ok [(JInt 1, [[255; 255]; [255; 255]]); (JInt 3, [[255; 255]; [255; 255]])].
Proof. reflexivity. Qed.

Lemma ann_to_mask_list_segmentation_witness :
  is_ok (ann_to_mask (mask Z) frame_frList frame_frObject frame_frDict frame_rleFrString
           frame_rleMerge frame_rleDecode frame_rleDecodes 2 2
           [compressed_annotation; polygon_annotation]) = false.
Proof.
  eapply (ann_to_mask_list_segmentation frame_frList frame_frObject frame_frDict
            frame_rleFrString frame_rleMerge frame_rleDecode frame_rleDecodes 2 2
            [compressed_annotation; polygon_annotation] _ _ _ 8).
  - apply Exists_cons_tl, Exists_cons_hd. reflexivity.
  - reflexivity.
  - reflexivity.
  - lia.
  - reflexivity.
Defined.

Lemma ann_to_mask_malformed_object_witness :
  is_ok (ann_to_mask (mask Z) frame_frList frame_frObject frame_frDict frame_rleFrString
           frame_rleMerge frame_rleDecode frame_rleDecodes 2 2 [malformed_annotation]) = false.
Proof.
  eapply (ann_to_mask_malformed_object frame_frList frame_frObject frame_frDict
            frame_rleFrString frame_rleMerge frame_rleDecode frame_rleDecodes 2 2
            [malformed_annotation]).
  - apply Exists_cons_hd. reflexivity.
  - reflexivity.
  - reflexivity.
Defined.


(** * Properties of copy_fused_images.py *)

Section FusedFacts.

Context {path : Type}.

Abbreviation name_counts := (name_counts path).
Abbreviation ensure_unique_names := (ensure_unique_names path).
Abbreviation copy_args_loop := (copy_args_loop path).
Abbreviation copy_args := (copy_args path).

Lemma identity_on_insert (unique_names : gmap string string) (name : string) :
  identity_on unique_names → identity_on (<[name := name]> unique_names).
Proof.
  intros H key value [[-> ->]|[_ Hk]]%lookup_insert_Some; [done | by apply H].
Qed.

Lemma add_duplicates_identity parent_name count unique_names :
  identity_on unique_names → identity_on (add_duplicates parent_name count unique_names).
Proof.
  unfold add_duplicates. generalize (seq 0 count). intros l. revert unique_names.
  induction l as [|i l IH]; intros unique_names H; [done |].
  simpl. apply IH. destruct (decide (i = 0%nat)); by apply identity_on_insert.
Qed.

Lemma add_duplicates_keeps parent_name count unique_names key :
  is_Some (unique_names !! key) →
  is_Some (add_duplicates parent_name count unique_names !! key).
Proof.
  unfold add_duplicates. generalize (seq 0 count). intros l. revert unique_names.
  induction l as [|i l IH]; intros unique_names H; [done |].
  simpl. apply IH. destruct (decide (i = 0%nat)); rewrite lookup_insert_is_Some'; by right.
Qed.

Lemma add_unique_names_identity unique_names item :
  identity_on unique_names → identity_on (add_unique_names unique_names item).
Proof.
  destruct item as [parent_name count]. unfold add_unique_names.
  destruct (decide (count = 1%nat)); [apply identity_on_insert | apply add_duplicates_identity].
Qed.

Lemma add_unique_names_keeps unique_names item key :
  is_Some (unique_names !! key) → is_Some (add_unique_names unique_names item !! key).
Proof.
  destruct item as [parent_name count]. unfold add_unique_names.
  destruct (decide (count = 1%nat)); [| apply add_duplicates_keeps].
  rewrite lookup_insert_is_Some'. by right.
Qed.

Lemma add_unique_names_adds unique_names parent_name count :
  (1 ≤ count)%nat →
  is_Some (add_unique_names unique_names (parent_name, count) !! parent_name).
Proof.
  intros Hc. unfold add_unique_names.
  destruct (decide (count = 1%nat)); [by rewrite lookup_insert_eq |].
  destruct count as [|count]; [lia |].
  unfold add_duplicates. rewrite <- cons_seq. simpl.
  fold (add_duplicates parent_name 0 (<[parent_name := parent_name]> unique_names)).
  assert (∀ l (m : gmap string string),
            is_Some (m !! parent_name) →
            is_Some (foldl (λ (unique_names0 : gmap string string) (i : nat),
                              if decide (i = 0%nat)
                              then <[parent_name := parent_name]> unique_names0
                              else <[suffixed parent_name (i + 1)
                                     := suffixed parent_name (i + 1)]> unique_names0)
                           m l !! parent_name)) as Hkeeps.
  { induction l as [|i l IH]; intros m Hm; [done |].
    simpl. apply IH. destruct (decide (i = 0%nat)); rewrite lookup_insert_is_Some'; by right. }
  apply Hkeeps. by rewrite lookup_insert_eq.
Qed.

Lemma foldl_add_unique_names_identity counts unique_names :
  identity_on unique_names → identity_on (foldl add_unique_names unique_names counts).
Proof.
  revert unique_names. induction counts as [|item counts IH]; intros unique_names H; [done |].
  simpl. apply IH. by apply add_unique_names_identity.
Qed.

Lemma foldl_add_unique_names_keeps counts unique_names key :
  is_Some (unique_names !! key) →
  is_Some (foldl add_unique_names unique_names counts !! key).
Proof.
  revert unique_names. induction counts as [|item counts IH]; intros unique_names H; [done |].
  simpl. apply IH. by apply add_unique_names_keeps.
Qed.

Lemma foldl_add_unique_names_adds counts unique_names parent_name count :
  (parent_name, count) ∈ counts → (1 ≤ count)%nat →
  is_Some (foldl add_unique_names unique_names counts !! parent_name).
Proof.
  revert unique_names. induction counts as [|item counts IH]; intros unique_names Hin Hc.
  { by apply elem_of_nil in Hin. }
  simpl. apply elem_of_cons in Hin as [<-|Hin].
  - apply foldl_add_unique_names_keeps. by apply add_unique_names_adds.
  - by apply IH.
Qed.

Lemma count_name_counted parent_name counts :
  Forall (λ item, (1 ≤ item.2)%nat) counts →
  Forall (λ item, (1 ≤ item.2)%nat) (count_name parent_name counts)
  ∧ parent_name ∈ (count_name parent_name counts).*1
  ∧ ∀ name, name ∈ counts.*1 → name ∈ (count_name parent_name counts).*1.
Proof.
  induction counts as [|[name count] counts IH]; intros H.
  { simpl. split_and!; [repeat constructor | set_solver | set_solver]. }
  apply Forall_cons in H as [Hc H]. destruct (IH H) as (IH1 & IH2 & IH3).
  simpl. destruct (decide (name = parent_name)) as [->|Hne].
  - split_and!; [constructor; [simpl; lia | done] | set_solver | done].
  - split_and!; [by constructor | set_solver |].
    intros name' [->|Hin]%elem_of_cons; [set_solver |].
    simpl. apply elem_of_cons. right. by apply IH3.
Qed.

Lemma name_counts_counted (fused_files : list (path * string)) :
  Forall (λ item, (1 ≤ item.2)%nat) (name_counts fused_files)
  ∧ ∀ name, name ∈ fused_files.*2 → name ∈ (name_counts fused_files).*1.
Proof.
  unfold name_counts.
  assert (∀ counts,
            Forall (λ item, (1 ≤ item.2)%nat) counts →
            Forall (λ item, (1 ≤ item.2)%nat)
              (foldl (λ name_counts0 '(_, parent_name), count_name parent_name name_counts0)
                     counts fused_files)
            ∧ ∀ name, name ∈ counts.*1 ∨ name ∈ fused_files.*2 →
                      name ∈ (foldl (λ name_counts0 '(_, parent_name),
                                       count_name parent_name name_counts0)
                                    counts fused_files).*1) as H.
  { induction fused_files as [|[file parent_name] files IH]; intros counts Hc.
    { simpl. split; [done |]. intros name [?|?]; [done | set_solver]. }
    destruct (count_name_counted parent_name counts Hc) as (H1 & H2 & H3).
    destruct (IH _ H1) as [IH1 IH2]. simpl. split; [done |].
    intros name [Hin|[->|Hin]%elem_of_cons]; apply IH2; auto. }
  destruct (H [] ltac:(constructor)) as [H1 H2]. split; [done |].
  intros name Hin. apply H2. by right.
Qed.

Lemma ensure_unique_names_identity_on (fused_files : list (path * string)) :
  identity_on (ensure_unique_names fused_files).
Proof. apply foldl_add_unique_names_identity. intros key value. by rewrite lookup_empty. Qed.

Lemma ensure_unique_names_keys (fused_files : list (path * string)) :
  ∀ file parent_name, (file, parent_name) ∈ fused_files →
    ensure_unique_names fused_files !! parent_name = Some parent_name.
Proof.
  intros file parent_name Hin.
  destruct (name_counts_counted fused_files) as [Hc Hkeys].
  assert (parent_name ∈ (name_counts fused_files).*1) as Hkey.
  { apply Hkeys. apply list_elem_of_fmap. by exists (file, parent_name). }
  apply list_elem_of_fmap in Hkey as ([name count] & -> & Hitem).
  pose proof (proj1 (Forall_forall _ _) Hc _ Hitem) as Hcount.
  destruct (foldl_add_unique_names_adds _ ∅ _ _ Hitem Hcount) as [value Hvalue].
  fold (ensure_unique_names fused_files) in Hvalue.
  simpl. rewrite Hvalue. f_equal. by apply (ensure_unique_names_identity_on fused_files).
Qed.

(** X25. [ensure_unique_names] returns a dictionary in which every key is its
    own value, and in which every parent name of the files is a key: the
    name that it gives to a parent name is the parent name itself, however
    many files have it. *)
Theorem ensure_unique_names_identity (fused_files : list (path * string)) :
  (∀ key value, ensure_unique_names fused_files !! key = Some value → value = key)
  ∧ (∀ file parent_name, (file, parent_name) ∈ fused_files →
       ensure_unique_names fused_files !! parent_name = Some parent_name).
Proof.
  split; [apply ensure_unique_names_identity_on | apply ensure_unique_names_keys].
Qed.

Lemma copy_args_loop_parent_names unique_names fused_files : ∀ name_mapping acc,
  (∀ key value, name_mapping !! key = Some value → value = key) →
  (∀ file parent_name, (file, parent_name) ∈ fused_files →
     unique_names !! parent_name = Some parent_name) →
  copy_args_loop unique_names fused_files name_mapping acc
  = Ok (acc ++ ((λ item, (item.1, item.2, item.2)) <$> fused_files)).
Proof.
  induction fused_files as [|[file parent_name] files IH]; intros name_mapping acc Hid Hu.
  { simpl. by rewrite app_nil_r. }
  simpl. case_bool_decide as Hin; simpl.
  - destruct Hin as [value Hvalue]. rewrite Hvalue.
    rewrite (Hid _ _ Hvalue). rewrite IH; [by rewrite <- app_assoc | done |].
    intros file' name' Hin'. apply (Hu file'). set_solver.
  - rewrite (Hu file parent_name) by set_solver. simpl. rewrite lookup_insert_eq.
    rewrite IH; [by rewrite <- app_assoc | |].
    + by apply identity_on_insert.
    + intros file' name' Hin'. apply (Hu file'). set_solver.
Qed.

(** X26. The arguments that [main] prepares for [copy_file]: every file is
    copied under the name of its parent directory, so that two files with
    the same parent name are given the same name. *)
Theorem copy_args_parent_names (fused_files : list (path * string)) :
  copy_args fused_files = Ok ((λ item, (item.1, item.2, item.2)) <$> fused_files)
  ∧ ∀ file file' parent_name unique_name unique_name' args,
      copy_args fused_files = Ok args →
      (file, parent_name, unique_name) ∈ args →
      (file', parent_name, unique_name') ∈ args →
      unique_name = parent_name ∧ unique_name' = parent_name.
Proof.
  assert (copy_args fused_files = Ok ((λ item, (item.1, item.2, item.2)) <$> fused_files))
    as Hargs.
  { unfold copy_args. rewrite copy_args_loop_parent_names; [done | |].
    - intros key value. by rewrite lookup_empty.
    - apply ensure_unique_names_keys. }
  split; [exact Hargs |].
  intros file file' parent_name unique_name unique_name' args Heq H1 H2.
  rewrite Hargs in Heq. injection Heq as <-.
  apply list_elem_of_fmap in H1 as (item & [= -> -> ->] & _).
  apply list_elem_of_fmap in H2 as (item' & [= -> Hp ->] & _).
  by rewrite Hp.
Qed.

End FusedFacts.

(** Two directories named [a] and one named [b]: the dictionary has an
    entry [a_2] that [main] never reads, and both files of [a] are copied
    under the name [a]. *)
Example copy_args_duplicates :
  ensure_unique_names nat [(1%nat, "a"); (2%nat, "b"); (3%nat, "a")]
  = {["a" := "a"; "a_2" := "a_2"; "b" := "b"]}
  ∧ copy_args nat [(1%nat, "a"); (2%nat, "b"); (3%nat, "a")]
    = Ok [(1%nat, "a", "a"); (2%nat, "b", "b"); (3%nat, "a", "a")]%string.
Proof. split; vm_compute; reflexivity. Qed.

(** * The merge over a store: frame *)

Module StoreFacts.
Import Store.

(** ** Computations *)

Lemma wp_eq {A} (m : st A) h Q r h' : wp m h Q → m h = (r, h') → Q r h'.
Proof. unfold wp. intros H Heq. by rewrite Heq in H. Qed.

Lemma wp_mono {A} (m : st A) h (Q Q' : result A → heap → Prop) :
  wp m h Q → (∀ r h', Q r h' → Q' r h') → wp m h Q'.
Proof. unfold wp. auto. Qed.

Lemma wp_ret {A} (a : A) h (Q : result A → heap → Prop) : Q (Ok a) h → wp (mret a) h Q.
Proof. done. Qed.

Lemma wp_raise {A} e h (Q : result A → heap → Prop) : Q (Err e) h → wp (raise e) h Q.
Proof. done. Qed.

Lemma wp_lift {A} (r : result A) h (Q : result A → heap → Prop) : Q r h → wp (lift r) h Q.
Proof. done. Qed.

Lemma wp_bind {A B} (m : st A) (f : A → st B) h (Q : result B → heap → Prop) :
  wp m h (λ r h1, match r with Ok a => wp (f a) h1 Q | Err e => Q (Err e) h1 end) →
  wp (m ≫= f) h Q.
Proof. unfold wp, mbind, st_bind. by destruct (m h) as [[a|e] h1]. Qed.

Lemma wp_try_except {A} (body handler : st A) cs h (Q : result A → heap → Prop) :
  wp body h (λ r h1, match r with
                     | Ok a => Q (Ok a) h1
                     | Err e => if except cs e then wp handler h1 Q else Q (Err e) h1
                     end) →
  wp (try_except body cs handler) h Q.
Proof.
  unfold wp, try_except. destruct (body h) as [[a|e] h1]; simpl; [done |].
  by destruct (except cs e).
Qed.

(** ** Values and heaps *)

Lemma valid_val_mono n n' v : (n ≤ n')%nat → valid_val n v → valid_val n' v.
Proof. destruct v; simpl; auto; lia. Qed.

Lemma dict_get_vals items key x : dict_get items key = Some x → x ∈ items.*2.
Proof.
  induction items as [|[k v] items IH]; simpl; [done |].
  case_decide; [intros [= ->]; by left | intros ?; right; auto].
Qed.

Lemma dict_set_vals (P : val → Prop) items key x :
  Forall P items.*2 → P x → Forall P (dict_set items key x).*2.
Proof.
  induction items as [|[k v] items IH]; simpl; intros Hall Hx; [by repeat constructor |].
  apply Forall_cons in Hall as [Hv Hall].
  case_decide; simpl; constructor; auto.
Qed.

Lemma dict_del_vals (P : val → Prop) items key :
  Forall P items.*2 → Forall P (dict_del items key).*2.
Proof.
  unfold dict_del. induction items as [|[k v] items IH]; simpl; intros Hall; [done |].
  apply Forall_cons in Hall as [Hv Hall].
  rewrite filter_cons. case_decide; simpl; [constructor |]; auto.
Qed.

Lemma extends_refl h : extends h h.
Proof. split; [done |]. by rewrite drop_all. Qed.

Section Frame.

(** The heap in which the inputs live, with the objects that they reach. *)
Variable h0 : heap.
Hypothesis h0_closed : closed h0.

Local Abbreviation N := (length h0).

Local Abbreviation orig := (orig h0).
Local Abbreviation new := (new h0).
Local Abbreviation post := (post h0).
Local Abbreviation memo_ok := (memo_ok h0).
Local Abbreviation copying := (copying h0).

Lemma new_mono h h' v : (length h ≤ length h')%nat → new h v → new h' v.
Proof. intros Hle [? ?]. split; [done |]. by eapply valid_val_mono. Qed.

Lemma new_atomic h v : (∀ l, v ≠ VRef l) → new h v.
Proof. destruct v; try done. intros H. by destruct (H l). Qed.

Lemma extends_length h : extends h0 h → (N ≤ length h)%nat.
Proof. intros [Hp _]. by apply prefix_length. Qed.

Lemma extends_lookup_orig h l o : extends h0 h → h0 !! l = Some o → h !! l = Some o.
Proof. intros [Hp _] Hl. by eapply prefix_lookup_Some. Qed.

Lemma extends_lookup_new h l o :
  extends h0 h → (N ≤ l)%nat → h !! l = Some o → Forall (fresh_val N) (vals_of o).
Proof.
  intros [_ Hf] Hl Ho.
  eapply (proj1 (Forall_lookup _ _) Hf (l - N)%nat).
  rewrite lookup_drop. replace (length h0 + (l - N))%nat with l by lia. done.
Qed.

Lemma closed_lookup l o : h0 !! l = Some o → Forall orig (vals_of o).
Proof. intros Hl. exact (proj1 (Forall_lookup _ _) h0_closed l o Hl). Qed.

Lemma extends_alloc h o :
  extends h0 h → Forall (fresh_val N) (vals_of o) → extends h0 (h ++ [o]).
Proof.
  intros [Hp Hf] Ho. split; [by apply prefix_app_r |].
  rewrite drop_app_le by by apply prefix_length.
  apply Forall_app. split; [done |]. by constructor.
Qed.

Lemma extends_store h l o :
  extends h0 h → (N ≤ l)%nat → Forall (fresh_val N) (vals_of o) → extends h0 (<[l := o]> h).
Proof.
  intros [Hp Hf] Hl Ho. split.
  - destruct Hp as [k ->]. rewrite insert_app_r_alt by done. by eexists.
  - rewrite drop_insert_ge by done. by apply Forall_insert.
Qed.

Lemma prefix_store (h1 h : heap) l o :
  h1 `prefix_of` h → (length h1 ≤ l)%nat → h1 `prefix_of` <[l := o]> h.
Proof. intros [k ->] Hl. rewrite insert_app_r_alt by done. by eexists. Qed.

(** ** Rules *)

Lemma wp_bind_post {A B} (m : st A) (f : A → st B) h
    (Q1 : heap → A → Prop) (Q : heap → B → Prop) :
  wp m h (post h Q1) →
  (∀ a h1, extends h0 h1 → (length h ≤ length h1)%nat → Q1 h1 a →
           wp (f a) h1 (post h1 Q)) →
  wp (m ≫= f) h (post h Q).
Proof.
  intros Hm Hf. apply wp_bind. eapply wp_mono; [exact Hm |].
  intros [a|e] h1 (Hext & Hlen & HQ); [| done].
  eapply wp_mono; [by apply Hf |].
  intros r h2 (Hext2 & Hlen2 & HQ2). split_and!; [done | lia | done].
Qed.

Lemma wp_post_mono {A} (m : st A) h (Q Q' : heap → A → Prop) :
  wp m h (post h Q) → (∀ h' a, (length h ≤ length h')%nat → extends h0 h' → Q h' a → Q' h' a) →
  wp m h (post h Q').
Proof.
  intros Hm HQ. eapply wp_mono; [exact Hm |].
  intros [a|e] h' (? & ? & ?); split_and!; auto.
Qed.

Lemma wp_foldM {A B} (f : B → A → st B) (I : heap → B → Prop) (E : exn → heap → Prop)
    (P : A → Prop) (l : list A) :
  (∀ b a h, I h b → P a →
            wp (f b a) h (λ r h', match r with Ok b' => I h' b' | Err e => E e h' end)) →
  Forall P l →
  ∀ b h, I h b →
         wp (foldM f b l) h (λ r h', match r with Ok b' => I h' b' | Err e => E e h' end).
Proof.
  intros Hf. induction 1 as [|a l Ha _ IH]; intros b h Hb; simpl; [by apply wp_ret |].
  apply wp_bind. eapply wp_mono; [by apply Hf |].
  intros [b'|e] h' Hr; [by apply IH | done].
Qed.

(** ** The operations that read *)

Lemma load_orig h l :
  extends h0 h → (l < N)%nat →
  ∃ o, h0 !! l = Some o ∧ load l h = (Ok o, h) ∧ Forall orig (vals_of o).
Proof.
  intros Hext Hl. destruct (lookup_lt_is_Some_2 h0 l Hl) as [o Ho].
  exists o. split_and!; [done | | by eapply closed_lookup].
  unfold load. by rewrite (extends_lookup_orig h l o Hext Ho).
Qed.

Lemma load_new h l :
  extends h0 h → (N ≤ l < length h)%nat →
  ∃ o, h !! l = Some o ∧ load l h = (Ok o, h) ∧ Forall (fresh_val N) (vals_of o).
Proof.
  intros Hext [Hl Hlt]. destruct (lookup_lt_is_Some_2 h l Hlt) as [o Ho].
  exists o. split_and!; [done | | by eapply extends_lookup_new].
  unfold load. by rewrite Ho.
Qed.

Lemma load_valid h l :
  extends h0 h → (l < length h)%nat → ∃ o, load l h = (Ok o, h).
Proof.
  intros Hext Hlt. destruct (lookup_lt_is_Some_2 h l Hlt) as [o Ho].
  exists o. unfold load. by rewrite Ho.
Qed.

Lemma wp_load h l o (Q : result object → heap → Prop) :
  load l h = (Ok o, h) → Q (Ok o) h → wp (load l) h Q.
Proof. unfold wp. by intros ->. Qed.

Lemma post_here {A} h (Q : heap → A → Prop) (r : result A) :
  extends h0 h → match r with Ok a => Q h a | Err e => python_error e end → post h Q r h.
Proof. intros ? ?. by split_and!. Qed.

Lemma python_error_builtin c : c ≠ RecursionError → c ≠ SystemError → python_error (Builtin c).
Proof. by split. Qed.

Lemma python_error_raised c msg :
  c ≠ RecursionError → c ≠ SystemError → python_error (Raised c msg).
Proof. by split. Qed.

Lemma py_in_spec h key v :
  extends h0 h → valid_val (length h) v → wp (py_in key v) h (post h (λ _ _, True)).
Proof.
  intros Hext Hv. destruct v; simpl;
    try (apply wp_raise, post_here; [done | by apply python_error_builtin]).
  - by apply wp_ret, post_here.
  - destruct (load_valid h l Hext Hv) as [o Ho].
    apply wp_bind, (wp_load _ _ o); [done |].
    destruct o; by apply wp_ret, post_here.
Qed.

Lemma getitem_spec h v key :
  extends h0 h → orig v → wp (getitem v key) h (post h (λ _ x, orig x)).
Proof.
  intros Hext Hv. destruct v; simpl;
    try (apply wp_raise, post_here; [done | by apply python_error_builtin]).
  destruct (load_orig h l Hext Hv) as (o & _ & Ho & Hvals).
  apply wp_bind, (wp_load _ _ o); [done |].
  destruct o as [items|elems]; simpl in *.
  - destruct (dict_get items key) as [x|] eqn:Hx.
    + apply wp_ret, post_here; [done |].
      apply dict_get_vals in Hx. by eapply (proj1 (Forall_forall _ _) Hvals).
    + apply wp_raise, post_here; [done | by apply python_error_builtin].
  - apply wp_raise, post_here; [done | by apply python_error_builtin].
Qed.

Lemma is_dict_spec h v :
  extends h0 h → valid_val (length h) v → wp (is_dict v) h (post h (λ _ _, True)).
Proof.
  intros Hext Hv. destruct v; simpl; try by apply wp_ret, post_here.
  destruct (load_valid h l Hext Hv) as [o Ho].
  apply wp_bind, (wp_load _ _ o); [done |]. by apply wp_ret, post_here.
Qed.

Lemma is_list_spec h v :
  extends h0 h → valid_val (length h) v → wp (is_list v) h (post h (λ _ _, True)).
Proof.
  intros Hext Hv. destruct v; simpl; try by apply wp_ret, post_here.
  destruct (load_valid h l Hext Hv) as [o Ho].
  apply wp_bind, (wp_load _ _ o); [done |]. by apply wp_ret, post_here.
Qed.

Lemma elements_of_orig h v :
  extends h0 h → orig v → wp (elements_of v) h (post h (λ _ elems, Forall orig elems)).
Proof.
  intros Hext Hv. destruct v; simpl;
    try (apply wp_raise, post_here; [done | by apply python_error_builtin]).
  destruct (load_orig h l Hext Hv) as (o & _ & Ho & Hvals).
  apply wp_bind, (wp_load _ _ o); [done |].
  destruct o as [items|elems]; simpl in *.
  - apply wp_raise, post_here; [done | by apply python_error_builtin].
  - by apply wp_ret, post_here.
Qed.

Lemma elements_of_new h v :
  extends h0 h → new h v →
  wp (elements_of v) h (post h (λ _ elems, Forall (fresh_val N) elems)).
Proof.
  intros Hext [Hf Hv]. destruct v; simpl;
    try (apply wp_raise, post_here; [done | by apply python_error_builtin]).
  destruct (load_new h l Hext) as (o & _ & Ho & Hvals); [done |].
  apply wp_bind, (wp_load _ _ o); [done |].
  destruct o as [items|elems]; simpl in *.
  - apply wp_raise, post_here; [done | by apply python_error_builtin].
  - by apply wp_ret, post_here.
Qed.

Lemma items_of_orig h v :
  extends h0 h → orig v → wp (items_of v) h (post h (λ _ items, Forall orig items.*2)).
Proof.
  intros Hext Hv. destruct v; simpl;
    try (apply wp_raise, post_here; [done | by apply python_error_builtin]).
  destruct (load_orig h l Hext Hv) as (o & _ & Ho & Hvals).
  apply wp_bind, (wp_load _ _ o); [done |].
  destruct o as [items|elems]; simpl in *.
  - by apply wp_ret, post_here.
  - apply wp_raise, post_here; [done | by apply python_error_builtin].
Qed.

(** ** The operations that write *)

Lemma alloc_spec h o :
  extends h0 h → Forall (fresh_val N) (vals_of o) →
  wp (alloc o) h (λ r h', r = Ok (length h) ∧ h' = h ++ [o] ∧ extends h0 h').
Proof. intros Hext Ho. split_and!; [done.. |]. by apply extends_alloc. Qed.

Lemma setitem_spec h v key x :
  extends h0 h → new h v → fresh_val N x →
  wp (setitem v key x) h (post h (λ h' _, length h' = length h)).
Proof.
  intros Hext [Hf Hv] Hx. destruct v; simpl;
    try (apply wp_raise, post_here; [done | by apply python_error_builtin]).
  destruct (load_new h l Hext) as (o & _ & Ho & Hvals); [done |].
  apply wp_bind, (wp_load _ _ o); [done |].
  destruct o as [items|elems]; simpl in *.
  - split_and!; simpl.
    + apply extends_store; [done.. |]. by apply dict_set_vals.
    + by rewrite length_insert.
    + by rewrite length_insert.
  - apply wp_raise, post_here; [done | by apply python_error_builtin].
Qed.

Lemma pop_spec h v key :
  extends h0 h → new h v → wp (pop v key) h (post h (λ h' _, length h' = length h)).
Proof.
  intros Hext [Hf Hv]. destruct v; simpl;
    try (apply wp_raise, post_here; [done | by apply python_error_builtin]).
  destruct (load_new h l Hext) as (o & _ & Ho & Hvals); [done |].
  apply wp_bind, (wp_load _ _ o); [done |].
  destruct o as [items|elems]; simpl in *.
  - split_and!; simpl.
    + apply extends_store; [done.. |]. by apply dict_del_vals.
    + by rewrite length_insert.
    + by rewrite length_insert.
  - apply wp_raise, post_here; [done | by apply python_error_builtin].
Qed.

Lemma list_concat_spec h x ys :
  extends h0 h → new h x → Forall (fresh_val N) ys →
  wp (list_concat x ys) h (post h (λ h' v, new h' v)).
Proof.
  intros Hext Hx Hys. unfold list_concat.
  eapply wp_bind_post; [by apply elements_of_new |].
  intros xs h1 Hext1 Hlen1 Hxs. apply wp_bind.
  eapply wp_mono; [apply alloc_spec; [done | by apply Forall_app] |].
  intros r h2 (-> & -> & Hext2). apply wp_ret.
  split_and!; [done | rewrite length_app; lia |].
  split; simpl; [by apply extends_length | rewrite length_app; simpl; lia].
Qed.

(** ** [deepcopy] *)

Lemma memo_size h (memo : gmap nat nat) l :
  memo_ok h memo → memo !! l = None → (l < N)%nat → (size (dom memo) < N)%nat.
Proof.
  intros Hok Hl Hlt.
  assert (dom memo ⊆ set_seq 0 N ∖ {[l]}) as Hsub.
  { intros k Hk. apply elem_of_dom in Hk as [y Hy].
    apply elem_of_difference. split.
    - apply elem_of_set_seq. destruct (Hok k y Hy). lia.
    - intros ->%elem_of_singleton. congruence. }
  apply subseteq_size in Hsub.
  rewrite size_difference in Hsub.
  - rewrite size_set_seq, size_singleton in Hsub. lia.
  - intros k ->%elem_of_singleton. apply elem_of_set_seq. lia.
Qed.

Lemma memo_ok_mono h h' memo :
  (length h ≤ length h')%nat → memo_ok h memo → memo_ok h' memo.
Proof. intros Hle Hok l y Hy. destruct (Hok l y Hy). lia. Qed.

Lemma memo_ok_insert h memo l y :
  memo_ok h memo → (l < N)%nat → (N ≤ y < length h)%nat → memo_ok h (<[l := y]> memo).
Proof.
  intros Hok Hl Hy k z. destruct (decide (l = k)) as [<-|Hne].
  - rewrite lookup_insert_eq. intros [= <-]. done.
  - rewrite lookup_insert_ne by done. apply Hok.
Qed.

Lemma deepcopy_memo_spec n : ∀ x memo h,
  extends h0 h → orig x → memo_ok h memo → (N < size (dom memo) + n)%nat →
  wp (deepcopy_memo n x memo) h (λ r h',
    h `prefix_of` h' ∧ extends h0 h'
    ∧ ∃ x' memo', r = Ok (x', memo') ∧ new h' x' ∧ memo ⊆ memo' ∧ memo_ok h' memo').
Proof.
  induction n as [|n IH]; intros x memo h Hext Hx Hok Hfuel.
  - destruct x; simpl;
      try (apply wp_ret; split_and!; [done.. |]; eexists _, _; split_and!; by auto using new_atomic).
    destruct (memo !! l) as [y|] eqn:Hl.
    + apply wp_ret. split_and!; [done.. |]. eexists _, _. split_and!; [done | | done..].
      destruct (Hok l y Hl). split; simpl; lia.
    + pose proof (memo_size h memo l Hok Hl Hx). lia.
  - destruct x; simpl;
      try (apply wp_ret; split_and!; [done.. |]; eexists _, _; split_and!; by auto using new_atomic).
    destruct (memo !! l) as [y|] eqn:Hl.
    { apply wp_ret. split_and!; [done.. |]. eexists _, _. split_and!; [done | | done..].
      destruct (Hok l y Hl). split; simpl; lia. }
    destruct (load_orig h l Hext Hx) as (o & _ & Ho & Hvals).
    apply wp_bind, (wp_load _ _ o); [done |].
    pose proof (extends_length h Hext) as HN.
    assert (memo ⊆ <[l := length h]> memo) as Hsub by by apply insert_subseteq.
    assert (size (dom (<[l := length h]> memo)) = S (size (dom memo))) as Hsize.
    { rewrite dom_insert_L, size_union, size_singleton; [done |].
      apply disjoint_singleton_l. by apply not_elem_of_dom. }
    assert (∀ is_list memo_c hc,
              copying h (length h) is_list (<[l := length h]> memo) hc memo_c →
              h `prefix_of` hc ∧ extends h0 hc
              ∧ ∃ x' memo', Ok (VRef (length h), memo_c) = Ok (x', memo')
                            ∧ new hc x' ∧ memo ⊆ memo' ∧ memo_ok hc memo') as Hdone.
    { intros is_list memo_c hc (Hp & Hext' & (o' & Ho' & _) & Hok' & Hsub').
      split_and!; [done.. |]. eexists _, _. split_and!; [done | | by etrans | done].
      apply lookup_lt_Some in Ho'. split; simpl; lia. }
    assert (∀ is_list memo_c hc a,
              copying h (length h) is_list (<[l := length h]> memo) hc memo_c → orig a →
              wp (deepcopy_memo n a memo_c) hc (λ r h',
                ∃ a' memo', r = Ok (a', memo') ∧ fresh_val N a'
                            ∧ copying h (length h) is_list (<[l := length h]> memo) h' memo'))
      as Hchild.
    { intros is_list memo_c hc a (Hp & Hext' & (o' & Ho' & Hkind) & Hok' & Hsub') Ha.
      eapply wp_mono; [apply IH; [done.. |] |].
      - apply subseteq_dom, subseteq_size in Hsub'. lia.
      - intros r h' (Hp' & Hext'' & a' & memo' & -> & [Hfa Hva] & Hsub'' & Hok'').
        eexists _, _. split_and!; [done.. |].
        split_and!; [by etrans | done | | done | by etrans].
        exists o'. split; [by eapply prefix_lookup_Some | done]. }
    destruct o as [items|elems]; simpl in *.
    + apply wp_bind.
      eapply wp_mono; [apply (alloc_spec h (ODict [])); [done | constructor] |].
      intros r h1 (-> & -> & Hext1).
      apply wp_bind.
      eapply wp_mono;
        [apply (wp_foldM _ (λ hc memo_c,
                              copying h (length h) false (<[l := length h]> memo) hc memo_c)
                         (λ _ _, False) (λ p, orig p.2)) |].
      * intros memo_c [key value] hc Hc Hvalue. simpl in Hvalue.
        apply wp_bind. eapply wp_mono; [by eapply Hchild |].
        intros r h' (value' & memo' & -> & Hfv & Hp' & Hext' & (o' & Ho' & Hkind) & Hok' & Hsub').
        destruct o' as [items'|]; [| done].
        apply wp_bind. simpl. apply wp_bind, (wp_load _ _ (ODict items')).
        { unfold load. by rewrite Ho'. }
        pose proof (lookup_lt_Some _ _ _ Ho') as Hlt.
        unfold wp; simpl. split_and!.
        -- by apply prefix_store.
        -- apply extends_store; [done | lia |]. simpl.
           apply dict_set_vals; [| done].
           by apply (extends_lookup_new h' (length h) (ODict items')); [| lia |].
        -- eexists. split; [by apply list_lookup_insert_eq | done].
        -- eapply memo_ok_mono; [| done]. by rewrite length_insert.
        -- done.
      * rewrite Forall_fmap in Hvals. exact Hvals.
      * split_and!.
        -- by apply prefix_app_r.
        -- done.
        -- exists (ODict []). split; [| done]. by rewrite lookup_app_r, Nat.sub_diag by lia.
        -- apply memo_ok_insert; [| done | rewrite length_app; simpl; lia].
           eapply memo_ok_mono; [| done]. rewrite length_app. lia.
        -- done.
      * intros [memo_c|e] hc Hc; [| done]. apply wp_ret. by eapply Hdone.
    + apply wp_bind.
      eapply wp_mono; [apply (alloc_spec h (OList [])); [done | constructor] |].
      intros r h1 (-> & -> & Hext1).
      apply wp_bind.
      eapply wp_mono;
        [apply (wp_foldM _ (λ hc memo_c,
                              copying h (length h) true (<[l := length h]> memo) hc memo_c)
                         (λ _ _, False) orig) |].
      * intros memo_c a hc Hc Ha.
        apply wp_bind. eapply wp_mono; [by eapply Hchild |].
        intros r h' (a' & memo' & -> & Hfv & Hp' & Hext' & (o' & Ho' & Hkind) & Hok' & Hsub').
        destruct o' as [|elems']; [done |].
        apply wp_bind. unfold append. apply wp_bind, (wp_load _ _ (OList elems')).
        { unfold load. by rewrite Ho'. }
        pose proof (lookup_lt_Some _ _ _ Ho') as Hlt.
        unfold wp; simpl. split_and!.
        -- by apply prefix_store.
        -- apply extends_store; [done | lia |]. simpl.
           apply Forall_app. split; [| by constructor].
           by apply (extends_lookup_new h' (length h) (OList elems')); [| lia |].
        -- eexists. split; [by apply list_lookup_insert_eq | done].
        -- eapply memo_ok_mono; [| done]. by rewrite length_insert.
        -- done.
      * done.
      * split_and!.
        -- by apply prefix_app_r.
        -- done.
        -- exists (OList []). split; [| done]. by rewrite lookup_app_r, Nat.sub_diag by lia.
        -- apply memo_ok_insert; [| done | rewrite length_app; simpl; lia].
           eapply memo_ok_mono; [| done]. rewrite length_app. lia.
        -- done.
      * intros [memo_c|e] hc Hc; [| done]. apply wp_ret. by eapply Hdone.
Qed.

Lemma deepcopy_spec h x :
  extends h0 h → orig x → wp (deepcopy x) h (post h (λ h' x', new h' x')).
Proof.
  intros Hext Hx.
  change (wp (deepcopy_memo (S (length h)) x ∅ ≫= λ '(y, _), mret y) h
             (post h (λ h' x', new h' x'))).
  apply wp_bind. eapply wp_mono; [apply deepcopy_memo_spec; [done.. | |] |].
  - intros l y. by rewrite lookup_empty.
  - rewrite dom_empty_L, size_empty. pose proof (extends_length h Hext). lia.
  - intros r h' (Hp & Hext' & x' & memo' & -> & Hnew & _ & _).
    apply wp_ret. split_and!; [done | by apply prefix_length | done].
Qed.

(** ** The functions of the merge *)

Lemma orig_valid h v : extends h0 h → orig v → valid_val (length h) v.
Proof. intros Hext. apply valid_val_mono. by apply extends_length. Qed.

Lemma wp_raise_post {A} h e (Q : heap → A → Prop) :
  extends h0 h → python_error e → wp (raise e) h (post h Q).
Proof. intros. by apply wp_raise, post_here. Qed.

Lemma wp_ret_post {A} h (a : A) (Q : heap → A → Prop) :
  extends h0 h → Q h a → wp (mret a) h (post h Q).
Proof. intros. by apply wp_ret, post_here. Qed.

Lemma wp_try_except_post {A} (body handler : st A) cs h (Q : heap → A → Prop) :
  wp body h (post h Q) →
  (∀ h1, extends h0 h1 → (length h ≤ length h1)%nat → wp handler h1 (post h1 Q)) →
  wp (try_except body cs handler) h (post h Q).
Proof.
  intros Hbody Hhandler. apply wp_try_except. eapply wp_mono; [exact Hbody |].
  intros [a|e] h1 (Hext & Hlen & HQ); [done |].
  destruct (except cs e); [| done].
  eapply wp_mono; [by apply Hhandler |].
  intros r h2 (? & ? & ?). split_and!; [done | lia | done].
Qed.

Lemma wp_foldM_post {A B} (f : B → A → st B) (I : heap → B → Prop) (P : A → Prop)
    (l : list A) :
  (∀ b a h, extends h0 h → I h b → P a → wp (f b a) h (post h I)) →
  Forall P l →
  ∀ b h, extends h0 h → I h b → wp (foldM f b l) h (post h I).
Proof.
  intros Hf. induction 1 as [|a l Ha _ IH]; intros b h Hext Hb; simpl.
  - by apply wp_ret_post.
  - eapply wp_bind_post; [by apply Hf |]. intros b' h1 Hext1 _ Hb'. by apply IH.
Qed.

Lemma wp_for_each_post {A} (f : A → st unit) (I : heap → Prop) (P : A → Prop) (l : list A) h :
  (∀ a h, extends h0 h → I h → P a → wp (f a) h (post h (λ h' _, I h'))) →
  Forall P l → extends h0 h → I h →
  wp (for_each l f) h (post h (λ h' _, I h')).
Proof.
  intros Hf Hl Hext HI. unfold for_each.
  apply (wp_foldM_post (λ _ x, f x) (λ h' _, I h') P); auto.
Qed.

Section Functions.

Variable int_of_str : string → option Z.

Lemma py_int_python_error v e : py_int int_of_str v = Err e → python_error e.
Proof.
  destruct v as [| | |[]| |]; simpl; try discriminate; try (by intros [= <-]).
  destruct (int_of_str s); [done | by intros [= <-]].
Qed.

Lemma wp_py_int h v :
  extends h0 h → wp (lift (py_int int_of_str v)) h (post h (λ _ _, True)).
Proof.
  intros Hext. apply wp_lift, post_here; [done |].
  destruct (py_int int_of_str v) eqn:Hv; [done | by eapply py_int_python_error].
Qed.

Lemma validate_coco_like_spec h payload label :
  extends h0 h → orig payload →
  wp (validate_coco_like payload label) h (post h (λ _ _, True)).
Proof.
  intros Hext Hp. unfold validate_coco_like.
  eapply wp_bind_post; [apply is_dict_spec; [done | by apply orig_valid] |].
  intros d h1 Hext1 _ _. destruct d; simpl; [| by apply wp_raise_post].
  apply (wp_for_each_post _ (λ _, True) (λ _, True)); [| by apply Forall_true | done..].
  intros key h2 Hext2 _ _.
  eapply wp_bind_post; [apply py_in_spec; [done | by apply orig_valid] |].
  intros has h3 Hext3 _ _. destruct has; simpl; [| by apply wp_raise_post].
  eapply wp_bind_post; [by apply getitem_spec |].
  intros v h4 Hext4 _ Hv.
  eapply wp_bind_post; [apply is_list_spec; [done | by apply orig_valid] |].
  intros l h5 Hext5 _ _. destruct l; simpl; [by apply wp_ret_post | by apply wp_raise_post].
Qed.

Lemma get_max_id_loop_spec items key : ∀ max_id h,
  extends h0 h → Forall orig items →
  wp (get_max_id_loop int_of_str max_id items key) h (post h (λ _ _, True)).
Proof.
  induction items as [|item items IH]; intros max_id h Hext Hitems; simpl.
  - by apply wp_ret_post.
  - apply Forall_cons in Hitems as [Hitem Hitems].
    eapply wp_bind_post.
    + apply (wp_try_except_post _ _ _ _ (λ _ _, True)).
      * eapply wp_bind_post; [by apply getitem_spec |].
        intros v h1 Hext1 _ _.
        eapply wp_bind_post; [by apply wp_py_int |].
        intros value h2 Hext2 _ _. by apply wp_ret_post.
      * intros h1 Hext1 _. by apply wp_ret_post.
    + intros [value|] h1 Hext1 _ _; by apply IH.
Qed.

Lemma get_max_id_spec h items key :
  extends h0 h → orig items →
  wp (get_max_id int_of_str items key) h (post h (λ _ _, True)).
Proof.
  intros Hext Hitems. unfold get_max_id.
  eapply wp_bind_post; [by apply elements_of_orig |].
  intros elems h1 Hext1 _ Helems. by apply get_max_id_loop_spec.
Qed.

Lemma build_image_id_mapping_loop_spec images off : ∀ acc mp h,
  extends h0 h → Forall orig images → Forall (fresh_val N) acc →
  wp (build_image_id_mapping_loop int_of_str images off acc mp) h
     (post h (λ _ r, Forall (fresh_val N) r.1)).
Proof.
  induction images as [|image images IH]; intros acc mp h Hext Himages Hacc; simpl.
  - by apply wp_ret_post.
  - apply Forall_cons in Himages as [Himage Himages].
    eapply wp_bind_post; [apply py_in_spec; [done | by apply orig_valid] |].
    intros has h1 Hext1 _ _. destruct has; simpl; [| by apply wp_raise_post].
    eapply wp_bind_post; [by apply getitem_spec |].
    intros v h2 Hext2 _ _.
    eapply wp_bind_post; [by apply wp_py_int |].
    intros old_id h3 Hext3 _ _.
    eapply wp_bind_post; [by apply deepcopy_spec |].
    intros new_image h4 Hext4 _ Hnew.
    eapply wp_bind_post; [by apply setitem_spec |].
    intros [] h5 Hext5 _ _.
    apply IH; [done.. |]. apply Forall_app. split; [done |].
    constructor; [| done]. by destruct Hnew.
Qed.

Lemma build_image_id_mapping_spec h images off :
  extends h0 h → orig images →
  wp (build_image_id_mapping int_of_str images off) h
     (post h (λ _ r, Forall (fresh_val N) r.1)).
Proof.
  intros Hext Himages. unfold build_image_id_mapping.
  eapply wp_bind_post; [by apply elements_of_orig |].
  intros elems h1 Hext1 _ Helems. by apply build_image_id_mapping_loop_spec.
Qed.

Lemma remap_annotations_loop_spec anns mp off : ∀ acc h,
  extends h0 h → Forall orig anns → Forall (fresh_val N) acc →
  wp (remap_annotations_loop int_of_str anns mp off acc) h
     (post h (λ _ r, Forall (fresh_val N) r)).
Proof.
  induction anns as [|ann anns IH]; intros acc h Hext Hanns Hacc; simpl.
  - by apply wp_ret_post.
  - apply Forall_cons in Hanns as [Hann Hanns].
    eapply wp_bind_post; [apply py_in_spec; [done | by apply orig_valid] |].
    intros has h1 Hext1 _ _. destruct has; simpl; [| by apply wp_raise_post].
    eapply wp_bind_post; [by apply getitem_spec |].
    intros v h2 Hext2 _ _.
    eapply wp_bind_post; [by apply wp_py_int |].
    intros old_image_id h3 Hext3 _ _.
    destruct (mp !! old_image_id) as [new_image_id|]; [| by apply wp_raise_post].
    eapply wp_bind_post; [by apply deepcopy_spec |].
    intros new_ann h4 Hext4 _ Hnew.
    eapply wp_bind_post; [by apply setitem_spec |].
    intros [] h5 Hext5 Hlen5 _.
    eapply wp_bind_post; [apply py_in_spec; [done | by apply orig_valid] |].
    intros has_id h6 Hext6 Hlen6 _.
    assert (new h6 new_ann) as Hnew6 by (eapply new_mono; [| done]; lia).
    eapply (wp_bind_post _ _ _ (λ _ _, True)).
    + destruct has_id; [| by apply wp_ret_post].
      apply wp_try_except_post.
      * eapply wp_bind_post; [by apply getitem_spec |].
        intros w h7 Hext7 Hlen7 _.
        eapply wp_bind_post; [by apply wp_py_int |].
        intros id h8 Hext8 Hlen8 _.
        eapply wp_post_mono; [apply setitem_spec; [done | | done] |]; [| done].
        eapply new_mono; [| done]. lia.
      * intros h7 Hext7 Hlen7.
        eapply wp_post_mono; [apply pop_spec; [done |] |]; [| done].
        eapply new_mono; [| done]. lia.
    + intros [] h7 Hext7 _ _.
      apply IH; [done.. |]. apply Forall_app. split; [done |].
      constructor; [| done]. by destruct Hnew.
Qed.

Lemma remap_annotations_spec h anns mp off :
  extends h0 h → orig anns →
  wp (remap_annotations int_of_str anns mp off) h (post h (λ _ r, Forall (fresh_val N) r)).
Proof.
  intros Hext Hanns. unfold remap_annotations.
  eapply wp_bind_post; [by apply elements_of_orig |].
  intros elems h1 Hext1 _ Helems. by apply remap_annotations_loop_spec.
Qed.

Lemma alloc_post h o :
  extends h0 h → Forall (fresh_val N) (vals_of o) →
  wp (alloc o) h (post h (λ h' l, (N ≤ l < length h')%nat)).
Proof.
  intros Hext Ho. eapply wp_mono; [by apply alloc_spec |].
  intros r h' (-> & -> & Hext'). pose proof (extends_length h Hext).
  split_and!; [done | ..]; rewrite ?length_app; simpl; lia.
Qed.

(** Whatever its outcome, [merge_instances] leaves a heap that extends the
    one it started from; its result is a reference to an object made by the
    call, and the only exceptions are those of Python. *)
Lemma merge_instances_spec h a b :
  extends h0 h → orig a → orig b →
  wp (merge_instances int_of_str a b) h (post h (λ h' v, new h' v)).
Proof.
  intros Hext Ha Hb. unfold merge_instances.
  eapply wp_bind_post; [by apply validate_coco_like_spec |]. intros [] h1 Hext1 _ _.
  eapply wp_bind_post; [by apply validate_coco_like_spec |]. intros [] h2 Hext2 _ _.
  eapply wp_bind_post; [by apply getitem_spec |]. intros a_images h3 Hext3 _ Hai.
  eapply wp_bind_post; [by apply get_max_id_spec |]. intros max_image_id_a h4 Hext4 _ _.
  eapply wp_bind_post; [by apply getitem_spec |]. intros a_annotations h5 Hext5 _ Haa.
  eapply wp_bind_post; [by apply get_max_id_spec |]. intros max_ann_id_a h6 Hext6 _ _.
  eapply wp_bind_post; [by apply getitem_spec |]. intros b_images h7 Hext7 _ Hbi.
  eapply wp_bind_post; [by apply build_image_id_mapping_spec |].
  intros [updated_images_b image_id_map] h8 Hext8 _ Hupd_i. simpl in Hupd_i.
  eapply wp_bind_post; [by apply getitem_spec |]. intros b_annotations h9 Hext9 _ Hba.
  eapply wp_bind_post; [by apply remap_annotations_spec |].
  intros updated_annotations_b h10 Hext10 _ Hupd_a.
  eapply wp_bind_post; [apply alloc_post; [done | constructor] |].
  intros merged h11 Hext11 _ Hmerged. simpl in Hmerged.
  eapply wp_bind_post.
  { apply (wp_for_each_post _ (λ h', (merged < length h')%nat) (λ _, True));
      [| by apply Forall_true | done | lia].
    intros key hk Hextk Hm _.
    eapply wp_bind_post; [apply py_in_spec; [done | by apply orig_valid] |].
    intros has hk1 Hextk1 Hlen1 _. destruct has; [| apply wp_ret_post; [done | lia]].
    eapply wp_bind_post; [by apply getitem_spec |]. intros v hk2 Hextk2 Hlen2 Hv.
    eapply wp_bind_post; [by apply deepcopy_spec |]. intros c hk3 Hextk3 Hlen3 [Hc _].
    eapply wp_post_mono; [apply setitem_spec; [done | | done] |].
    - split; simpl; lia.
    - simpl. intros h' _ Hlen' _ ->. lia. }
  intros [] h12 Hext12 Hlen12 Hm12.
  eapply wp_bind_post; [by apply getitem_spec |]. intros a_images' h13 Hext13 Hlen13 Hai'.
  eapply wp_bind_post; [by apply deepcopy_spec |]. intros c h14 Hext14 Hlen14 Hc.
  eapply wp_bind_post; [by apply list_concat_spec |]. intros images h15 Hext15 Hlen15 [Himages _].
  eapply wp_bind_post; [apply setitem_spec; [done | | done] |]; [split; simpl; lia |].
  intros [] h16 Hext16 Hlen16 Heq16.
  eapply wp_bind_post; [by apply getitem_spec |]. intros a_annotations' h17 Hext17 Hlen17 Haa'.
  eapply wp_bind_post; [by apply deepcopy_spec |]. intros c' h18 Hext18 Hlen18 Hc'.
  eapply wp_bind_post; [by apply list_concat_spec |].
  intros annotations h19 Hext19 Hlen19 [Hannotations _].
  eapply wp_bind_post; [apply setitem_spec; [done | | done] |]; [split; simpl; lia |].
  intros [] h20 Hext20 Hlen20 Heq20.
  eapply wp_bind_post; [by apply items_of_orig |]. intros a_items h21 Hext21 Hlen21 Hitems.
  eapply wp_bind_post.
  { apply (wp_for_each_post _ (λ h', (merged < length h')%nat) (λ p, orig p.2));
      [| by rewrite Forall_fmap in Hitems | done | lia].
    intros [key value] hk Hextk Hm Hvalue. simpl in Hvalue.
    eapply wp_bind_post; [apply py_in_spec; [done | done] |].
    intros has hk1 Hextk1 Hlen1 _. destruct has; cbn [negb]; [apply wp_ret_post; [done | lia] |].
    eapply wp_bind_post; [by apply deepcopy_spec |]. intros c'' hk3 Hextk3 Hlen3 [Hc'' _].
    eapply wp_post_mono; [apply setitem_spec; [done | | done] |].
    - split; simpl; lia.
    - simpl. intros h' _ Hlen' _ ->. lia. }
  intros [] h22 Hext22 Hlen22 Hm22.
  apply wp_ret_post; [done |]. split; simpl; lia.
Qed.

End Functions.


End Frame.

(** ** Documents *)

Lemma read_prefix (h h' : heap) (n : nat) :
  closed h → h `prefix_of` h' →
  ∀ v, valid_val (length h) v → read n h' v = read n h v.
Proof.
  intros Hclosed Hp. induction n as [|n IH]; intros v Hv; destruct v; simpl; try done.
  simpl in Hv. destruct (lookup_lt_is_Some_2 h l Hv) as [o Ho].
  rewrite (prefix_lookup_Some _ _ _ _ Ho Hp), Ho.
  pose proof (proj1 (Forall_lookup _ _) Hclosed l o Ho) as Hvals.
  destruct o as [items|elems]; simpl in Hvals.
  - assert (mapM (λ '(k, x), pair k <$> read n h' x) items
            = mapM (λ '(k, x), pair k <$> read n h x) items) as ->; [| done].
    clear Ho. induction items as [|[k x] items IHitems]; simpl; [done |].
    apply Forall_cons in Hvals as [Hx Hitems].
    by rewrite (IH x Hx), (IHitems Hitems).
  - assert (mapM (read n h') elems = mapM (read n h) elems) as ->; [| done].
    clear Ho. induction elems as [|x elems IHelems]; simpl; [done |].
    apply Forall_cons in Hvals as [Hx Helems].
    by rewrite (IH x Hx), (IHelems Helems).
Qed.

(** C10. From a well-formed heap, [merge_instances] leaves every object that
    was there at its address and as it was, so that every document read
    through a reference of the old heap is the same afterwards; the objects
    that it adds refer to added objects only, and the result is a reference
    to one of them.  The call raises no exception but those of Python: in
    particular [deepcopy] never exceeds its depth. *)
Theorem merge_instances_frame (int_of_str : string → option Z) (h : heap) (a b : val) :
  closed h → valid_val (length h) a → valid_val (length h) b →
  ∀ r h', merge_instances int_of_str a b h = (r, h') →
    extends h h'
    ∧ (∀ n v, valid_val (length h) v → read n h' v = read n h v)
    ∧ match r with
      | Ok merged => fresh_val (length h) merged ∧ valid_val (length h') merged
      | Err e => python_error e
      end.
Proof.
  intros Hclosed Ha Hb r h' Hrun.
  pose proof (merge_instances_spec h Hclosed int_of_str h a b (extends_refl h) Ha Hb) as Hspec.
  apply (wp_eq _ _ _ _ _ Hspec) in Hrun as (Hext & _ & Hr).
  split_and!; [done | | done].
  intros n v Hv. apply read_prefix; [done | by destruct Hext | done].
Qed.

Lemma merge_instances_frame_witness :
  let out := merge_instances decimal_int (VRef 8) (VRef 14) example_heap in
  closed example_heap
  ∧ out.1 = Ok (VRef 18)
  ∧ extends example_heap out.2
  ∧ read 4 out.2 (VRef 8) = read 4 example_heap (VRef 8).
Proof.
  intros out.
  assert (closed example_heap) as Hclosed by (repeat constructor; simpl; lia).
  destruct (merge_instances_frame decimal_int example_heap (VRef 8) (VRef 14) Hclosed
              ltac:(simpl; lia) ltac:(simpl; lia) out.1 out.2 (surjective_pairing out))
    as (Hext & Hread & _).
  split_and!; [done | by vm_compute | done | apply Hread; simpl; lia].
Defined.

End StoreFacts.

(** The document held by the result of the example is the one that the
    merge of the two documents gives. *)
Example merge_instances_store_example :
  Store.read 4 Store.example_heap (Store.VRef 8) = Some dataset_a
  ∧ Store.read 4 Store.example_heap (Store.VRef 14) = Some dataset_b
  ∧ (let out := Store.merge_instances decimal_int (Store.VRef 8) (Store.VRef 14)
                  Store.example_heap in
     Ok <$> Store.read 4 out.2 (Store.VRef 18))
    = Some (merge_instances decimal_int dataset_a dataset_b).
Proof. split_and!; vm_compute; reflexivity. Qed.

(** * The helpers of the merge leave their arguments as they were *)

Module StoreMore.
Import Store StoreFacts.

(** X14. From a well-formed heap, [build_image_id_mapping] leaves every object
    that was there as it was: the images given keep their ids.  Every image
    that it returns is an object made by the call, and the only exceptions
    are those of Python. *)
Theorem build_image_id_mapping_frame (int_of_str : string → option Z) (h : heap)
    (images : val) (offset : Z) :
  closed h → valid_val (length h) images →
  ∀ r h', build_image_id_mapping int_of_str images offset h = (r, h') →
    extends h h'
    ∧ (∀ n v, valid_val (length h) v → read n h' v = read n h v)
    ∧ match r with
      | Ok built => Forall (fresh_val (length h)) built.1
      | Err e => python_error e
      end.
Proof.
  intros Hclosed Himages r h' Hrun.
  pose proof (build_image_id_mapping_spec h Hclosed int_of_str h images offset
                (extends_refl h) Himages) as Hspec.
  apply (wp_eq _ _ _ _ _ Hspec) in Hrun as (Hext & _ & Hr).
  split_and!; [done | | done].
  intros n v Hv. apply read_prefix; [done | by destruct Hext | done].
Qed.

(** X15. From a well-formed heap, [remap_annotations] leaves every object that
    was there as it was: the annotations given keep their ids and their
    image references.  Every annotation that it returns is an object made by
    the call, and the only exceptions are those of Python. *)
Theorem remap_annotations_frame (int_of_str : string → option Z) (h : heap)
    (annotations : val) (image_id_map : gmap Z Z) (offset : Z) :
  closed h → valid_val (length h) annotations →
  ∀ r h', remap_annotations int_of_str annotations image_id_map offset h = (r, h') →
    extends h h'
    ∧ (∀ n v, valid_val (length h) v → read n h' v = read n h v)
    ∧ match r with
      | Ok updated => Forall (fresh_val (length h)) updated
      | Err e => python_error e
      end.
Proof.
  intros Hclosed Hanns r h' Hrun.
  pose proof (remap_annotations_spec h Hclosed int_of_str h annotations image_id_map offset
                (extends_refl h) Hanns) as Hspec.
  apply (wp_eq _ _ _ _ _ Hspec) in Hrun as (Hext & _ & Hr).
  split_and!; [done | | done].
  intros n v Hv. apply read_prefix; [done | by destruct Hext | done].
Qed.

(** ** The functions that only read *)

Lemma read_only_bind {A B} (m : st A) (f : A → st B) :
  (∀ h, (m h).2 = h) → (∀ a h, (f a h).2 = h) → ∀ h, ((m ≫= f) h).2 = h.
Proof.
  intros Hm Hf h. unfold mbind, st_bind. specialize (Hm h).
  destruct (m h) as [[a|e] h1]; simpl in *; subst; [apply Hf | done].
Qed.

Lemma read_only_try_except {A} (body handler : st A) cs :
  (∀ h, (body h).2 = h) → (∀ h, (handler h).2 = h) →
  ∀ h, (try_except body cs handler h).2 = h.
Proof.
  intros Hb Hh h. unfold try_except. specialize (Hb h).
  destruct (body h) as [[a|e] h1]; simpl in *; subst; [done |].
  destruct (except cs e); [apply Hh | done].
Qed.

Lemma read_only_foldM {A B} (f : B → A → st B) (l : list A) :
  (∀ b a h, (f b a h).2 = h) → ∀ b h, (foldM f b l h).2 = h.
Proof.
  intros Hf. induction l as [|a l IH]; intros b h; [done |].
  simpl. apply read_only_bind; [apply Hf | apply IH].
Qed.

Lemma read_only_load l h : (load l h).2 = h.
Proof. unfold load. by destruct (h !! l). Qed.

Lemma read_only_py_in key v h : (py_in key v h).2 = h.
Proof.
  destruct v; try done. simpl.
  apply read_only_bind; [apply read_only_load |]. by intros [].
Qed.

Lemma read_only_getitem v key h : (getitem v key h).2 = h.
Proof.
  destruct v; try done. simpl.
  apply read_only_bind; [apply read_only_load |].
  intros [items|elems] h'; [| done]. by destruct (dict_get items key).
Qed.

Lemma read_only_is_dict v h : (is_dict v h).2 = h.
Proof.
  destruct v; try done. simpl. apply read_only_bind; [apply read_only_load | done].
Qed.

Lemma read_only_is_list v h : (is_list v h).2 = h.
Proof.
  destruct v; try done. simpl. apply read_only_bind; [apply read_only_load | done].
Qed.

Lemma read_only_elements_of v h : (elements_of v h).2 = h.
Proof.
  destruct v; try done. simpl.
  apply read_only_bind; [apply read_only_load |]. by intros [].
Qed.

Lemma read_only_get_max_id_loop int_of_str items key : ∀ max_id h,
  (get_max_id_loop int_of_str max_id items key h).2 = h.
Proof.
  induction items as [|item items IH]; intros max_id h; [done |].
  simpl. apply read_only_bind.
  - apply read_only_try_except; [| done].
    apply read_only_bind; [apply read_only_getitem |].
    intros v. by apply read_only_bind.
  - intros [value|] h'; apply IH.
Qed.

(** X16. [validate_coco_like] and [get_max_id] only read: whatever they are given
    and whatever their outcome, they leave every object as it was. *)
Theorem validation_read_only (int_of_str : string → option Z) (payload items : val)
    (label key : string) (h : heap) :
  (validate_coco_like payload label h).2 = h
  ∧ (get_max_id int_of_str items key h).2 = h.
Proof.
  split.
  - unfold validate_coco_like. apply read_only_bind; [apply read_only_is_dict |].
    intros [] h'; simpl; [| done].
    apply read_only_foldM. intros [] k h''.
    apply read_only_bind; [apply read_only_py_in |].
    intros [] h3; simpl; [| done].
    apply read_only_bind; [apply read_only_getitem |].
    intros v h4. apply read_only_bind; [apply read_only_is_list |].
    by intros [].
  - unfold get_max_id. apply read_only_bind; [apply read_only_elements_of |].
    intros elems h'. apply read_only_get_max_id_loop.
Qed.


Lemma example_heap_closed : closed example_heap.
Proof. repeat constructor; simpl; lia. Qed.

Lemma build_image_id_mapping_frame_witness :
  let out := build_image_id_mapping decimal_int (VRef 10) 2 example_heap in
  out.1 = Ok ([VRef 15], {[1 := 3]})
  ∧ extends example_heap out.2
  ∧ read 2 out.2 (VRef 10) = read 2 example_heap (VRef 10)
  ∧ read 1 out.2 (VRef 15) = Some (obj [("id", JInt 3); ("file_name", JStr "a.jpg")]).
Proof.
  intros out.
  destruct (build_image_id_mapping_frame decimal_int example_heap (VRef 10) 2
              example_heap_closed ltac:(simpl; lia) out.1 out.2 (surjective_pairing out))
    as (Hext & Hread & _).
  split_and!; [by vm_compute | done | apply Hread; simpl; lia | by vm_compute].
Defined.

Lemma remap_annotations_frame_witness :
  let out := remap_annotations decimal_int (VRef 13) {[1 := 3]} 1 example_heap in
  out.1 = Ok [VRef 15; VRef 16]
  ∧ extends example_heap out.2
  ∧ read 2 out.2 (VRef 13) = read 2 example_heap (VRef 13)
  ∧ read 1 out.2 (VRef 15)
    = Some (obj [("id", JInt 2); ("image_id", JInt 3); ("category_id", JInt 1)]).
Proof.
  intros out.
  destruct (remap_annotations_frame decimal_int example_heap (VRef 13) {[1 := 3]} 1
              example_heap_closed ltac:(simpl; lia) out.1 out.2 (surjective_pairing out))
    as (Hext & Hread & _).
  split_and!; [by vm_compute | done | apply Hread; simpl; lia | by vm_compute].
Defined.

End StoreMore.
